(** * utils::singleton<T> (singleton.hpp): a model and its properties

    The header defines the class template [singleton<T>] twice, selected by
    the preprocessor:

    - the _legacy_ definition (lines 65-118, [_MSC_VER < 1800]): a static
      pointer [object_], a static [boost::mutex mutex_], double-checked
      creation in [instance()], and a static guard [destroy_object_] whose
      destructor deletes the instance;
    - the _C++11_ definition (lines 165-178): a function-local
      [static T object;] inside [instance()].

    The type parameter [T] is arbitrary user code.  What the template can
    observe of it is modelled here: a constructor [T::T()] is a list of
    commands that may call [singleton<U>::instance()] for other types and may
    throw; which list runs may depend on how often the constructor has been
    entered before.  [T::~T()] is an atomic event. *)

From stdpp Require Import gmap list.

(** ** What is shared by the two definitions of the template *)

(** A type the template is instantiated at. *)
Definition tyid := nat.
(** The identity (address) of an object. *)
Definition addr := nat.
(** An exception object thrown by user code. *)
Definition exn := nat.

(** The body of a constructor [T::T()]. *)
Inductive cmd : Type :=
| Access (U : tyid)      (* singleton<U>::instance(); *)
| Throw (e : exn).       (* throw e; *)

(** Behaviour the C++ standard leaves undefined (or that never returns). *)
Inductive fault : Type :=
| NullDeref              (* [*object_] with [object_ == NULL] *)
| Relock                 (* locking a boost::mutex the thread already owns *)
| Reenter                (* re-entering the initialisation of a local static *)
| LockDestroyed.         (* locking a boost::mutex that has been destroyed *)

Inductive outcome (A : Type) : Type :=
| Ret (a : A)            (* normal return *)
| Exn (e : exn)          (* an exception leaves the call *)
| Undef (f : fault).
Arguments Ret {A} a.
Arguments Exn {A} e.
Arguments Undef {A} f.

(** Instrumentation: what a test harness would write to a shared log. *)
Inductive event : Type :=
| Entered (T : tyid)                 (* singleton<T>::instance() was called *)
| Constructed (T : tyid) (p : addr)  (* T::T() returned normally for *p *)
| Returned (T : tyid) (p : addr)     (* instance() returned the reference *p *)
| Destroyed (T : tyid) (p : addr).   (* T::~T() ran on *p *)

#[global] Instance event_eq_dec : EqDecision event.
Proof. solve_decision. Defined.

(** Running a constructor body, with [call U] standing for
    [singleton<U>::instance()].  The body has no handler: an exception of a
    nested call leaves the constructor. *)
Fixpoint run_body {S : Type} (call : tyid -> S -> option (outcome addr * S))
    (b : list cmd) (s : S) : option (outcome unit * S) :=
  match b with
  | [] => Some (Ret tt, s)
  | Access U :: b' =>
      match call U s with
      | None => None
      | Some (Ret _, s') => run_body call b' s'
      | Some (Exn e, s') => Some (Exn e, s')
      | Some (Undef f, s') => Some (Undef f, s')
      end
  | Throw e :: _ => Some (Exn e, s)
  end.

(** Chronological position of an event in a log kept newest first. *)
Fixpoint first_index (e : event) (l : list event) : option nat :=
  match l with
  | [] => None
  | x :: l' => if decide (x = e) then Some 0
               else match first_index e l' with
                    | Some i => Some (S i)
                    | None => None
                    end
  end.

Definition position (e : event) (lg : list event) : option nat :=
  first_index e (rev lg).

(** [a] is logged, and strictly before [b]. *)
Definition precedes (a b : event) (lg : list event) : Prop :=
  match position a lg, position b lg with
  | Some i, Some j => i < j
  | _, _ => False
  end.

(** The event is the run of a destructor. *)
Definition is_destruction (e : event) : Prop :=
  match e with Destroyed _ _ => True | _ => False end.

(** The type whose construction, or destruction, an event records. *)
Definition constructed_type (e : event) : option tyid :=
  match e with Constructed T _ => Some T | _ => None end.
Definition destroyed_type (e : event) : option tyid :=
  match e with Destroyed T _ => Some T | _ => None end.

(** ** The legacy definition (lines 65-118) *)

Module Legacy.

(** A heap cell obtained from [operator new]. *)
Inductive cell : Type :=
| Raw (T : tyid)         (* storage allocated, T::T() still running *)
| Obj (T : tyid).        (* a constructed T *)

Record state : Type := State {
  object_ : gmap tyid addr;     (* singleton<T>::object_, absent = NULL *)
  mutex_ : gset tyid;           (* the mutexes singleton<T>::mutex_ that are locked *)
  heap : gmap addr cell;        (* live storage *)
  next : addr;                  (* next address operator new hands out *)
  entries : gmap tyid nat;      (* how often T::T() has been entered *)
  log : list event              (* newest first *)
}.

Definition init : state := State ∅ ∅ ∅ 0 ∅ [].

Definition set_object_ (T : tyid) (v : option addr) (s : state) : state :=
  State (match v with Some p => <[T:=p]> (object_ s) | None => delete T (object_ s) end)
        (mutex_ s) (heap s) (next s) (entries s) (log s).

(** boost::mutex::scoped_lock lock(mutex_) and its destructor. *)
Definition lock (T : tyid) (s : state) : state :=
  State (object_ s) ({[T]} ∪ mutex_ s) (heap s) (next s) (entries s) (log s).
Definition unlock (T : tyid) (s : state) : state :=
  State (object_ s) (mutex_ s ∖ {[T]}) (heap s) (next s) (entries s) (log s).

Definition note (e : event) (s : state) : state :=
  State (object_ s) (mutex_ s) (heap s) (next s) (entries s) (e :: log s).

Definition set_cell (p : addr) (c : option cell) (s : state) : state :=
  State (object_ s) (mutex_ s)
        (match c with Some c => <[p:=c]> (heap s) | None => delete p (heap s) end)
        (next s) (entries s) (log s).

Definition entered (T : tyid) (s : state) : nat := default 0 (entries s !! T).

(** The allocation half of [new T]: fresh storage, and T::T() is entered. *)
Definition alloc (T : tyid) (s : state) : state :=
  State (object_ s) (mutex_ s) (<[next s:=Raw T]> (heap s)) (S (next s))
        (<[T:=S (entered T s)]> (entries s)) (log s).

(** Line 80: [return *object_;] *)
Definition deref (T : tyid) (s : state) : outcome addr * state :=
  match object_ s !! T with
  | Some p => (Ret p, note (Returned T p) s)
  | None => (Undef NullDeref, s)
  end.

Section Code.
(** [ctor T n]: the body T::T() runs when it is entered for the (n+1)-th time. *)
Variable ctor : tyid -> nat -> list cmd.

(** The expression [new T] of line 76 up to the return of T::T():
    storage is allocated and the constructor body runs in it. *)
Definition construct (call : tyid -> state -> option (outcome addr * state))
    (T : tyid) (s : state) : option (outcome unit * state) :=
  run_body call (ctor T (entered T s)) (alloc T s).

(** Lines 69-81: [static T& instance()]. *)
Fixpoint instance (fuel : nat) (T : tyid) (s : state)
    : option (outcome addr * state) :=
  match fuel with
  | 0 => None
  | S fuel' =>
    let s0 := note (Entered T) s in
    match object_ s0 !! T with                           (* 71 *)
    | Some _ => Some (deref T s0)                        (* 80 *)
    | None =>
      if decide (T ∈ mutex_ s0) then Some (Undef Relock, s0)
      else
        let s1 := lock T s0 in                           (* 73 *)
        match object_ s1 !! T with                       (* 74 *)
        | Some _ => Some (deref T (unlock T s1))         (* 79, 80 *)
        | None =>
          let p := next s1 in                            (* 76: new T *)
          match construct (instance fuel') T s1 with
          | None => None
          | Some (Ret _, s3) =>
              let s4 := set_object_ T (Some p)           (* 76: object_ = ... *)
                          (note (Constructed T p) (set_cell p (Some (Obj T)) s3)) in
              (* 77: destroy_object_.do_nothing() has no effect *)
              Some (deref T (unlock T s4))               (* 79, 80 *)
          | Some (Exn e, s3) =>
              (* the new-expression frees the storage; unwinding runs
                 the scoped_lock destructor *)
              Some (Exn e, unlock T (set_cell p None s3))
          | Some (Undef f, s3) => Some (Undef f, s3)
          end
        end
    end
  end.
End Code.

(** Lines 87-91: [static void destroy()]. *)
Definition destroy (T : tyid) (s : state) : state :=
  let s1 := match object_ s !! T with
            | Some p => note (Destroyed T p) (set_cell p None s)   (* 89: delete object_ *)
            | None => s                                          (* deleting NULL does nothing *)
            end in
  set_object_ T None s1.                                         (* 90 *)

(** Lines 98-104: [~object_destroyer()], the destructor of the static
    [singleton<T>::destroy_object_]. *)
Definition object_destroyer_dtor (T : tyid) (s : state) : state :=
  match object_ s !! T with
  | Some _ => destroy T s
  | None => s
  end.

(** Process exit: the runtime destroys the statics [destroy_object_] of the
    instantiated types.  They are static data members of a class template,
    so the source fixes no order among them: [order] is what the runtime
    picked. *)
Definition exit (order : list tyid) (s : state) : state :=
  foldl (fun s T => object_destroyer_dtor T s) s order.


(** A main program: calls of [instance()] one after the other, each in a
    [try] block that swallows the exception. *)
Fixpoint run_main (ctor : tyid -> nat -> list cmd) (fuel : nat)
    (main : list tyid) (s : state) : option state :=
  match main with
  | [] => Some s
  | T :: main' =>
      match instance ctor fuel T s with
      | Some (Ret _, s') | Some (Exn _, s') => run_main ctor fuel main' s'
      | Some (Undef _, _) | None => None
      end
  end.

Definition process (ctor : tyid -> nat -> list cmd) (fuel : nat)
    (main : list tyid) (order : list tyid) : option state :=
  exit order <$> run_main ctor fuel main init.

(** *** After exit *)

(** [instance_in dead] is lines 69-81 once the mutexes of the types [dead]
    have been destroyed: the lock of line 73 on a destroyed mutex is
    undefined behaviour, and nothing is constructed; everything else is as
    in [instance]. *)
Section AfterExit.
Variable ctor : tyid -> nat -> list cmd.
Variable dead : gset tyid.

Fixpoint instance_in (fuel : nat) (T : tyid) (s : state)
    : option (outcome addr * state) :=
  match fuel with
  | 0 => None
  | S fuel' =>
    let s0 := note (Entered T) s in
    match object_ s0 !! T with                           (* 71 *)
    | Some _ => Some (deref T s0)                        (* 80 *)
    | None =>
      if decide (T ∈ dead) then Some (Undef LockDestroyed, s0)   (* 73 *)
      else if decide (T ∈ mutex_ s0) then Some (Undef Relock, s0)
      else
        let s1 := lock T s0 in                           (* 73 *)
        match object_ s1 !! T with                       (* 74 *)
        | Some _ => Some (deref T (unlock T s1))         (* 79, 80 *)
        | None =>
          let p := next s1 in                            (* 76: new T *)
          match construct ctor (instance_in fuel') T s1 with
          | None => None
          | Some (Ret _, s3) =>
              let s4 := set_object_ T (Some p)           (* 76: object_ = ... *)
                          (note (Constructed T p) (set_cell p (Some (Obj T)) s3)) in
              Some (deref T (unlock T s4))               (* 79, 80 *)
          | Some (Exn e, s3) => Some (Exn e, unlock T (set_cell p None s3))
          | Some (Undef f, s3) => Some (Undef f, s3)
          end
        end
    end
  end.
End AfterExit.


(** *** Invariants of the legacy definition *)

(** What a call leaves alone: storage under construction, and a slot whose
    mutex is held while [object_] is still NULL. *)
Definition keep (s s' : state) : Prop :=
  next s <= next s' /\
  (forall p T, p < next s -> heap s !! p = Some (Raw T) -> heap s' !! p = Some (Raw T)) /\
  (forall T, T ∈ mutex_ s -> object_ s !! T = None ->
             object_ s' !! T = None /\ T ∈ mutex_ s').

(** The atomic transitions of the template on its statics. *)
Inductive prim : state -> state -> Prop :=
| prim_enter T s : prim s (note (Entered T) s)
| prim_return T p s :
    object_ s !! T = Some p -> prim s (note (Returned T p) s)
| prim_new T s :
    T ∉ mutex_ s -> object_ s !! T = None -> prim s (alloc T (lock T s))
| prim_publish T p s :
    T ∈ mutex_ s -> object_ s !! T = None ->
    heap s !! p = Some (Raw T) -> p < next s ->
    prim s (unlock T (set_object_ T (Some p)
             (note (Constructed T p) (set_cell p (Some (Obj T)) s))))
| prim_abort T p s :
    T ∈ mutex_ s -> object_ s !! T = None ->
    heap s !! p = Some (Raw T) -> p < next s ->
    prim s (unlock T (set_cell p None s)).

Definition wf (s : state) : Prop :=
  forall T p, object_ s !! T = Some p -> heap s !! p = Some (Obj T) /\ p < next s.

(** The log and the slots agree as long as nothing has been torn down. *)
Definition running (s : state) : Prop :=
  Forall (fun e => ~ is_destruction e) (log s) /\
  (forall T p, In (Constructed T p) (log s) <-> object_ s !! T = Some p).

(** What a call changes: the log grows, and whatever belongs to a type
    whose [instance()] was not entered meanwhile stays as it was; storage
    that existed before the call is not touched. *)
Definition frame (s s' : state) : Prop :=
  next s <= next s' /\
  (forall q, q < next s -> heap s' !! q = heap s !! q) /\
  exists new, log s' = new ++ log s /\
    forall U, ~ In (Entered U) new ->
      object_ s' !! U = object_ s !! U /\ (U ∈ mutex_ s' <-> U ∈ mutex_ s) /\
      entries s' !! U = entries s !! U.

(** The storage of the legacy definition and the slots agree: a constructed
    T is the one [object_] points to; raw storage belongs to the one
    construction of T that is running, under T's mutex. *)
Definition tight (s : state) : Prop :=
  (forall p T, heap s !! p = Some (Obj T) -> object_ s !! T = Some p) /\
  (forall p T, heap s !! p = Some (Raw T) ->
     T ∈ mutex_ s /\ object_ s !! T = None) /\
  (forall p q T, heap s !! p = Some (Raw T) ->
     heap s !! q = Some (Raw T) -> p = q) /\
  (forall T, T ∈ mutex_ s -> exists p, heap s !! p = Some (Raw T)) /\
  (forall p, next s <= p -> heap s !! p = None).

End Legacy.

(** ** The C++11 definition (lines 165-178) *)

Module Cxx11.

(** The local static [object] of [singleton<T>::instance()].  A slot absent
    from the map has not been initialised yet. *)
Inductive lifecycle : Type :=
| Constructing           (* its initialisation is running *)
| Live                   (* initialised *)
| Dead.                  (* destroyed at exit *)

Record state : Type := State {
  slot : gmap tyid lifecycle;
  atexit : list tyid;           (* destructors registered, last registered first *)
  entries : gmap tyid nat;      (* how often T::T() has been entered *)
  log : list event              (* newest first *)
}.

Definition init : state := State ∅ [] ∅ [].

(** The address of the static [object] of [singleton<T>::instance()]:
    one storage location per instantiation. *)
Definition object (T : tyid) : addr := T.

Definition set_slot (T : tyid) (v : option lifecycle) (s : state) : state :=
  State (match v with Some c => <[T:=c]> (slot s) | None => delete T (slot s) end)
        (atexit s) (entries s) (log s).

Definition note (e : event) (s : state) : state :=
  State (slot s) (atexit s) (entries s) (e :: log s).

Definition register (T : tyid) (s : state) : state :=
  State (slot s) (T :: atexit s) (entries s) (log s).

Definition entered (T : tyid) (s : state) : nat := default 0 (entries s !! T).

(** The initialisation of [object] starts: T::T() is entered. *)
Definition begin (T : tyid) (s : state) : state :=
  State (<[T:=Constructing]> (slot s)) (atexit s)
        (<[T:=S (entered T s)]> (entries s)) (log s).

Section Code.
Variable ctor : tyid -> nat -> list cmd.

(** The initialisation of the local static of line 171: the slot is
    marked and the constructor body runs. *)
Definition construct (call : tyid -> state -> option (outcome addr * state))
    (T : tyid) (s : state) : option (outcome unit * state) :=
  run_body call (ctor T (entered T s)) (begin T s).

(** Lines 169-173: [static T& instance()].  The meaning of line 171 is
    that of [stmt.dcl]: the object is initialised the first time control
    passes through the declaration; an initialisation that exits by an
    exception is not complete and is tried again the next time; once it
    completes, the destructor is registered to run at exit. *)
Fixpoint instance (fuel : nat) (T : tyid) (s : state)
    : option (outcome addr * state) :=
  match fuel with
  | 0 => None
  | S fuel' =>
    let s0 := note (Entered T) s in
    match slot s0 !! T with
    | Some Live | Some Dead =>
        Some (Ret (object T), note (Returned T (object T)) s0)     (* 172 *)
    | Some Constructing => Some (Undef Reenter, s0)
    | None =>
        match construct (instance fuel') T s0 with                 (* 171 *)
        | None => None
        | Some (Ret _, s2) =>
            let s3 := register T (note (Constructed T (object T))
                                    (set_slot T (Some Live) s2)) in
            Some (Ret (object T), note (Returned T (object T)) s3) (* 172 *)
        | Some (Exn e, s2) => Some (Exn e, set_slot T None s2)
        | Some (Undef f, s2) => Some (Undef f, s2)
        end
    end
  end.
End Code.

(** The destructor of one registered static runs. *)
Definition destroy_static (s : state) (T : tyid) : state :=
  note (Destroyed T (object T)) (set_slot T (Some Dead) s).

(** Process exit: the registered destructors run, last registered first. *)
Definition exit (s : state) : state :=
  foldl destroy_static (State (slot s) [] (entries s) (log s)) (atexit s).

Fixpoint run_main (ctor : tyid -> nat -> list cmd) (fuel : nat)
    (main : list tyid) (s : state) : option state :=
  match main with
  | [] => Some s
  | T :: main' =>
      match instance ctor fuel T s with
      | Some (Ret _, s') | Some (Exn _, s') => run_main ctor fuel main' s'
      | Some (Undef _, _) | None => None
      end
  end.

Definition process (ctor : tyid -> nat -> list cmd) (fuel : nat)
    (main : list tyid) : option state :=
  exit <$> run_main ctor fuel main init.

(** *** Invariants of the C++11 definition *)

(** What a call leaves alone: a slot whose initialisation is running, and a
    slot that is initialised or destroyed. *)
Definition keep (s s' : state) : Prop :=
  (forall T c, slot s !! T = Some c -> slot s' !! T = Some c) /\
  exists post, atexit s' = post ++ atexit s.

(** What a call changes. *)
Definition frame (s s' : state) : Prop :=
  exists new, log s' = new ++ log s /\
    forall U, ~ In (Entered U) new ->
      slot s' !! U = slot s !! U /\ entries s' !! U = entries s !! U.

(** The atomic transitions of [instance()] on the local statics. *)
Inductive prim : state -> state -> Prop :=
| prim_enter T s : prim s (note (Entered T) s)
| prim_return T s :
    slot s !! T = Some Live \/ slot s !! T = Some Dead ->
    prim s (note (Returned T (object T)) s)
| prim_begin T s :
    slot s !! T = None -> prim s (begin T s)
| prim_complete T s :
    slot s !! T = Some Constructing ->
    prim s (register T (note (Constructed T (object T)) (set_slot T (Some Live) s)))
| prim_abort T s :
    slot s !! T = Some Constructing -> prim s (set_slot T None s).

(** The log, the slots and the registered destructors agree as long as
    nothing has been torn down. *)
Definition running (s : state) : Prop :=
  Forall (fun e => ~ is_destruction e) (log s) /\
  (forall T p, In (Constructed T p) (log s) <-> slot s !! T = Some Live /\ p = object T) /\
  (forall T, In T (atexit s) <-> slot s !! T = Some Live) /\
  NoDup (atexit s) /\
  (forall T, slot s !! T <> Some Dead).

(** The initialisation of V's static is running. *)
Definition busy (s : state) (V : tyid) : Prop :=
  slot s !! V = Some Constructing.

End Cxx11.

(** ** Threads: the legacy definition under interleaving *)

Module LegacyThreads.

Definition tid := nat.

(** Where a thread is inside [instance()] (lines 69-81). *)
Inductive pc : Type :=
| Idle                          (* not inside instance() *)
| Check1                        (* 71: if (object_ == NULL) *)
| Acquire                       (* 73: scoped_lock lock(mutex_) *)
| Check2                        (* 74: if (object_ == NULL) *)
| New                           (* 76: operator new *)
| Construct (p : addr) (n : nat)  (* 76: T::T() runs on *p, its n-th entry *)
| Publish (p : addr)            (* 76: object_ = p *)
| Release                       (* 79: ~scoped_lock *)
| Unwind (e : exn)              (* T::T() threw: ~scoped_lock, then propagate *)
| Deref.                        (* 80: return *object_ *)

(** Storage handed out by operator new. *)
Inductive storage : Type := Raw | Built.

Record thread : Type := Thread {
  at_ : pc;
  result : option (outcome addr);  (* how the thread's last call ended *)
  fast : bool;                     (* object_ was set when the current call began *)
  locks : nat;                     (* acquisitions of mutex_ in the current call *)
  checks : nat                     (* evaluations of object_ == NULL in the current call *)
}.

Record state : Type := State {
  object_ : option addr;           (* singleton<T>::object_ *)
  mutex_ : option tid;             (* the owner of singleton<T>::mutex_ *)
  heap : gmap addr storage;
  next : addr;
  threads : tid -> thread;
  begun : nat;                     (* entries of T::T() *)
  done_ : nat;                     (* normal returns of T::T() *)
  failed : nat                     (* exits of T::T() by an exception *)
}.

Definition init : state :=
  State None None ∅ 0 (fun _ => Thread Idle None false 0 0) 0 0 0.

Definition goto (k : pc) (th : thread) : thread :=
  Thread k (result th) (fast th) (locks th) (checks th).
Definition checked (th : thread) : thread :=
  Thread (at_ th) (result th) (fast th) (locks th) (S (checks th)).
Definition locked (th : thread) : thread :=
  Thread (at_ th) (result th) (fast th) (S (locks th)) (checks th).
Definition finish (r : outcome addr) (th : thread) : thread :=
  Thread Idle (Some r) (fast th) (locks th) (checks th).

Definition set_thread (t : tid) (th : thread) (s : state) : state :=
  State (object_ s) (mutex_ s) (heap s) (next s)
        (fun t' => if decide (t' = t) then th else threads s t')
        (begun s) (done_ s) (failed s).
Definition set_object_ (v : option addr) (s : state) : state :=
  State v (mutex_ s) (heap s) (next s) (threads s) (begun s) (done_ s) (failed s).
Definition set_mutex_ (v : option tid) (s : state) : state :=
  State (object_ s) v (heap s) (next s) (threads s) (begun s) (done_ s) (failed s).

Section Code.
(** Whether the n-th entry of T::T() ends by throwing. *)
Variable ctor_throws : nat -> option exn.

(** One atomic step of thread [t]; [None] when the thread is blocked. *)
Definition step (t : tid) (s : state) : option state :=
  let th := threads s t in
  match at_ th with
  | Idle =>
      Some (set_thread t (Thread Check1 None (bool_decide (is_Some (object_ s))) 0 0) s)
  | Check1 =>
      Some (set_thread t
              (goto (if object_ s is Some _ then Deref else Acquire) (checked th)) s)
  | Acquire =>
      match mutex_ s with
      | None => Some (set_thread t (goto Check2 (locked th)) (set_mutex_ (Some t) s))
      | Some _ => None
      end
  | Check2 =>
      Some (set_thread t
              (goto (if object_ s is Some _ then Release else New) (checked th)) s)
  | New =>
      Some (set_thread t (goto (Construct (next s) (begun s)) th)
              (State (object_ s) (mutex_ s) (<[next s:=Raw]> (heap s)) (S (next s))
                     (threads s) (S (begun s)) (done_ s) (failed s)))
  | Construct p n =>
      match ctor_throws n with
      | None =>
          Some (set_thread t (goto (Publish p) th)
                  (State (object_ s) (mutex_ s) (<[p:=Built]> (heap s)) (next s)
                         (threads s) (begun s) (S (done_ s)) (failed s)))
      | Some e =>
          Some (set_thread t (goto (Unwind e) th)
                  (State (object_ s) (mutex_ s) (delete p (heap s)) (next s)
                         (threads s) (begun s) (done_ s) (S (failed s))))
      end
  | Publish p => Some (set_thread t (goto Release th) (set_object_ (Some p) s))
  | Release => Some (set_thread t (goto Deref th) (set_mutex_ None s))
  | Unwind e => Some (set_thread t (finish (Exn e) th) (set_mutex_ None s))
  | Deref =>
      Some (set_thread t
              (finish (match object_ s with
                       | Some p => Ret p
                       | None => Undef NullDeref
                       end) th) s)
  end.

(** A schedule names the thread that moves next; a blocked thread's turn is
    lost. *)
Definition exec (sched : list tid) (s : state) : state :=
  foldl (fun s t => default s (step t s)) s sched.
End Code.

(** The thread holds [mutex_]. *)
Definition holds (k : pc) : bool :=
  match k with
  | Check2 | New | Construct _ _ | Publish _ | Release | Unwind _ => true
  | _ => false
  end.

(** The counters when no constructor run is under way. *)
Definition settled (s : state) : Prop :=
  begun s = done_ s + failed s /\
  done_ s = (if object_ s is Some _ then 1 else 0).

(** What a thread's position says about the shared statics. *)
Definition local (s : state) (th : thread) : Prop :=
  match at_ th with
  | Idle =>
      match result th with
      | Some (Ret p) => object_ s = Some p
      | Some (Undef _) => False
      | _ => True
      end
  | Check1 | Acquire => True
  | Check2 => settled s
  | New | Unwind _ => object_ s = None /\ settled s
  | Construct p n =>
      object_ s = None /\ heap s !! p = Some Raw /\
      done_ s = 0 /\ n = failed s /\ begun s = S n
  | Publish p =>
      object_ s = None /\ heap s !! p = Some Built /\
      done_ s = 1 /\ begun s = 1 + failed s
  | Release | Deref => is_Some (object_ s)
  end /\
  (fast th = true ->
     is_Some (object_ s) /\ locks th = 0 /\
     match at_ th with
     | Check1 => checks th = 0
     | Deref => checks th = 1
     | Idle => checks th = 1 /\ exists p, result th = Some (Ret p)
     | _ => False
     end).

(** A result is that of a call that has ended. *)
Definition tidy (s : state) : Prop :=
  forall t, at_ (threads s t) <> Idle -> result (threads s t) = None.

Definition inv (s : state) : Prop :=
  (forall t, holds (at_ (threads s t)) = true <-> mutex_ s = Some t) /\
  (forall t, local s (threads s t)) /\
  (mutex_ s = None -> settled s) /\
  (forall p, object_ s = Some p -> heap s !! p = Some Built /\ settled s) /\
  (forall p, next s <= p -> heap s !! p = None).

(** The exception [e] was thrown by one of the entries of T::T() so far. *)
Definition thrown (ctor_throws : nat -> option exn) (s : state) (e : exn) : Prop :=
  exists n, n < begun s /\ ctor_throws n = Some e.

(** Every exception on its way out of [instance()], or delivered by it,
    was thrown by the constructor. *)
Definition caused (ctor_throws : nat -> option exn) (s : state) : Prop :=
  forall t e,
    (at_ (threads s t) = Unwind e -> thrown ctor_throws s e) /\
    (result (threads s t) = Some (Exn e) -> thrown ctor_throws s e).

(** Every piece of storage is the instance, or belongs to the thread that
    is constructing or about to publish it. *)
Definition accounted (s : state) : Prop :=
  forall p c, heap s !! p = Some c ->
    match c with
    | Built => object_ s = Some p \/ exists t, at_ (threads s t) = Publish p
    | Raw => exists t n, at_ (threads s t) = Construct p n
    end.

End LegacyThreads.

(** ** Threads: the C++11 definition under interleaving *)

Module Cxx11Threads.

Definition tid := nat.

(** Where a thread is inside [instance()] (lines 169-173). *)
Inductive pc : Type :=
| Idle                   (* not inside instance() *)
| Enter                  (* 171: control reaches the declaration *)
| Construct (n : nat)    (* 171: T::T() runs on the static, its n-th entry *)
| Return.                (* 172: return object *)

(** The initialisation state of the local static [object]. *)
Inductive guard : Type :=
| Fresh                  (* not initialised *)
| Busy (t : tid)         (* thread t is initialising it *)
| Ready.                 (* initialised *)

Record thread : Type := Thread {
  at_ : pc;
  result : option (outcome addr)   (* how the thread's last call ended *)
}.

Record state : Type := State {
  guard_ : guard;
  registered : nat;                (* destructors of [object] registered for exit *)
  threads : tid -> thread;
  begun : nat;                     (* entries of T::T() *)
  done_ : nat;                     (* normal returns of T::T() *)
  failed : nat                     (* exits of T::T() by an exception *)
}.

Definition init : state := State Fresh 0 (fun _ => Thread Idle None) 0 0 0.

(** The address of the static. *)
Definition object : addr := 0.

Definition set_thread (t : tid) (th : thread) (s : state) : state :=
  State (guard_ s) (registered s)
        (fun t' => if decide (t' = t) then th else threads s t')
        (begun s) (done_ s) (failed s).

Section Code.
(** Whether the n-th entry of T::T() ends by throwing. *)
Variable ctor_throws : nat -> option exn.

(** One atomic step of thread [t]; [None] when the thread is blocked.  At
    line 171 a thread that finds the initialisation running waits for it
    ([stmt.dcl]). *)
Definition step (t : tid) (s : state) : option state :=
  let th := threads s t in
  match at_ th with
  | Idle => Some (set_thread t (Thread Enter None) s)
  | Enter =>
      match guard_ s with
      | Ready => Some (set_thread t (Thread Return (result th)) s)
      | Fresh =>
          Some (set_thread t (Thread (Construct (begun s)) (result th))
                  (State (Busy t) (registered s) (threads s)
                         (S (begun s)) (done_ s) (failed s)))
      | Busy _ => None
      end
  | Construct n =>
      match ctor_throws n with
      | None =>
          Some (set_thread t (Thread Return (result th))
                  (State Ready (S (registered s)) (threads s)
                         (begun s) (S (done_ s)) (failed s)))
      | Some e =>
          Some (set_thread t (Thread Idle (Some (Exn e)))
                  (State Fresh (registered s) (threads s)
                         (begun s) (done_ s) (S (failed s))))
      end
  | Return => Some (set_thread t (Thread Idle (Some (Ret object))) s)
  end.

Definition exec (sched : list tid) (s : state) : state :=
  foldl (fun s t => default s (step t s)) s sched.
End Code.

(** What a thread's position says about the static. *)
Definition local (s : state) (th : thread) : Prop :=
  match at_ th with
  | Idle =>
      match result th with
      | Some (Ret p) => guard_ s = Ready /\ p = object
      | Some (Undef _) => False
      | _ => True
      end
  | Enter => True
  | Construct n => n = failed s /\ begun s = S n /\ done_ s = 0 /\ registered s = 0
  | Return => guard_ s = Ready
  end.

(** A result is that of a call that has ended. *)
Definition tidy (s : state) : Prop :=
  forall t, at_ (threads s t) <> Idle -> result (threads s t) = None.

Definition inv (s : state) : Prop :=
  (forall t, (exists n, at_ (threads s t) = Construct n) <-> guard_ s = Busy t) /\
  (forall t, local s (threads s t)) /\
  (guard_ s = Fresh -> begun s = failed s /\ done_ s = 0 /\ registered s = 0) /\
  (guard_ s = Ready -> begun s = 1 + failed s /\ done_ s = 1 /\ registered s = 1).

End Cxx11Threads.

(** ** Threads: the legacy definition when accesses may be reordered *)

(** A memory in which an ordinary store to one location says nothing about
    the stores that went before it: every location has a history of
    messages; a thread has a view, the position in each history below which
    it may no longer read; a release store attaches the storing thread's view
    to its message and an acquire load takes the view of the message it
    reads.  A lock reads the last message of the mutex as an acquire and an
    unlock is a release store. *)

Module Ordering.

Definition tid := nat.

Inductive loc : Type :=
| LObject              (* singleton<T>::object_ *)
| LMutex               (* singleton<T>::mutex_ *)
| LField.              (* a data member of the T object, set by T::T() *)

#[global] Instance loc_eq_dec : EqDecision loc.
Proof. solve_decision. Defined.

(** How an access is ordered. *)
Inductive order : Type :=
| Plain                (* an ordinary load or store *)
| Acq                  (* a load with acquire semantics *)
| Rel.                 (* a store with release semantics *)

Definition view := loc -> nat.
Definition bot : view := fun _ => 0.
Definition join (v w : view) : view := fun x => max (v x) (w x).
Definition at_least (x : loc) (i : nat) (v : view) : view :=
  fun y => if decide (y = x) then i else v y.

Record msg : Type := Msg {
  val : nat;
  seen : view            (* the view released with the store *)
}.

Definition memory := loc -> list msg.

Definition store_to (x : loc) (ms : msg) (m : memory) : memory :=
  fun y => if decide (y = x) then m x ++ [ms] else m y.

(** A load of [x] that reads the message at position [i]. *)
Definition load (x : loc) (o : order) (i : nat) (v : view) (m : memory)
    : option (nat * view) :=
  if decide (v x <= i) then
    match m x !! i with
    | Some ms =>
        Some (val ms,
              match o with
              | Acq => join (at_least x i v) (seen ms)
              | _ => at_least x i v
              end)
    | None => None
    end
  else None.

(** A store to [x]: the message goes to the end of the history. *)
Definition store (x : loc) (o : order) (a : nat) (v : view) (m : memory)
    : memory * view :=
  let i := length (m x) in
  let v' := at_least x i v in
  (store_to x (Msg a (match o with Rel => v' | _ => at_least x i bot end)) m, v').

(** Where a thread is: inside [instance()] (lines 69-81), then using the
    reference it got. *)
Inductive pc : Type :=
| Check1               (* 71: if (object_ == NULL) *)
| Acquire              (* 73: scoped_lock lock(mutex_) *)
| Check2               (* 74: if (object_ == NULL) *)
| Construct            (* 76: new T, T::T() sets the member *)
| Publish              (* 76: object_ = ... *)
| Release              (* 79: ~scoped_lock *)
| Deref                (* 80: return *object_ *)
| Use                  (* the caller reads the member through the reference *)
| Done (a : nat).      (* the value of the member the caller saw *)

Record thread : Type := Thread { at_ : pc; cur : view }.

Record state : Type := State { mem : memory; threads : tid -> thread }.

(** [object_] is NULL (0), the member is not set (0), the mutex is free (0);
    a held mutex has the value [S t] of its owner [t]. *)
Definition init : state :=
  State (fun _ => [Msg 0 bot]) (fun _ => Thread Check1 bot).

Definition set_thread (t : tid) (th : thread) (m : memory) (s : state) : state :=
  State m (fun t' => if decide (t' = t) then th else threads s t').

(** The order of the two accesses to [object_] that are not under the
    same lock: the load of line 71 and the store of line 76. *)
Record orders : Type := Orders { check_order : order; publish_order : order }.

(** The source: [object_] is a plain [T*], read and assigned as such. *)
Definition source : orders := Orders Plain Plain.

(** What claim C7 says the source does. *)
Definition claimed : orders := Orders Acq Rel.

(** One step of thread [t]; a load reads position [i]. *)
Definition step (os : orders) (t : tid) (i : nat) (s : state) : option state :=
  let th := threads s t in
  let v := cur th in
  let m := mem s in
  match at_ th with
  | Check1 =>
      '(a, v') ← load LObject (check_order os) i v m;
      Some (set_thread t (Thread (if a is 0 then Acquire else Deref) v') m s)
  | Acquire =>
      let j := pred (length (m LMutex)) in
      '(a, v') ← load LMutex Acq j v m;
      if a is 0 then
        let '(m', v'') := store LMutex Rel (S t) v' m in
        Some (set_thread t (Thread Check2 v'') m' s)
      else None
  | Check2 =>
      '(a, v') ← load LObject Plain i v m;
      Some (set_thread t (Thread (if a is 0 then Construct else Release) v') m s)
  | Construct =>
      let '(m', v') := store LField Plain 1 v m in
      Some (set_thread t (Thread Publish v') m' s)
  | Publish =>
      let '(m', v') := store LObject (publish_order os) 1 v m in
      Some (set_thread t (Thread Release v') m' s)
  | Release =>
      let '(m', v') := store LMutex Rel 0 v m in
      Some (set_thread t (Thread Deref v') m' s)
  | Deref =>
      '(a, v') ← load LObject Plain i v m;
      if a is 0 then None else Some (set_thread t (Thread Use v') m s)
  | Use =>
      '(a, v') ← load LField Plain i v m;
      Some (set_thread t (Thread (Done a) v') m s)
  | Done _ => None
  end.

(** A schedule names the thread that moves and the position its load
    reads; a step that cannot be taken is skipped. *)
Definition exec (os : orders) (sched : list (tid * nat)) (s : state) : state :=
  foldl (fun s '(t, i) => default s (step os t i s)) s sched.

(** The thread is between its lock and its unlock. *)
Definition holding (k : pc) : bool :=
  match k with
  | Check2 | Construct | Publish | Release => true
  | _ => false
  end.

(** A view that has [object_] set also has the member set. *)
Definition ready (v : view) : Prop := 1 <= v LObject -> 1 <= v LField.

Definition last_object (s : state) : nat := pred (length (mem s LObject)).

(** The history of [object_]: NULL first, then the pointer, released
    together with a view that has the member set. *)
Definition object_ok (s : state) : Prop :=
  forall i ms, mem s LObject !! i = Some ms ->
    (i = 0 -> val ms = 0 /\ forall x, seen ms x = 0) /\
    (1 <= i -> val ms = 1 /\ 1 <= seen ms LField /\ seen ms LObject <= last_object s).

Definition field_ok (s : state) : Prop :=
  forall i ms, mem s LField !! i = Some ms -> 1 <= i -> val ms = 1.

(** The mutex: when it is free its last message knows the last store to
    [object_]; when it is held, its owner does, and nobody else is between
    lock and unlock. *)
Definition owned (s : state) : Prop :=
  exists ms, last (mem s LMutex) = Some ms /\
    seen ms LObject <= last_object s /\
    match val ms with
    | 0 => seen ms LObject = last_object s /\
           forall t, holding (at_ (threads s t)) = false
    | S t => holding (at_ (threads s t)) = true /\
             cur (threads s t) LObject = last_object s /\
             forall t', holding (at_ (threads s t')) = true -> t' = t
    end.

(** With a release store at line 76, the view that an unlock releases has
    the member set when it has [object_] set. *)
Definition mutex_ok (s : state) : Prop :=
  owned s /\ forall ms, last (mem s LMutex) = Some ms -> ready (seen ms).

Definition thread_ok (s : state) (th : thread) : Prop :=
  ready (cur th) /\ cur th LObject <= last_object s /\
  match at_ th with
  | Publish => 1 <= cur th LField
  | Release | Deref | Use => 1 <= cur th LObject
  | Done a => a = 1
  | _ => True
  end.

(** The invariant of the executions in which line 71 is an acquire load and
    line 76 a release store. *)
Definition inv (s : state) : Prop :=
  (1 <= length (mem s LObject) /\ 1 <= length (mem s LField)) /\
  object_ok s /\ field_ok s /\ mutex_ok s /\
  forall t, thread_ok s (threads s t).

(** The invariant of all executions, whatever the order of the accesses
    of lines 71 and 76: [object_] is stored at most once and the constructor
    runs at most once. *)
Definition counted (s : state) : Prop :=
  (1 <= length (mem s LObject) /\ 1 <= length (mem s LField)) /\
  (forall i ms, mem s LObject !! i = Some ms ->
     (val ms = 0 <-> i = 0) /\ seen ms LObject <= last_object s) /\
  (last_object s = 0 ->
     length (mem s LField) = 1 \/ exists t, at_ (threads s t) = Publish) /\
  (1 <= last_object s -> last_object s = 1 /\ length (mem s LField) = 2) /\
  owned s /\
  forall t,
    cur (threads s t) LObject <= last_object s /\
    match at_ (threads s t) with
    | Construct => last_object s = 0 /\ length (mem s LField) = 1
    | Publish => last_object s = 0 /\ length (mem s LField) = 2
    | _ => True
    end.

(** A caller that has used the reference calls [instance()] again; a
    thread inside a call takes its next step. *)
Definition step_again (os : orders) (t : tid) (i : nat) (s : state) : option state :=
  match at_ (threads s t) with
  | Done _ => Some (set_thread t (Thread Check1 (cur (threads s t))) (mem s) s)
  | _ => step os t i s
  end.

Definition exec_again (os : orders) (sched : list (tid * nat)) (s : state) : state :=
  foldl (fun s '(t, i) => default s (step_again os t i s)) s sched.

(** The lines of a call that goes from the first check to the return:
    no lock, no second check. *)
Definition lock_free (k : pc) : bool :=
  match k with
  | Check1 | Deref | Use | Done _ => true
  | _ => false
  end.

(** The thread is past the checks of its call: it found [object_] set or
    has assigned it. *)
Definition arrived (k : pc) : bool :=
  match k with
  | Release | Deref | Use | Done _ => true
  | _ => false
  end.

(** How often thread [t] has locked the mutex: the lock messages it has
    stored in the history [h] of [mutex_]. *)
Definition locks_of (t : tid) (h : list msg) : nat :=
  count_occ Nat.eq_dec (map val h) (S t).

(** A view that knows a lock or an unlock of the mutex also has the member
    set. *)
Definition synced (v : view) : Prop := 1 <= v LMutex -> 1 <= v LField.

(** What the mutex alone guarantees, whatever the order of the accesses of
    lines 71 and 76: the thread inside the locked region, the unlock that
    follows a construction, and every thread that has been through the
    locked region know the constructor's store to the member. *)
Definition informed (s : state) : Prop :=
  field_ok s /\
  (forall i ms, mem s LObject !! i = Some ms -> synced (seen ms)) /\
  (forall ms, last (mem s LMutex) = Some ms ->
     val ms = 0 -> 1 <= last_object s -> 1 <= seen ms LField) /\
  forall t,
    (holding (at_ (threads s t)) = true -> 1 <= cur (threads s t) LMutex) /\
    match at_ (threads s t) with
    | Check1 | Acquire | Deref | Use => synced (cur (threads s t))
    | Check2 => 1 <= last_object s -> 1 <= cur (threads s t) LField
    | Construct => True
    | Publish | Release => 1 <= cur (threads s t) LField
    | Done a => 1 <= cur (threads s t) LMutex -> a = 1
    end.

End Ordering.

(** Example programs. *)

(** Thread 0 takes the slow path and constructs; thread 1 then finds
    [object_] set on the fast path and reads the member. *)
Definition stale_read : list (nat * nat) :=
  [(0, 0); (0, 0); (0, 0); (0, 0); (0, 0); (0, 0); (0, 1); (0, 1);
   (1, 1); (1, 1); (1, 0)].

(** Thread 0 takes the slow path; while it is still inside [instance()],
    before its unlock, thread 1 finds [object_] set at line 71, returns and
    reads the member; thread 0 then unlocks and returns. *)
Definition racing_first_calls : list (nat * nat) :=
  [(0, 0); (0, 0); (0, 0); (0, 0); (0, 0);
   (1, 1); (1, 1); (1, 0);
   (0, 0); (0, 1); (0, 1)].

(** Thread 0 constructs, returns and reads the member; thread 1 calls
    afterwards, still reads NULL at line 71, locks, finds [object_] set at
    line 74, unlocks and returns. *)
Definition late_caller : list (nat * nat) :=
  [(0, 0); (0, 0); (0, 0); (0, 0); (0, 0); (0, 0); (0, 1); (0, 1);
   (1, 0); (1, 0); (1, 1); (1, 0); (1, 1); (1, 1)].

(** Thread 0 constructs, returns, reads the member and calls again. *)
Definition second_call : list (nat * nat) :=
  [(0, 0); (0, 0); (0, 0); (0, 0); (0, 0); (0, 0); (0, 1); (0, 1); (0, 0)].

(** Type 0 (A) accesses type 1 (B) in its constructor; B's constructor is empty. *)
Definition ctor_dep (T : tyid) (n : nat) : list cmd :=
  match T with
  | 0 => [Access 1]
  | _ => []
  end.

(** Every constructor throws 7 when entered for the first time and
    succeeds afterwards. *)
Definition ctor_flaky (T : tyid) (n : nat) : list cmd :=
  match n with
  | 0 => [Throw 7]
  | _ => []
  end.

(** No constructor throws, no constructor calls [instance()]. *)
Definition ctor_plain (T : tyid) (n : nat) : list cmd := [].


(** A rank for [ctor_dep]: type 0 depends on type 1. *)
Definition rank_dep (T : tyid) : nat :=
  match T with 0 => 1 | _ => 0 end.


(** The state of a legacy process before exit, after type 0 (whose
    constructor accesses type 1) was accessed. *)
Definition legacy_dep_live : Legacy.state :=
  default Legacy.init (Legacy.run_main ctor_dep 2 [0] Legacy.init).

(** The state of a C++11 process before exit, after type 0 (whose
    constructor accesses type 1) was accessed. *)
Definition cxx11_dep_live : Cxx11.state :=
  default Cxx11.init (Cxx11.run_main ctor_dep 2 [0] Cxx11.init).

(** No entry of T::T() throws. *)
Definition never_throws (n : nat) : option exn := None.
(** The first entry of T::T() throws 7, the later ones return. *)
Definition throws_once (n : nat) : option exn :=
  match n with 0 => Some 7 | _ => None end.

(** * Properties *)

(** ** Constructor bodies *)

Lemma run_body_rel {S : Type} (R : S -> S -> Prop)
    (call : tyid -> S -> option (outcome addr * S)) :
  (forall s, R s s) ->
  (forall s1 s2 s3, R s1 s2 -> R s2 s3 -> R s1 s3) ->
  (forall U s r s', call U s = Some (r, s') -> R s s') ->
  forall b s r s', run_body call b s = Some (r, s') -> R s s'.
Proof.
  intros Hrefl Htrans Hcall b.
  induction b as [|c b IH]; intros s r s' Hrun; simpl in Hrun.
  - inversion Hrun; subst. apply Hrefl.
  - destruct c as [U|e].
    + destruct (call U s) as [[[a|e|f] s1]|] eqn:Hc; try discriminate.
      * eapply Htrans; [eapply Hcall; eassumption | eapply IH; eassumption].
      * inversion Hrun; subst. eapply Hcall; eassumption.
      * inversion Hrun; subst. eapply Hcall; eassumption.
    + inversion Hrun; subst. apply Hrefl.
Qed.

Lemma run_body_outcome {S : Type} (P : fault -> Prop)
    (call : tyid -> S -> option (outcome addr * S)) :
  (forall U s f s', call U s = Some (Undef f, s') -> P f) ->
  forall b s f s', run_body call b s = Some (Undef f, s') -> P f.
Proof.
  intros Hcall b.
  induction b as [|c b IH]; intros s f s' Hrun; simpl in Hrun.
  - discriminate.
  - destruct c as [U|e]; [|discriminate].
    destruct (call U s) as [[[a|e|f'] s1]|] eqn:Hc; try discriminate.
    + eapply IH; eassumption.
    + inversion Hrun; subst. eapply Hcall; eassumption.
Qed.

Lemma run_body_access {S : Type} (R : S -> S -> Prop) (Q : tyid -> S -> Prop)
    (call : tyid -> S -> option (outcome addr * S)) :
  (forall s, R s s) ->
  (forall s1 s2 s3, R s1 s2 -> R s2 s3 -> R s1 s3) ->
  (forall U s r s', call U s = Some (r, s') -> R s s') ->
  (forall U s p s', call U s = Some (Ret p, s') -> Q U s') ->
  (forall U s s', Q U s -> R s s' -> Q U s') ->
  forall b s s' B,
    run_body call b s = Some (Ret tt, s') -> In (Access B) b -> Q B s'.
Proof.
  intros Hrefl Htrans Hcall Hret Hpres b.
  induction b as [|c b IH]; intros s s' B Hrun Hin; [done|].
  simpl in Hrun. destruct c as [U|e]; [|discriminate].
  destruct (call U s) as [[[p|e|f] s1]|] eqn:Hc; try discriminate.
  destruct Hin as [[= ->]|Hin].
  - eapply Hpres; [eapply Hret; eassumption|].
    eapply (run_body_rel R); [exact Hrefl|exact Htrans|exact Hcall|exact Hrun].
  - eapply IH; eassumption.
Qed.

(** ** Positions in the log *)
Lemma first_index_lt e l i : first_index e l = Some i -> i < length l.
Proof.
  revert i. induction l as [|x l IH]; intros i; simpl; [done|].
  case_decide; [intros [= <-]; lia|].
  destruct (first_index e l) as [j|]; [|done]. intros [= <-].
  specialize (IH j eq_refl). lia.
Qed.

Lemma first_index_in e l : In e l -> is_Some (first_index e l).
Proof.
  induction l as [|x l IH]; simpl; [done|]. intros Hin.
  case_decide; [eauto|]. destruct Hin as [->|Hin]; [done|].
  destruct (IH Hin) as [j ->]. eauto.
Qed.

Lemma first_index_app_in e l1 l2 :
  In e l1 -> first_index e (l1 ++ l2) = first_index e l1.
Proof.
  induction l1 as [|x l1 IH]; simpl; [done|]. intros Hin.
  case_decide; [done|]. destruct Hin as [->|Hin]; [done|]. by rewrite IH.
Qed.

Lemma first_index_app_notin e l1 l2 :
  ~ In e l1 ->
  first_index e (l1 ++ l2) = (fun i => length l1 + i) <$> first_index e l2.
Proof.
  induction l1 as [|x l1 IH]; simpl; intros Hin.
  - by destruct (first_index e l2).
  - case_decide; [subst; tauto|]. rewrite IH by tauto.
    by destruct (first_index e l2).
Qed.

(** [a] is in the older part of the log and [b] only in the newer part. *)
Lemma precedes_old_new a b new old :
  In a old -> ~ In b old -> In b new -> precedes a b (new ++ old).
Proof.
  intros Ha Hb Hb'. unfold precedes, position. rewrite rev_app_distr.
  rewrite first_index_app_in by (by apply in_rev in Ha).
  rewrite first_index_app_notin by (by rewrite <- in_rev).
  destruct (first_index_in a (rev old)) as [i Hi]; [by apply in_rev in Ha|].
  destruct (first_index_in b (rev new)) as [j Hj]; [by apply in_rev in Hb'|].
  rewrite Hi, Hj. simpl. apply first_index_lt in Hi. rewrite length_rev in *. lia.
Qed.

(** Both events are in the newer part only: the older part does not matter. *)
Lemma precedes_new a b new old :
  ~ In a old -> ~ In b old -> precedes a b new -> precedes a b (new ++ old).
Proof.
  intros Ha Hb. unfold precedes, position. rewrite rev_app_distr.
  rewrite !first_index_app_notin by (by rewrite <- in_rev).
  destruct (first_index a (rev new)), (first_index b (rev new)); simpl; try done. lia.
Qed.

(** In a list without duplicates, what comes first has the smaller index. *)
Lemma precedes_split (D : tyid -> event) (l2 l1 : list tyid) (A B : tyid) :
  (forall x y, D x = D y -> x = y) ->
  NoDup (l2 ++ A :: l1) -> In B l1 ->
  precedes (D A) (D B) (rev (map D (l2 ++ A :: l1))).
Proof.
  intros Hinj Hnd HB. unfold precedes, position. rewrite rev_involutive, map_app. simpl.
  apply NoDup_app in Hnd as (Hnd2 & Hdisj & Hnd1).
  apply NoDup_cons in Hnd1 as [HA1 Hnd1].
  assert (HA2 : ~ In (D A) (map D l2)).
  { rewrite in_map_iff. intros (x & Hx & Hin). apply Hinj in Hx as ->.
    apply (Hdisj A); [by apply list_elem_of_In|]. left. }
  assert (HB2 : ~ In (D B) (map D l2)).
  { rewrite in_map_iff. intros (x & Hx & Hin). apply Hinj in Hx as ->.
    apply (Hdisj B); [by apply list_elem_of_In|]. right. by apply list_elem_of_In. }
  rewrite !first_index_app_notin by done. simpl.
  rewrite decide_True by done.
  rewrite decide_False.
  2:{ intros Heq. apply Hinj in Heq as ->. apply HA1. by apply list_elem_of_In. }
  destruct (first_index_in (D B) (map D l1)) as [j ->]; [by apply in_map|].
  simpl. lia.
Qed.

Lemma count_occ_nodup (l : list tyid) (D : tyid -> event) (T : tyid) :
  (forall x y, D x = D y -> x = y) ->
  NoDup l -> In T l -> count_occ event_eq_dec (map D l) (D T) = 1.
Proof.
  intros Hinj. induction l as [|x l IH]; intros Hnd Hin; [done|].
  apply NoDup_cons in Hnd as [Hx Hnd]. simpl map.
  destruct (decide (x = T)) as [->|Hne].
  - rewrite count_occ_cons_eq by done.
    rewrite (proj1 (count_occ_not_In event_eq_dec (map D l) (D T))); [done|].
    rewrite in_map_iff. intros (y & Hy & Hiny). apply Hinj in Hy as ->.
    apply Hx. by apply list_elem_of_In.
  - rewrite count_occ_cons_neq by (intros Heq; by apply Hinj in Heq).
    destruct Hin as [->|Hin]; [done|]. by apply IH.
Qed.

(** ** The legacy definition, one thread *)

Section LegacyInvariants.
Import Legacy.

Lemma keep_refl s : keep s s.
Proof. unfold keep; auto. Qed.

Lemma keep_trans s1 s2 s3 : keep s1 s2 -> keep s2 s3 -> keep s1 s3.
Proof.
  intros (Hn1 & Hh1 & Hm1) (Hn2 & Hh2 & Hm2). split; [lia|]. split.
  - intros p T Hp Hc. apply Hh2; [lia|]. by apply Hh1.
  - intros T Hin Ho. destruct (Hm1 T Hin Ho) as [Ho' Hin']. by apply Hm2.
Qed.

Lemma legacy_prim_wf s s' : prim s s' -> wf s -> wf s'.
Proof.
  intros Hp Hwf. destruct Hp; intros U q; simpl.
  - apply Hwf.
  - apply Hwf.
  - intros Hq. destruct (Hwf U q Hq) as [Hc Hlt]. split; [|lia].
    rewrite lookup_insert_ne by lia. done.
  - destruct (decide (T = U)) as [->|Hne].
    + rewrite lookup_insert_eq. intros [= <-]. by rewrite lookup_insert_eq.
    + rewrite lookup_insert_ne by done. intros Hq.
      destruct (Hwf U q Hq) as [Hc Hlt]. split; [|done].
      rewrite lookup_insert_ne by congruence. done.
  - intros Hq. destruct (Hwf U q Hq) as [Hc Hlt]. split; [|done].
    rewrite lookup_delete_ne by congruence. done.
Qed.

Lemma legacy_steps_wf s s' : rtc prim s s' -> wf s -> wf s'.
Proof. induction 1; eauto using legacy_prim_wf. Qed.

Lemma legacy_prim_running s s' : prim s s' -> running s -> running s'.
Proof.
  intros Hp [Hnd Hco]. destruct Hp; split; simpl.
  - constructor; [simpl; tauto | done].
  - intros U q. rewrite <- Hco. split; [intros [[=]|]; done | tauto].
  - constructor; [simpl; tauto | done].
  - intros U q. rewrite <- Hco. split; [intros [[=]|]; done | tauto].
  - done.
  - done.
  - constructor; [simpl; tauto | done].
  - intros U q. destruct (decide (T = U)) as [->|Hne].
    + rewrite lookup_insert_eq. split.
      * intros [[= ->]|Hin]; [done|]. apply Hco in Hin. congruence.
      * intros [= ->]. by left.
    + rewrite lookup_insert_ne by done. rewrite <- Hco.
      split; [intros [[=]|]; done | tauto].
  - done.
  - done.
Qed.

Lemma legacy_steps_running s s' : rtc prim s s' -> running s -> running s'.
Proof. induction 1; eauto using legacy_prim_running. Qed.

Lemma legacy_init_wf : wf init.
Proof. intros T p. simpl. by rewrite lookup_empty. Qed.

Lemma legacy_init_running : running init.
Proof.
  split; simpl; [constructor|]. intros T p. rewrite lookup_empty. split; [tauto|done].
Qed.

Lemma legacy_frame_refl s : frame s s.
Proof. split; [lia|]. split; [done|]. exists []. split; [done|]. intros; tauto. Qed.

Lemma legacy_frame_trans s1 s2 s3 : frame s1 s2 -> frame s2 s3 -> frame s1 s3.
Proof.
  intros (Hn1 & Hh1 & new1 & Hl1 & Hf1) (Hn2 & Hh2 & new2 & Hl2 & Hf2).
  split; [lia|]. split.
  - intros q Hq. rewrite Hh2 by lia. by apply Hh1.
  - exists (new2 ++ new1). split; [rewrite Hl2, Hl1; by rewrite app_assoc|].
    intros U HU. rewrite in_app_iff in HU.
    destruct (Hf1 U) as (Ho1 & Hm1 & He1); [tauto|].
    destruct (Hf2 U) as (Ho2 & Hm2 & He2); [tauto|].
    rewrite Ho2, Ho1, Hm2, Hm1, He2, He1. tauto.
Qed.

Lemma legacy_destroy_frame T U s :
  T <> U ->
  object_ (destroy T s) !! U = object_ s !! U /\
  mutex_ (destroy T s) = mutex_ s /\
  (wf s -> forall q, object_ s !! U = Some q -> heap (destroy T s) !! q = heap s !! q).
Proof.
  intros Hne. unfold destroy. destruct (object_ s !! T) as [p|] eqn:Ho; simpl.
  - rewrite lookup_delete_ne by done. split; [done|]. split; [done|].
    intros Hwf q Hq. destruct (Hwf _ _ Ho) as [Hp _]. destruct (Hwf _ _ Hq) as [Hq' _].
    rewrite lookup_delete_ne by congruence. done.
  - rewrite lookup_delete_ne by done. done.
Qed.

Lemma legacy_destroy_wf T s : wf s -> wf (destroy T s).
Proof.
  intros Hwf U q. unfold destroy. destruct (object_ s !! T) as [p|] eqn:Ho; simpl.
  - destruct (decide (T = U)) as [->|Hne]; [by rewrite lookup_delete_eq|].
    rewrite lookup_delete_ne by done. intros Hq.
    destruct (Hwf _ _ Ho) as [Hp _]. destruct (Hwf _ _ Hq) as [Hq' Hlt].
    rewrite lookup_delete_ne by congruence. done.
  - destruct (decide (T = U)) as [->|Hne]; [by rewrite lookup_delete_eq|].
    rewrite lookup_delete_ne by done. apply Hwf.
Qed.

Lemma legacy_dtor_log T s :
  log (object_destroyer_dtor T s) =
  match object_ s !! T with Some p => [Destroyed T p] | None => [] end ++ log s.
Proof.
  unfold object_destroyer_dtor, destroy. destruct (object_ s !! T); reflexivity.
Qed.

Lemma legacy_dtor_object T U s :
  object_ (object_destroyer_dtor T s) !! U =
  if decide (T = U) then None else object_ s !! U.
Proof.
  unfold object_destroyer_dtor, destroy.
  destruct (object_ s !! T) eqn:Ho; simpl; case_decide; subst;
    rewrite ?lookup_delete_eq, ?lookup_delete_ne by done; done.
Qed.

Lemma legacy_dtor_heap T s q :
  heap (object_destroyer_dtor T s) !! q =
  if decide (object_ s !! T = Some q) then None else heap s !! q.
Proof.
  unfold object_destroyer_dtor, destroy.
  destruct (decide (object_ s !! T = Some q)) as [Heq|Hne].
  - rewrite Heq. simpl. apply lookup_delete_eq.
  - destruct (object_ s !! T) as [p|] eqn:Ho; simpl; [|done].
    apply lookup_delete_ne. congruence.
Qed.

Lemma legacy_exit_heap order : forall s q,
  heap s !! q = None -> heap (exit order s) !! q = None.
Proof.
  induction order as [|T order IH]; intros s q Hq; simpl; [done|].
  apply IH. rewrite legacy_dtor_heap. by case_decide.
Qed.

Lemma legacy_exit_spec order : forall s,
  NoDup order ->
  exists td,
    log (exit order s) = td ++ log s /\
    Forall is_destruction td /\
    (forall T p, In (Destroyed T p) td -> In T order /\ object_ s !! T = Some p) /\
    (forall T p, In T order -> object_ s !! T = Some p ->
       count_occ event_eq_dec td (Destroyed T p) = 1 /\
       heap (exit order s) !! p = None) /\
    (forall T, In T order -> object_ (exit order s) !! T = None) /\
    (forall T, ~ In T order -> object_ (exit order s) !! T = object_ s !! T).
Proof.
  induction order as [|T0 order IH]; intros s Hnd.
  - exists []. simpl. repeat split; auto; try tauto. 
  - apply NoDup_cons in Hnd as [Hnotin Hnd]. rewrite list_elem_of_In in Hnotin.
    destruct (IH (object_destroyer_dtor T0 s) Hnd)
      as (td & Hlog & Hall & Hin & Hcount & Hnone & Hkeep).
    set (d := match object_ s !! T0 with Some p => [Destroyed T0 p] | None => [] end).
    exists (td ++ d). simpl. split; [|split; [|split; [|split; [|split]]]].
    + rewrite Hlog, legacy_dtor_log. by rewrite app_assoc.
    + apply Forall_app. split; [done|]. unfold d. destruct (object_ s !! T0); repeat constructor.
    + intros T p HTp. apply in_app_iff in HTp as [HTp|HTp].
      * apply Hin in HTp as [Hord Hobj]. rewrite legacy_dtor_object in Hobj.
        case_decide; [done|]. tauto.
      * unfold d in HTp. destruct (object_ s !! T0) as [p0|] eqn:Ho0; simpl in HTp; [|done].
        destruct HTp as [[= <- <-]|[]]. tauto.
    + intros T p [<-|HT] Hobj.
      * rewrite count_occ_app. unfold d. rewrite Hobj.
        rewrite count_occ_cons_eq by done. split.
        -- rewrite (proj1 (count_occ_not_In event_eq_dec td (Destroyed T0 p))); [done|].
           intros Habs. apply Hin in Habs. tauto.
        -- apply legacy_exit_heap. rewrite legacy_dtor_heap. by rewrite decide_True.
      * assert (T0 <> T) by congruence.
        destruct (Hcount T p HT) as [Hc Hh]; [rewrite legacy_dtor_object; by case_decide|].
        split; [|done]. rewrite count_occ_app, Hc. unfold d.
        destruct (object_ s !! T0); [|done]. rewrite count_occ_cons_neq by congruence. done.
    + intros T [<-|HT].
      * rewrite Hkeep by done. rewrite legacy_dtor_object. by rewrite decide_True.
      * by apply Hnone.
    + intros T HT. rewrite Hkeep by tauto. rewrite legacy_dtor_object.
      rewrite decide_False; [done|]. tauto.
Qed.

(** The guard deletes only a live instance. *)
Lemma legacy_guard_idle T s :
  object_ s !! T = None -> object_destroyer_dtor T s = s.
Proof. intros H. unfold object_destroyer_dtor. by rewrite H. Qed.

Lemma legacy_guard_once T s :
  object_destroyer_dtor T (object_destroyer_dtor T s) = object_destroyer_dtor T s.
Proof.
  apply legacy_guard_idle. rewrite legacy_dtor_object. by rewrite decide_True.
Qed.

End LegacyInvariants.

Section LegacyCalls.
Import Legacy.
Variable ctor : tyid -> nat -> list cmd.

Lemma legacy_instance_keep fuel :
  forall T s r s', instance ctor fuel T s = Some (r, s') -> keep s s'.
Proof.
  induction fuel as [|fuel IH]; intros T s r s' H; [discriminate|].
  simpl in H.
  destruct (object_ s !! T) as [p|] eqn:Ho.
  - unfold deref in H. simpl in H. rewrite Ho in H. inversion H; subst.
    unfold keep; simpl; auto.
  - destruct (decide (T ∈ mutex_ s)) as [Hin|Hnin].
    + inversion H; subst. unfold keep; simpl; auto.
    + destruct (construct ctor (instance ctor fuel) T (lock T (note (Entered T) s)))
        as [[[[]|e|f] s3]|] eqn:Hc; try discriminate.
      all: assert (Hk : keep (alloc T (lock T (note (Entered T) s))) s3)
        by (eapply (run_body_rel keep); eauto using keep_refl, keep_trans).
      all: destruct Hk as (Hn & Hh & Hm); simpl in Hn.
      * unfold deref in H; simpl in H. rewrite lookup_insert_eq in H.
        inversion H; subst; clear H. unfold keep; simpl. split; [lia|]. split.
        -- intros p U Hp Hcell. rewrite lookup_insert_ne by lia.
           apply Hh; simpl; [lia|]. rewrite lookup_insert_ne by lia. done.
        -- intros U Hin HoU. assert (U <> T) by congruence.
           destruct (Hm U) as [Ho1 Hin1]; simpl; [set_solver| done |].
           rewrite lookup_insert_ne by done. split; [done|set_solver].
      * inversion H; subst; clear H. unfold keep; simpl. split; [lia|]. split.
        -- intros p U Hp Hcell. rewrite lookup_delete_ne by lia.
           apply Hh; simpl; [lia|]. rewrite lookup_insert_ne by lia. done.
        -- intros U Hin HoU. assert (U <> T) by congruence.
           destruct (Hm U) as [Ho1 Hin1]; simpl; [set_solver| done |].
           split; [done|set_solver].
      * inversion H; subst; clear H. unfold keep; simpl. split; [lia|]. split.
        -- intros p U Hp Hcell.
           apply Hh; simpl; [lia|]. rewrite lookup_insert_ne by lia. done.
        -- intros U Hin HoU. 
           destruct (Hm U) as [Ho1 Hin1]; simpl; [set_solver| done |]. done.
Qed.

Lemma legacy_instance_steps fuel :
  forall T s r s', instance ctor fuel T s = Some (r, s') -> rtc prim s s'.
Proof.
  induction fuel as [|fuel IH]; intros T s r s' H; [discriminate|].
  simpl in H.
  destruct (object_ s !! T) as [p|] eqn:Ho.
  - unfold deref in H. simpl in H. rewrite Ho in H. inversion H; subst.
    eapply rtc_l; [apply prim_enter|]. apply rtc_once. by apply prim_return.
  - destruct (decide (T ∈ mutex_ s)) as [Hin|Hnin].
    + inversion H; subst. apply rtc_once, prim_enter.
    + destruct (construct ctor (instance ctor fuel) T (lock T (note (Entered T) s)))
        as [[[[]|e|f] s3]|] eqn:Hc; try discriminate.
      all: set (s2 := alloc T (lock T (note (Entered T) s))) in *.
      all: assert (Hk : keep s2 s3)
        by (eapply (run_body_rel keep); eauto using keep_refl, keep_trans, legacy_instance_keep).
      all: assert (Hb : rtc prim s2 s3)
        by (eapply (run_body_rel (rtc prim)); eauto using rtc_refl, rtc_trans).
      all: destruct Hk as (Hn & Hh & Hm).
      all: assert (Hcell : heap s3 !! next s = Some (Raw T))
        by (apply Hh; simpl; [lia | apply lookup_insert_eq]).
      all: assert (Hslot : object_ s3 !! T = None /\ T ∈ mutex_ s3)
        by (apply Hm; simpl; [set_solver | done]).
      all: destruct Hslot as [Ho3 Hin3].
      all: assert (Hpre : rtc prim s s2)
        by (eapply rtc_l; [apply (prim_enter T)|]; apply rtc_once; by apply prim_new).
      * unfold deref in H; simpl in H. rewrite lookup_insert_eq in H.
        inversion H; subst; clear H.
        eapply rtc_trans; [exact Hpre|]. eapply rtc_trans; [exact Hb|].
        eapply rtc_l; [apply (prim_publish T (next s)); simpl in *; auto; lia|].
        apply rtc_once. apply prim_return. simpl. apply lookup_insert_eq.
      * inversion H; subst; clear H.
        eapply rtc_trans; [exact Hpre|]. eapply rtc_trans; [exact Hb|].
        apply rtc_once. apply (prim_abort T (next s)); simpl in *; auto; lia.
      * inversion H; subst; clear H.
        eapply rtc_trans; [exact Hpre|]. exact Hb.
Qed.

Lemma legacy_run_main_steps fuel main :
  forall s s', run_main ctor fuel main s = Some s' -> rtc prim s s'.
Proof.
  induction main as [|T main IH]; intros s s' H; simpl in H.
  - inversion H; subst. apply rtc_refl.
  - destruct (instance ctor fuel T s) as [[[p|e|f] s1]|] eqn:Hi; try discriminate.
    all: eapply rtc_trans; [eapply legacy_instance_steps; eassumption | by apply IH].
Qed.

Lemma legacy_instance_frame fuel :
  forall T s r s', instance ctor fuel T s = Some (r, s') -> frame s s'.
Proof.
  induction fuel as [|fuel IH]; intros T s r s' H; [discriminate|].
  simpl in H.
  destruct (object_ s !! T) as [p|] eqn:Ho.
  - unfold deref in H. simpl in H. rewrite Ho in H. inversion H; subst.
    split; [done|]. split; [done|]. exists [Returned T p; Entered T]. simpl. split; [done|].
    intros U _; simpl; repeat split; auto.
  - destruct (decide (T ∈ mutex_ s)) as [Hin|Hnin].
    + inversion H; subst.
      split; [done|]. split; [done|]. exists [Entered T]. simpl. split; [done|].
      intros U _; simpl; repeat split; auto.
    + destruct (construct ctor (instance ctor fuel) T (lock T (note (Entered T) s)))
        as [[[[]|e|f] s3]|] eqn:Hc; try discriminate.
      all: assert (Hk : frame (alloc T (lock T (note (Entered T) s))) s3)
        by (eapply (run_body_rel frame); eauto using legacy_frame_refl, legacy_frame_trans).
      all: destruct Hk as (Hn & Hh & new & Hl & Hf); simpl in Hn, Hh, Hl.
      * unfold deref in H; simpl in H. rewrite lookup_insert_eq in H.
        inversion H; subst; clear H. unfold frame; simpl.
        split; [lia|]. split.
        { intros q Hq. rewrite lookup_insert_ne by lia. rewrite Hh by lia.
          rewrite lookup_insert_ne by lia. done. }
        exists (Returned T (next s) :: Constructed T (next s) :: new ++ [Entered T]).
        split; [rewrite Hl; simpl; by rewrite <- app_assoc|].
        intros U HU. simpl in HU. rewrite in_app_iff in HU. simpl in HU.
        assert (HUT : U <> T) by (intros ->; tauto).
        destruct (Hf U) as (Ho3 & Hm3 & He3); [tauto|]. simpl in Ho3, Hm3, He3.
        rewrite lookup_insert_ne by done. rewrite lookup_insert_ne in He3 by done.
        split; [done|]. split; [|done]. rewrite elem_of_difference, Hm3. set_solver.
      * inversion H; subst; clear H. unfold frame; simpl.
        split; [lia|]. split.
        { intros q Hq. rewrite lookup_delete_ne by lia. rewrite Hh by lia.
          rewrite lookup_insert_ne by lia. done. }
        exists (new ++ [Entered T]).
        split; [rewrite Hl; simpl; by rewrite <- app_assoc|].
        intros U HU. rewrite in_app_iff in HU. simpl in HU.
        assert (HUT : U <> T) by (intros ->; tauto).
        destruct (Hf U) as (Ho3 & Hm3 & He3); [tauto|]. simpl in Ho3, Hm3, He3.
        rewrite lookup_insert_ne in He3 by done.
        split; [done|]. split; [|done]. rewrite elem_of_difference, Hm3. set_solver.
      * inversion H; subst; clear H. unfold frame; simpl.
        split; [lia|]. split.
        { intros q Hq. rewrite Hh by lia.
          rewrite lookup_insert_ne by lia. done. }
        exists (new ++ [Entered T]).
        split; [rewrite Hl; simpl; by rewrite <- app_assoc|].
        intros U HU. rewrite in_app_iff in HU. simpl in HU.
        assert (HUT : U <> T) by (intros ->; tauto).
        destruct (Hf U) as (Ho3 & Hm3 & He3); [tauto|]. simpl in Ho3, Hm3, He3.
        rewrite lookup_insert_ne in He3 by done.
        split; [done|]. split; [|done]. rewrite Hm3. set_solver.
Qed.

Lemma legacy_instance_fault fuel :
  forall T s f s', instance ctor fuel T s = Some (Undef f, s') -> f = Relock.
Proof.
  induction fuel as [|fuel IH]; intros T s f s' H; [discriminate|].
  simpl in H.
  destruct (object_ s !! T) as [p|] eqn:Ho.
  - unfold deref in H. simpl in H. rewrite Ho in H. discriminate.
  - destruct (decide (T ∈ mutex_ s)); [congruence|].
    destruct (construct ctor (instance ctor fuel) T (lock T (note (Entered T) s)))
      as [[[[]|e|f'] s3]|] eqn:Hc; try discriminate.
    + unfold deref in H; simpl in H. rewrite lookup_insert_eq in H. discriminate.
    + inversion H; subst. 
      eapply (run_body_outcome (fun f => f = Relock)); [|exact Hc]. eauto.
Qed.

Lemma legacy_instance_ret fuel T s p s' :
  instance ctor fuel T s = Some (Ret p, s') -> object_ s' !! T = Some p.
Proof.
  destruct fuel as [|fuel]; [discriminate|]. simpl.
  destruct (object_ s !! T) as [q|] eqn:Ho.
  - unfold deref. simpl. rewrite Ho. intros [= <- <-]. done.
  - destruct (decide (T ∈ mutex_ s)); [discriminate|].
    destruct (construct ctor (instance ctor fuel) T (lock T (note (Entered T) s)))
      as [[[[]|e|f'] s3]|] eqn:Hc; try discriminate.
    unfold deref; simpl. rewrite lookup_insert_eq. intros [= <- <-]. simpl.
    apply lookup_insert_eq.
Qed.

(** A failed construction leaves the slot as it was, and the next call
    may succeed. *)
Lemma legacy_retry_after_failure fuel T s e s1 :
  object_ s !! T = None -> T ∉ mutex_ s ->
  construct ctor (instance ctor fuel) T (lock T (note (Entered T) s)) = Some (Exn e, s1) ->
  exists s2,
    instance ctor (S fuel) T s = Some (Exn e, s2) /\
    object_ s2 !! T = None /\ (T ∉ mutex_ s2) /\ heap s2 !! (next s) = None /\
    forall fuel' s3,
      construct ctor (instance ctor fuel') T (lock T (note (Entered T) s2)) = Some (Ret tt, s3) ->
      exists p s4,
        instance ctor (S fuel') T s2 = Some (Ret p, s4) /\
        object_ s4 !! T = Some p /\ heap s4 !! p = Some (Obj T) /\ T ∉ mutex_ s4.
Proof.
  intros Ho Hfree Hc.
  assert (Hk : keep (alloc T (lock T (note (Entered T) s))) s1)
    by (eapply (run_body_rel keep); eauto using keep_refl, keep_trans, legacy_instance_keep).
  destruct Hk as (_ & _ & Hm).
  assert (Hslot : object_ s1 !! T = None /\ T ∈ mutex_ s1)
    by (apply Hm; simpl; [set_solver | done]).
  destruct Hslot as [Ho1 _].
  eexists. split; [|split; [|split; [|split]]].
  - simpl. rewrite Ho. destruct (decide (T ∈ mutex_ s)); [done|].
    rewrite Hc. reflexivity.
  - done.
  - simpl. set_solver.
  - simpl. apply lookup_delete_eq.
  - intros fuel' s3 Hc'. eexists _, _. split; [|split; [|split]].
    + simpl. simpl in Hc'. rewrite Ho1.
      case_decide as Hin; [exfalso; simpl in Hin; set_solver|].
      rewrite Hc'. unfold deref. simpl. rewrite lookup_insert_eq. reflexivity.
    + simpl. apply lookup_insert_eq.
    + simpl. apply lookup_insert_eq.
    + simpl. set_solver.
Qed.

(** The log of a legacy process: the main program, then one destruction
    for every instance that was constructed. *)
Lemma legacy_destroyed_once fuel main order s :
  run_main ctor fuel main init = Some s ->
  NoDup order ->
  (forall T, is_Some (object_ s !! T) -> In T order) ->
  exists td,
    log (exit order s) = td ++ log s /\
    Forall is_destruction td /\
    Forall (fun e => ~ is_destruction e) (log s) /\
    forall T p, In (Constructed T p) (log (exit order s)) ->
      count_occ event_eq_dec (log (exit order s)) (Destroyed T p) = 1 /\
      object_ (exit order s) !! T = None /\
      heap (exit order s) !! p = None.
Proof.
  intros Hrun Hnd Hcover.
  assert (Hr : running s)
    by (eapply legacy_steps_running; eauto using legacy_run_main_steps, legacy_init_running).
  destruct Hr as [Hmain Hco].
  destruct (legacy_exit_spec order s Hnd) as (td & Hlog & Hall & Hin & Hcount & Hnone & _).
  exists td. split; [done|]. split; [done|]. split; [done|].
  intros T p HC. rewrite Hlog in HC. apply in_app_iff in HC as [HC|HC].
  { rewrite Forall_forall in Hall. rewrite <- list_elem_of_In in HC. apply Hall in HC. done. }
  apply Hco in HC. assert (HT : In T order) by (apply Hcover; eauto).
  destruct (Hcount T p HT HC) as [Hc Hh].
  split; [|split; [by apply Hnone|done]].
  rewrite Hlog, count_occ_app, Hc.
  rewrite (proj1 (count_occ_not_In event_eq_dec (log s) (Destroyed T p))); [done|].
  intros Habs. rewrite Forall_forall in Hmain. rewrite <- list_elem_of_In in Habs.
  apply Hmain in Habs. apply Habs. exact I.
Qed.

End LegacyCalls.

(** ** The C++11 definition, one thread *)

Section Cxx11Invariants.
Import Cxx11.

Lemma cxx11_keep_refl s : keep s s.
Proof. split; [auto|]. by exists []. Qed.

Lemma cxx11_keep_trans s1 s2 s3 : keep s1 s2 -> keep s2 s3 -> keep s1 s3.
Proof.
  intros [H1 [p1 Ha1]] [H2 [p2 Ha2]]. split; [auto|].
  exists (p2 ++ p1). rewrite Ha2, Ha1. by rewrite app_assoc.
Qed.

Lemma cxx11_prim_running s s' : prim s s' -> running s -> running s'.
Proof.
  intros Hp (Hnd & Hco & Hat & Hdup & Hdead).
  destruct Hp as [T s|T s Hl|T s Hn|T s Hc|T s Hc]; unfold running; simpl.
  - split; [constructor; [simpl; tauto | done]|]. split; [|done].
    intros U q. rewrite <- Hco. split; [intros [[=]|]; done | tauto].
  - split; [constructor; [simpl; tauto | done]|]. split; [|done].
    intros U q. rewrite <- Hco. split; [intros [[=]|]; done | tauto].
  - split; [done|]. split; [|split; [|split; [done|]]].
    + intros U q. rewrite Hco. destruct (decide (T = U)) as [->|Hne].
      * rewrite lookup_insert_eq, Hn. split; intros [? ?]; congruence.
      * by rewrite lookup_insert_ne.
    + intros U. rewrite Hat. destruct (decide (T = U)) as [->|Hne].
      * rewrite lookup_insert_eq, Hn. split; congruence.
      * by rewrite lookup_insert_ne.
    + intros U. destruct (decide (T = U)) as [->|Hne].
      * rewrite lookup_insert_eq. congruence.
      * rewrite lookup_insert_ne by done. apply Hdead.
  - split; [constructor; [simpl; tauto | done]|]. split; [|split; [|split]].
    + intros U q. destruct (decide (T = U)) as [->|Hne].
      * rewrite lookup_insert_eq. split.
        -- intros [[= ->]|Hin]; [done|]. apply Hco in Hin. tauto.
        -- intros [_ ->]. by left.
      * rewrite lookup_insert_ne by done. rewrite <- Hco.
        split; [intros [[=]|]; done | tauto].
    + intros U. destruct (decide (T = U)) as [->|Hne].
      * rewrite lookup_insert_eq. tauto.
      * rewrite lookup_insert_ne by done. rewrite <- Hat. tauto.
    + apply NoDup_cons. split; [|done]. rewrite list_elem_of_In, Hat. congruence.
    + intros U. destruct (decide (T = U)) as [->|Hne].
      * rewrite lookup_insert_eq. congruence.
      * rewrite lookup_insert_ne by done. apply Hdead.
  - split; [done|]. split; [|split; [|split; [done|]]].
    + intros U q. rewrite Hco. destruct (decide (T = U)) as [->|Hne].
      * rewrite lookup_delete_eq, Hc. split; intros [? ?]; congruence.
      * by rewrite lookup_delete_ne.
    + intros U. rewrite Hat. destruct (decide (T = U)) as [->|Hne].
      * rewrite lookup_delete_eq, Hc. split; congruence.
      * by rewrite lookup_delete_ne.
    + intros U. destruct (decide (T = U)) as [->|Hne].
      * rewrite lookup_delete_eq. congruence.
      * rewrite lookup_delete_ne by done. apply Hdead.
Qed.

Lemma cxx11_steps_running s s' : rtc prim s s' -> running s -> running s'.
Proof. induction 1; eauto using cxx11_prim_running. Qed.

Lemma cxx11_init_running : running init.
Proof.
  unfold running; simpl. split; [constructor|]. split; [|split; [|split]].
  - intros T p. rewrite lookup_empty. split; [tauto|intros [? _]; done].
  - intros T. rewrite lookup_empty. split; [tauto|done].
  - constructor.
  - intros T. by rewrite lookup_empty.
Qed.

Lemma cxx11_frame_refl s : frame s s.
Proof. exists []. split; [done|]. intros; tauto. Qed.

Lemma cxx11_frame_trans s1 s2 s3 : frame s1 s2 -> frame s2 s3 -> frame s1 s3.
Proof.
  intros (new1 & Hl1 & Hf1) (new2 & Hl2 & Hf2).
  exists (new2 ++ new1). split; [rewrite Hl2, Hl1; by rewrite app_assoc|].
  intros U HU. rewrite in_app_iff in HU.
  destruct (Hf1 U) as (Ho1 & He1); [tauto|].
  destruct (Hf2 U) as (Ho2 & He2); [tauto|].
  rewrite Ho2, Ho1, He2, He1. tauto.
Qed.

Lemma cxx11_fold_log l : forall s0,
  log (foldl destroy_static s0 l) =
  rev (map (fun T => Destroyed T (object T)) l) ++ log s0.
Proof.
  induction l as [|T l IH]; intros s0; simpl; [done|].
  rewrite IH. simpl. by rewrite <- app_assoc.
Qed.

Lemma cxx11_fold_slot l : forall s0 U,
  slot (foldl destroy_static s0 l) !! U =
  if decide (U ∈ l) then Some Dead else slot s0 !! U.
Proof.
  induction l as [|T l IH]; intros s0 U.
  - rewrite decide_False; [done|]. apply not_elem_of_nil.
  - change (foldl destroy_static s0 (T :: l))
      with (foldl destroy_static (destroy_static s0 T) l).
    rewrite IH. unfold destroy_static at 1. cbn [slot note set_slot].
    destruct (decide (U ∈ l)) as [Hl|Hl].
    + rewrite decide_True; [done|]. by right.
    + destruct (decide (U = T)) as [->|Hne].
      * rewrite lookup_insert_eq. rewrite decide_True; [done|]. left.
      * rewrite lookup_insert_ne by done. rewrite decide_False; [done|].
        rewrite elem_of_cons. tauto.
Qed.

Lemma cxx11_exit_log s :
  log (exit s) = rev (map (fun T => Destroyed T (object T)) (atexit s)) ++ log s.
Proof. unfold exit. by rewrite cxx11_fold_log. Qed.

Lemma cxx11_exit_slot s U :
  slot (exit s) !! U = if decide (U ∈ atexit s) then Some Dead else slot s !! U.
Proof. unfold exit. by rewrite cxx11_fold_slot. Qed.

Lemma cxx11_destroy_inj (x y : tyid) :
  Destroyed x (object x) = Destroyed y (object y) -> x = y.
Proof. by intros [= ->]. Qed.

End Cxx11Invariants.

Section Cxx11Calls.
Import Cxx11.
Variable ctor : tyid -> nat -> list cmd.

Lemma cxx11_instance_keep fuel :
  forall T s r s', instance ctor fuel T s = Some (r, s') -> keep s s'.
Proof.
  induction fuel as [|fuel IH]; intros T s r s' H; [discriminate|].
  simpl in H.
  destruct (slot s !! T) as [[| |]|] eqn:Ho.
  1-3: inversion H; subst; (split; simpl; [auto | by exists []]).
  destruct (construct ctor (instance ctor fuel) T (note (Entered T) s))
    as [[[[]|e|f] s3]|] eqn:Hc; try discriminate.
  all: assert (Hk : keep (begin T (note (Entered T) s)) s3)
    by (eapply (run_body_rel keep); eauto using cxx11_keep_refl, cxx11_keep_trans).
  all: destruct Hk as [Hs [post Ha]]; simpl in Hs, Ha.
  all: inversion H; subst; clear H; split; simpl.
  - intros U c HU. assert (T <> U) by congruence.
    rewrite lookup_insert_ne by done. apply Hs. by rewrite lookup_insert_ne.
  - exists (T :: post). by rewrite Ha.
  - intros U c HU. assert (T <> U) by congruence.
    rewrite lookup_delete_ne by done. apply Hs. by rewrite lookup_insert_ne.
  - by exists post.
  - intros U c HU. assert (T <> U) by congruence.
    apply Hs. by rewrite lookup_insert_ne.
  - by exists post.
Qed.

Lemma cxx11_instance_steps fuel :
  forall T s r s', instance ctor fuel T s = Some (r, s') -> rtc prim s s'.
Proof.
  induction fuel as [|fuel IH]; intros T s r s' H; [discriminate|].
  simpl in H.
  destruct (slot s !! T) as [[| |]|] eqn:Ho.
  - inversion H; subst. apply rtc_once, prim_enter.
  - inversion H; subst. eapply rtc_l; [apply (prim_enter T)|].
    apply rtc_once, prim_return. simpl. tauto.
  - inversion H; subst. eapply rtc_l; [apply (prim_enter T)|].
    apply rtc_once, prim_return. simpl. tauto.
  - destruct (construct ctor (instance ctor fuel) T (note (Entered T) s))
      as [[[[]|e|f] s3]|] eqn:Hc; try discriminate.
    all: set (s2 := begin T (note (Entered T) s)) in *.
    all: assert (Hk : keep s2 s3)
      by (eapply (run_body_rel keep); eauto using cxx11_keep_refl, cxx11_keep_trans, cxx11_instance_keep).
    all: assert (Hb : rtc prim s2 s3)
      by (eapply (run_body_rel (rtc prim)); eauto using rtc_refl, rtc_trans).
    all: destruct Hk as [Hs _].
    all: assert (Hslot : slot s3 !! T = Some Constructing)
      by (apply Hs; simpl; apply lookup_insert_eq).
    all: assert (Hpre : rtc prim s s2)
      by (eapply rtc_l; [apply (prim_enter T)|]; apply rtc_once; by apply prim_begin).
    all: inversion H; subst; clear H.
    + eapply rtc_trans; [exact Hpre|]. eapply rtc_trans; [exact Hb|].
      eapply rtc_l; [by apply (prim_complete T)|].
      apply rtc_once. apply prim_return. simpl. left. apply lookup_insert_eq.
    + eapply rtc_trans; [exact Hpre|]. eapply rtc_trans; [exact Hb|].
      apply rtc_once. by apply (prim_abort T).
    + eapply rtc_trans; [exact Hpre|]. exact Hb.
Qed.

Lemma cxx11_run_main_steps fuel main :
  forall s s', run_main ctor fuel main s = Some s' -> rtc prim s s'.
Proof.
  induction main as [|T main IH]; intros s s' H; simpl in H.
  - inversion H; subst. apply rtc_refl.
  - destruct (instance ctor fuel T s) as [[[p|e|f] s1]|] eqn:Hi; try discriminate.
    all: eapply rtc_trans; [eapply cxx11_instance_steps; eassumption | by apply IH].
Qed.

Lemma cxx11_run_main_keep fuel main :
  forall s s', run_main ctor fuel main s = Some s' -> keep s s'.
Proof.
  induction main as [|T main IH]; intros s s' H; simpl in H.
  - inversion H; subst. apply cxx11_keep_refl.
  - destruct (instance ctor fuel T s) as [[[p|e|f] s1]|] eqn:Hi; try discriminate.
    all: eapply cxx11_keep_trans; [eapply cxx11_instance_keep; eassumption | by apply IH].
Qed.

Lemma cxx11_instance_frame fuel :
  forall T s r s', instance ctor fuel T s = Some (r, s') -> frame s s'.
Proof.
  induction fuel as [|fuel IH]; intros T s r s' H; [discriminate|].
  simpl in H.
  destruct (slot s !! T) as [[| |]|] eqn:Ho.
  - inversion H; subst. exists [Entered T]. split; [done|]. intros; simpl; tauto.
  - inversion H; subst. exists [Returned T (object T); Entered T].
    split; [done|]. intros; simpl; tauto.
  - inversion H; subst. exists [Returned T (object T); Entered T].
    split; [done|]. intros; simpl; tauto.
  - destruct (construct ctor (instance ctor fuel) T (note (Entered T) s))
      as [[[[]|e|f] s3]|] eqn:Hc; try discriminate.
    all: assert (Hk : frame (begin T (note (Entered T) s)) s3)
      by (eapply (run_body_rel frame); eauto using cxx11_frame_refl, cxx11_frame_trans).
    all: destruct Hk as (new & Hl & Hf); simpl in Hl.
    all: inversion H; subst; clear H; unfold frame; simpl.
    + exists (Returned T (object T) :: Constructed T (object T) :: new ++ [Entered T]).
      split; [rewrite Hl; simpl; by rewrite <- app_assoc|].
      intros U HU. simpl in HU. rewrite in_app_iff in HU. simpl in HU.
      assert (HUT : U <> T) by (intros ->; tauto).
      destruct (Hf U) as (Ho3 & He3); [tauto|]. simpl in Ho3, He3.
      rewrite lookup_insert_ne by done. rewrite lookup_insert_ne in Ho3 by done. rewrite lookup_insert_ne in He3 by done. done.
    + exists (new ++ [Entered T]).
      split; [rewrite Hl; simpl; by rewrite <- app_assoc|].
      intros U HU. rewrite in_app_iff in HU. simpl in HU.
      assert (HUT : U <> T) by (intros ->; tauto).
      destruct (Hf U) as (Ho3 & He3); [tauto|]. simpl in Ho3, He3.
      rewrite lookup_delete_ne by done. rewrite lookup_insert_ne in Ho3 by done. rewrite lookup_insert_ne in He3 by done. done.
    + exists (new ++ [Entered T]).
      split; [rewrite Hl; simpl; by rewrite <- app_assoc|].
      intros U HU. rewrite in_app_iff in HU. simpl in HU.
      assert (HUT : U <> T) by (intros ->; tauto).
      destruct (Hf U) as (Ho3 & He3); [tauto|]. simpl in Ho3, He3.
      rewrite lookup_insert_ne in Ho3 by done. rewrite lookup_insert_ne in He3 by done. done.
Qed.

Lemma cxx11_instance_ret fuel T s p s' :
  instance ctor fuel T s = Some (Ret p, s') ->
  p = object T /\ (slot s' !! T = Some Live \/ slot s' !! T = Some Dead).
Proof.
  destruct fuel as [|fuel]; [discriminate|]. simpl.
  destruct (slot s !! T) as [[| |]|] eqn:Ho.
  - discriminate.
  - intros [= <- <-]. simpl. tauto.
  - intros [= <- <-]. simpl. tauto.
  - destruct (construct ctor (instance ctor fuel) T (note (Entered T) s))
      as [[[[]|e|f] s3]|] eqn:Hc; try discriminate.
    intros [= <- <-]. simpl. rewrite lookup_insert_eq. tauto.
Qed.

(** A failed initialisation leaves the static uninitialised, and the next
    call may succeed. *)
Lemma cxx11_retry_after_failure fuel T s e s1 :
  slot s !! T = None ->
  construct ctor (instance ctor fuel) T (note (Entered T) s) = Some (Exn e, s1) ->
  exists s2,
    instance ctor (S fuel) T s = Some (Exn e, s2) /\
    slot s2 !! T = None /\
    forall fuel' s3,
      construct ctor (instance ctor fuel') T (note (Entered T) s2) = Some (Ret tt, s3) ->
      exists s4,
        instance ctor (S fuel') T s2 = Some (Ret (object T), s4) /\
        slot s4 !! T = Some Live.
Proof.
  intros Ho Hc. eexists. split; [|split].
  - simpl. rewrite Ho, Hc. reflexivity.
  - simpl. apply lookup_delete_eq.
  - intros fuel' s3 Hc'. eexists. split.
    + simpl. simpl in Hc'. rewrite lookup_delete_eq. rewrite Hc'. reflexivity.
    + simpl. apply lookup_insert_eq.
Qed.

(** The log of a C++11 process: the main program, then one destruction
    for every static that was initialised. *)
Lemma cxx11_destroyed_once fuel main s :
  run_main ctor fuel main init = Some s ->
  exists td,
    log (exit s) = td ++ log s /\
    Forall is_destruction td /\
    Forall (fun e => ~ is_destruction e) (log s) /\
    forall T p, In (Constructed T p) (log (exit s)) ->
      count_occ event_eq_dec (log (exit s)) (Destroyed T p) = 1 /\
      slot (exit s) !! T = Some Dead.
Proof.
  intros Hrun.
  assert (Hr : running s)
    by (eapply cxx11_steps_running; eauto using cxx11_run_main_steps, cxx11_init_running).
  destruct Hr as (Hmain & Hco & Hat & Hnd & _).
  exists (rev (map (fun T => Destroyed T (object T)) (atexit s))).
  split; [apply cxx11_exit_log|]. split; [|split; [done|]].
  { apply Forall_rev, Forall_forall. intros e He.
    apply list_elem_of_In, in_map_iff in He as (T & <- & _). exact I. }
  intros T p HC. rewrite cxx11_exit_log in HC. apply in_app_iff in HC as [HC|HC].
  { apply in_rev, in_map_iff in HC as (U & [=] & _). }
  apply Hco in HC as [Hlive ->]. apply Hat in Hlive.
  split.
  - rewrite cxx11_exit_log, count_occ_app, count_occ_rev.
    rewrite (count_occ_nodup _ (fun T => Destroyed T (object T)))
      by auto using cxx11_destroy_inj.
    rewrite (proj1 (count_occ_not_In event_eq_dec (log s) _)); [done|].
    intros Habs. rewrite Forall_forall in Hmain. rewrite <- list_elem_of_In in Habs.
    apply Hmain in Habs. apply Habs. exact I.
  - rewrite cxx11_exit_slot. rewrite decide_True; [done|]. by apply list_elem_of_In.
Qed.


(** What is constructed first is destroyed last. *)
Lemma cxx11_destruction_order fuel A B s pA s' :
  running s ->
  slot s !! A = None -> slot s !! B = None ->
  In (Access B) (ctor A (entered A s)) ->
  instance ctor fuel A s = Some (Ret pA, s') ->
  precedes (Constructed B (object B)) (Constructed A (object A)) (log s') /\
  forall fuel' main s'',
    run_main ctor fuel' main s' = Some s'' ->
    precedes (Destroyed A (object A)) (Destroyed B (object B)) (log (exit s'')).
Proof.
  intros Hrun HA HB Hacc Hi.
  destruct fuel as [|fuel]; [discriminate|]. simpl in Hi. rewrite HA in Hi.
  destruct (construct ctor (instance ctor fuel) A (note (Entered A) s))
    as [[[[]|e|f] s3]|] eqn:Hc; try discriminate.
  inversion Hi; subst; clear Hi.
  set (s2 := begin A (note (Entered A) s)) in *.
  assert (Hk : keep s2 s3)
    by (eapply (run_body_rel keep); eauto using cxx11_keep_refl, cxx11_keep_trans, cxx11_instance_keep).
  assert (Hb : rtc prim s2 s3)
    by (eapply (run_body_rel (rtc prim)); eauto using rtc_refl, rtc_trans, cxx11_instance_steps).
  assert (Hr2 : running s2).
  { refine (cxx11_steps_running _ _ _ Hrun).
    eapply rtc_l; [apply (prim_enter A)|]. apply rtc_once. by apply prim_begin. }
  assert (Hr3 : running s3) by (eapply cxx11_steps_running; eauto).
  assert (HA3 : slot s3 !! A = Some Constructing).
  { destruct Hk as [Hs _]. apply Hs. simpl. apply lookup_insert_eq. }
  assert (HB3 : slot s3 !! B = Some Live).
  { assert (Hq : slot s3 !! B = Some Live \/ slot s3 !! B = Some Dead).
    { eapply (run_body_access keep (fun U s => slot s !! U = Some Live \/ slot s !! U = Some Dead));
        [apply cxx11_keep_refl | apply cxx11_keep_trans | eapply cxx11_instance_keep
        | | | exact Hc | exact Hacc ].
      - intros U s0 p s0' Hcall. by apply cxx11_instance_ret in Hcall as [_ ?].
      - intros U s0 s0' [Hq|Hq] [Hs _]; [left|right]; by apply Hs. }
    destruct Hq as [Hq|Hq]; [done|]. destruct Hr3 as (_ & _ & _ & _ & Hdead). by apply Hdead in Hq. }
  assert (HAB : A <> B) by congruence.
  destruct Hr3 as (Hmain3 & Hco3 & Hat3 & Hnd3 & Hdead3).
  split.
  - simpl. change (Returned A (object A) :: Constructed A (object A) :: log s3)
      with ([Returned A (object A); Constructed A (object A)] ++ log s3).
    apply precedes_old_new.
    + apply Hco3. done.
    + rewrite Hco3. intros [? _]. congruence.
    + right. by left.
  - intros fuel' main s'' Hmain.
    set (s' := note (Returned A (object A))
                 (register A (note (Constructed A (object A)) (set_slot A (Some Live) s3)))) in *.
    assert (Hr' : running s').
    { refine (cxx11_steps_running _ _ _ (conj Hmain3 (conj Hco3 (conj Hat3 (conj Hnd3 Hdead3))))).
      eapply rtc_l; [by apply (prim_complete A)|]. apply rtc_once, prim_return.
      simpl. left. apply lookup_insert_eq. }
    assert (Hr'' : running s'')
      by (eapply cxx11_steps_running; eauto using cxx11_run_main_steps).
    destruct (cxx11_run_main_keep _ _ _ _ Hmain) as [_ [post Hpost]].
    simpl in Hpost. destruct Hr'' as (Hmain'' & _ & _ & Hnd'' & _).
    rewrite cxx11_exit_log. apply precedes_new.
    + intros Habs. rewrite Forall_forall in Hmain''. rewrite <- list_elem_of_In in Habs.
      apply Hmain'' in Habs. apply Habs. exact I.
    + intros Habs. rewrite Forall_forall in Hmain''. rewrite <- list_elem_of_In in Habs.
      apply Hmain'' in Habs. apply Habs. exact I.
    + rewrite Hpost in *. apply (precedes_split (fun T => Destroyed T (object T))).
      * apply cxx11_destroy_inj.
      * done.
      * by apply Hat3.
Qed.

End Cxx11Calls.

(** ** Enough fuel: programs whose constructors depend on smaller types *)

Section Termination.
Variable ctor : tyid -> nat -> list cmd.
(** The dependencies are acyclic: a constructor accesses types of smaller
    rank only. *)
Variable rank : tyid -> nat.
Hypothesis ranked : forall T n U, In (Access U) (ctor T n) -> rank U < rank T.

Lemma legacy_body_total fuel
    (IH : forall T s, rank T < fuel ->
            (forall V, V ∈ Legacy.mutex_ s -> rank T < rank V) ->
            exists r s', Legacy.instance ctor fuel T s = Some (r, s') /\
                         (forall f, r <> Undef f) /\
                         Legacy.mutex_ s' = Legacy.mutex_ s) :
  forall b s,
    (forall U, In (Access U) b ->
       rank U < fuel /\ forall V, V ∈ Legacy.mutex_ s -> rank U < rank V) ->
    exists r s', run_body (Legacy.instance ctor fuel) b s = Some (r, s') /\
                 (forall f, r <> Undef f) /\
                 Legacy.mutex_ s' = Legacy.mutex_ s.
Proof.
  induction b as [|c b IHb]; intros s Hb; simpl.
  - eexists _, _. split; [done|]. split; [done|done].
  - destruct c as [U|e].
    + destruct (Hb U (or_introl eq_refl)) as [HU HV].
      destruct (IH U s HU HV) as (r & s1 & Hi & Hr & Hm). rewrite Hi.
      destruct r as [p|e|f].
      * destruct (IHb s1) as (r' & s' & Hrun & Hr' & Hm').
        { intros U' HU'. rewrite Hm. apply Hb. by right. }
        exists r', s'. split; [done|]. split; [done|]. congruence.
      * eexists _, _. split; [done|]. split; [done|done].
      * by destruct (Hr f).
    + eexists _, _. split; [done|]. split; [done|done].
Qed.

(** In the legacy definition a call made outside any constructor of a type
    of the same or a smaller rank returns, normally or by an exception, as
    soon as the fuel exceeds the rank; the mutexes are as before. *)
Lemma legacy_instance_total fuel : forall T s,
  rank T < fuel ->
  (forall V, V ∈ Legacy.mutex_ s -> rank T < rank V) ->
  exists r s', Legacy.instance ctor fuel T s = Some (r, s') /\
               (forall f, r <> Undef f) /\
               Legacy.mutex_ s' = Legacy.mutex_ s.
Proof.
  induction fuel as [|fuel IH]; intros T s Hfuel Hlocked; [lia|].
  simpl. destruct (Legacy.object_ s !! T) as [p|] eqn:Ho.
  - unfold Legacy.deref. simpl. rewrite Ho. eexists _, _. split; [done|]. split; [done|done].
  - case_decide as Hin; [apply Hlocked in Hin; lia|].
    unfold Legacy.construct.
    destruct (legacy_body_total fuel IH
                (ctor T (Legacy.entered T (Legacy.lock T (Legacy.note (Entered T) s))))
                (Legacy.alloc T (Legacy.lock T (Legacy.note (Entered T) s))))
      as (r & s3 & Hrun & Hr & Hm).
    { intros U HU. apply ranked in HU. split; [lia|]. simpl. intros V HV.
      apply elem_of_union in HV as [HV|HV].
      - apply elem_of_singleton in HV as ->. done.
      - apply Hlocked in HV. lia. }
    rewrite Hrun. simpl in Hm. destruct r as [[]|e|f].
    + unfold Legacy.deref. simpl. rewrite lookup_insert_eq.
      eexists _, _. split; [done|]. split; [done|]. simpl. rewrite Hm. set_solver.
    + eexists _, _. split; [done|]. split; [done|]. simpl. rewrite Hm. set_solver.
    + by destruct (Hr f).
Qed.

Lemma legacy_run_main_total fuel main : forall s,
  Legacy.mutex_ s = ∅ ->
  (forall T, In T main -> rank T < fuel) ->
  is_Some (Legacy.run_main ctor fuel main s).
Proof.
  induction main as [|T main IH]; intros s Hm Hmain; simpl; [eauto|].
  destruct (legacy_instance_total fuel T s) as (r & s' & Hi & Hr & Hm').
  { apply Hmain. by left. }
  { intros V. rewrite Hm. set_solver. }
  rewrite Hi. destruct r as [p|e|f].
  - apply IH; [congruence|]. intros U HU. apply Hmain. by right.
  - apply IH; [congruence|]. intros U HU. apply Hmain. by right.
  - by destruct (Hr f).
Qed.

Lemma cxx11_body_total fuel
    (IH : forall T s, rank T < fuel ->
            (forall V, Cxx11.busy s V -> rank T < rank V) ->
            exists r s', Cxx11.instance ctor fuel T s = Some (r, s') /\
                         (forall f, r <> Undef f) /\
                         (forall V, Cxx11.busy s' V <-> Cxx11.busy s V)) :
  forall b s,
    (forall U, In (Access U) b ->
       rank U < fuel /\ forall V, Cxx11.busy s V -> rank U < rank V) ->
    exists r s', run_body (Cxx11.instance ctor fuel) b s = Some (r, s') /\
                 (forall f, r <> Undef f) /\
                 (forall V, Cxx11.busy s' V <-> Cxx11.busy s V).
Proof.
  induction b as [|c b IHb]; intros s Hb; simpl.
  - eexists _, _. split; [done|]. split; [done|done].
  - destruct c as [U|e].
    + destruct (Hb U (or_introl eq_refl)) as [HU HV].
      destruct (IH U s HU HV) as (r & s1 & Hi & Hr & Hm). rewrite Hi.
      destruct r as [p|e|f].
      * destruct (IHb s1) as (r' & s' & Hrun & Hr' & Hm').
        { intros U' HU'. split; [apply Hb; by right|]. intros V HV1.
          apply Hm in HV1. apply Hb; [by right|done]. }
        exists r', s'. split; [done|]. split; [done|]. intros V. by rewrite Hm', Hm.
      * eexists _, _. split; [done|]. split; [done|done].
      * by destruct (Hr f).
    + eexists _, _. split; [done|]. split; [done|done].
Qed.

Lemma cxx11_instance_total fuel : forall T s,
  rank T < fuel ->
  (forall V, Cxx11.busy s V -> rank T < rank V) ->
  exists r s', Cxx11.instance ctor fuel T s = Some (r, s') /\
               (forall f, r <> Undef f) /\
               (forall V, Cxx11.busy s' V <-> Cxx11.busy s V).
Proof.
  induction fuel as [|fuel IH]; intros T s Hfuel Hbusy; [lia|].
  simpl. destruct (Cxx11.slot s !! T) as [[| |]|] eqn:Ho.
  - apply Hbusy in Ho. lia.
  - eexists _, _. split; [done|]. split; [done|done].
  - eexists _, _. split; [done|]. split; [done|done].
  - unfold Cxx11.construct.
    destruct (cxx11_body_total fuel IH
                (ctor T (Cxx11.entered T (Cxx11.note (Entered T) s)))
                (Cxx11.begin T (Cxx11.note (Entered T) s)))
      as (r & s3 & Hrun & Hr & Hm).
    { intros U HU. apply ranked in HU. split; [lia|]. unfold Cxx11.busy. simpl.
      intros V HV. destruct (decide (T = V)) as [<-|Hne]; [done|].
      rewrite lookup_insert_ne in HV by done. apply Hbusy in HV. lia. }
    rewrite Hrun. unfold Cxx11.busy in *. simpl in Hm.
    assert (Hother : forall V, T <> V ->
              Cxx11.slot s3 !! V = Some Cxx11.Constructing <->
              Cxx11.slot s !! V = Some Cxx11.Constructing).
    { intros V Hne. rewrite Hm. by rewrite lookup_insert_ne. }
    destruct r as [[]|e|f].
    + eexists _, _. split; [done|]. split; [done|]. simpl. intros V.
      destruct (decide (T = V)) as [<-|Hne].
      * rewrite lookup_insert_eq, Ho. split; congruence.
      * rewrite lookup_insert_ne by done. by apply Hother.
    + eexists _, _. split; [done|]. split; [done|]. simpl. intros V.
      destruct (decide (T = V)) as [<-|Hne].
      * rewrite lookup_delete_eq, Ho. split; congruence.
      * rewrite lookup_delete_ne by done. by apply Hother.
    + by destruct (Hr f).
Qed.

Lemma cxx11_run_main_total fuel main : forall s,
  (forall V, ~ Cxx11.busy s V) ->
  (forall T, In T main -> rank T < fuel) ->
  is_Some (Cxx11.run_main ctor fuel main s).
Proof.
  induction main as [|T main IH]; intros s Hm Hmain; simpl; [eauto|].
  destruct (cxx11_instance_total fuel T s) as (r & s' & Hi & Hr & Hm').
  { apply Hmain. by left. }
  { intros V HV. by apply Hm in HV. }
  rewrite Hi. destruct r as [p|e|f].
  - apply IH; [intros V HV; apply Hm' in HV; by apply Hm in HV|].
    intros U HU. apply Hmain. by right.
  - apply IH; [intros V HV; apply Hm' in HV; by apply Hm in HV|].
    intros U HU. apply Hmain. by right.
  - by destruct (Hr f).
Qed.
End Termination.

(** ** The legacy definition, many threads *)

Section LegacyThreadFacts.
Import LegacyThreads.
Variable ctor_throws : nat -> option exn.

Lemma lt_local_ext s s' th :
  object_ s' = object_ s -> heap s' = heap s -> begun s' = begun s ->
  done_ s' = done_ s -> failed s' = failed s ->
  local s th -> local s' th.
Proof.
  unfold local, settled. intros -> -> -> -> ->. done.
Qed.

Lemma lt_local_mono s s' th :
  holds (at_ th) = false ->
  (forall p, object_ s = Some p -> object_ s' = Some p) ->
  local s th -> local s' th.
Proof.
  unfold local. intros Hh Hm [H1 H2].
  assert (Hs : is_Some (object_ s) -> is_Some (object_ s')) by (intros [p Hp]; eauto).
  split.
  - destruct (at_ th); try done; try (by apply Hs).
    destruct (result th) as [[p| |]|]; auto.
  - intros Hf. destruct (H2 Hf) as (Ho & Hl & Hc). auto.
Qed.

Lemma lt_step_inv t s s' : inv s -> step ctor_throws t s = Some s' -> inv s'.
Proof.
  intros (HA & HB & HG & HE & HF) Hstep.
  unfold step in Hstep.
  pose proof (HA t) as HAt. pose proof (HB t) as [HBt HBf].
  assert (Hothers : forall t', t' <> t -> mutex_ s = Some t ->
                      holds (at_ (threads s t')) = false).
  { intros t' Hne Hm. destruct (holds (at_ (threads s t'))) eqn:Hh; [|done].
    apply HA in Hh. congruence. }
  destruct (at_ (threads s t)) eqn:Hpc; simpl in HAt, HBt.
  - (* Idle: the call begins *)
    injection Hstep as <-. unfold inv; simpl. split_and!; try done.
    + intros t'. case_decide; subst; simpl; [|apply HA]. by rewrite <- HAt.
    + intros t'. case_decide; subst; [|by apply (lt_local_ext s), HB].
      split; simpl; [done|]. intros Hf. apply bool_decide_eq_true in Hf. done.
  - (* Check1 *)
    injection Hstep as <-. unfold inv; simpl. split_and!; try done.
    + intros t'. case_decide; subst; simpl; [|apply HA]. rewrite <- HAt.
      by destruct (object_ s).
    + intros t'. case_decide; subst; [|by apply (lt_local_ext s), HB].
      unfold local; simpl. destruct (object_ s) as [p|] eqn:Ho; simpl.
      * split; [eauto|]. intros Hf. destruct (HBf Hf) as (_ & Hl & Hc).
        split; [eauto|]. split; [done|]. by rewrite Hc.
      * split; [done|]. intros Hf. destruct (HBf Hf) as ([? ?] & _). done.
  - (* Acquire *)
    destruct (mutex_ s) as [t0|] eqn:Hm; [done|].
    injection Hstep as <-. unfold inv; simpl. split_and!; try done.
    + intros t'. case_decide; subst; simpl; [done|].
      rewrite HA. split; [done|congruence].
    + intros t'. case_decide; subst; [|by apply (lt_local_ext s), HB].
      unfold local; simpl. split; [by apply HG|].
      intros Hf. destruct (HBf Hf) as (_ & _ & []).
  - (* Check2 *)
    injection Hstep as <-. unfold inv; simpl. split_and!; try done.
    + intros t'. case_decide; subst; simpl; [|apply HA]. rewrite <- HAt.
      by destruct (object_ s).
    + intros t'. case_decide; subst; [|by apply (lt_local_ext s), HB].
      unfold local, settled in *; simpl. destruct (object_ s) as [p|] eqn:Ho; simpl.
      * split; [eauto|]. intros Hf. destruct (HBf Hf) as (_ & _ & []).
      * split; [split; [done|exact HBt]|]. intros Hf. destruct (HBf Hf) as (_ & _ & []).
  - (* New *)
    injection Hstep as <-. destruct HBt as [Ho [Hb Hd]]. rewrite Ho in Hd.
    assert (Hm : mutex_ s = Some t) by by apply HAt.
    unfold inv; simpl. split_and!.
    + intros t'. case_decide; subst; simpl; [done|apply HA].
    + intros t'. case_decide; subst.
      * unfold local; simpl. split.
        -- rewrite lookup_insert_eq. split_and!; [done|done|done|lia|done].
        -- intros Hf. destruct (HBf Hf) as (_ & _ & []).
      * apply (lt_local_mono s); [by apply Hothers|done|apply HB].
    + congruence.
    + intros p Hp. congruence.
    + intros p Hp. rewrite lookup_insert_ne by lia. apply HF. lia.
  - (* Construct *)
    destruct HBt as (Ho & Hc & Hd & Hn & Hb).
    assert (Hm : mutex_ s = Some t) by by apply HAt.
    assert (Hlt : p < next s).
    { destruct (decide (p < next s)); [done|]. rewrite HF in Hc by lia. done. }
    destruct (ctor_throws n) as [e|]; injection Hstep as <-; unfold inv; simpl; split_and!.
    + intros t'. case_decide; subst; simpl; [done|apply HA].
    + intros t'. case_decide; subst.
      * unfold local, settled; simpl.
        split; [split; [done|split; [lia|by rewrite Ho]]|].
        intros Hf. destruct (HBf Hf) as (_ & _ & []).
      * apply (lt_local_mono s); [by apply Hothers|done|apply HB].
    + congruence.
    + intros q Hq. congruence.
    + intros q Hq. destruct (decide (p = q)) as [->|Hne]; [apply lookup_delete_eq|].
      rewrite lookup_delete_ne by done. by apply HF.
    + intros t'. case_decide; subst; simpl; [done|apply HA].
    + intros t'. case_decide; subst.
      * unfold local; simpl. split; [rewrite lookup_insert_eq; split_and!; try done; lia|].
        intros Hf. destruct (HBf Hf) as (_ & _ & []).
      * apply (lt_local_mono s); [by apply Hothers|done|apply HB].
    + congruence.
    + intros q Hq. congruence.
    + intros q Hq. rewrite lookup_insert_ne by lia. by apply HF.
  - (* Publish *)
    destruct HBt as (Ho & Hc & Hd & Hb).
    assert (Hm : mutex_ s = Some t) by by apply HAt.
    injection Hstep as <-; unfold inv; simpl; split_and!.
    + intros t'. case_decide; subst; simpl; [done|apply HA].
    + intros t'. case_decide; subst.
      * unfold local; simpl. split; [eauto|].
        intros Hf. destruct (HBf Hf) as (_ & _ & []).
      * apply (lt_local_mono s); [by apply Hothers|simpl; congruence|apply HB].
    + congruence.
    + intros q [= <-]. split; [done|]. unfold settled; simpl. lia.
    + done.
  - (* Release *)
    assert (Hm : mutex_ s = Some t) by by apply HAt.
    injection Hstep as <-; unfold inv; simpl; split_and!.
    + intros t'. case_decide; subst; simpl; [done|].
      rewrite (Hothers t') by done. done.
    + intros t'. case_decide; subst; [|by apply (lt_local_ext s), HB].
      unfold local; simpl. split; [done|].
      intros Hf. destruct (HBf Hf) as (_ & _ & []).
    + intros _. destruct HBt as [p Hp]. by apply (HE p).
    + done.
    + done.
  - (* Unwind *)
    assert (Hm : mutex_ s = Some t) by by apply HAt.
    injection Hstep as <-; unfold inv; simpl; split_and!.
    + intros t'. case_decide; subst; simpl; [done|].
      rewrite (Hothers t') by done. done.
    + intros t'. case_decide; subst; [|by apply (lt_local_ext s), HB].
      unfold local; simpl. split; [done|].
      intros Hf. destruct (HBf Hf) as (_ & _ & []).
    + intros _. apply HBt.
    + done.
    + done.
  - (* Deref *)
    destruct HBt as [p Hp]. rewrite Hp in Hstep.
    injection Hstep as <-; unfold inv; simpl; split_and!; try done.
    + intros t'. case_decide; subst; simpl; [|apply HA]. by rewrite <- HAt.
    + intros t'. case_decide; subst; [|by apply (lt_local_ext s), HB].
      unfold local; simpl. split; [done|].
      intros Hf. destruct (HBf Hf) as (Ho & Hl & Hc). eauto.
Qed.

Lemma lt_init_inv : inv init.
Proof.
  unfold inv, local, settled; simpl. split_and!; done.
Qed.

Lemma lt_exec_inv sched : forall s, inv s -> inv (exec ctor_throws sched s).
Proof.
  induction sched as [|t sched IH]; intros s Hinv; simpl; [done|].
  apply IH. destruct (step ctor_throws t s) as [s'|] eqn:Hs; simpl; [|done].
  eapply lt_step_inv; eassumption.
Qed.
End LegacyThreadFacts.

(** ** The C++11 definition, many threads *)

Section Cxx11ThreadFacts.
Import Cxx11Threads.
Variable ctor_throws : nat -> option exn.

Lemma ct_step_inv t s s' : inv s -> step ctor_throws t s = Some s' -> inv s'.
Proof.
  intros (HA & HB & HF & HR) Hstep.
  unfold step in Hstep.
  pose proof (HA t) as HAt. pose proof (HB t) as HBt. unfold local in HBt.
  assert (Hothers : forall t', t' <> t -> guard_ s = Busy t ->
                      forall n, at_ (threads s t') <> Construct n).
  { intros t' Hne Hg n Hn. assert (guard_ s = Busy t') by (apply HA; eauto). congruence. }
  destruct (at_ (threads s t)) eqn:Hpc.
  - (* Idle *)
    injection Hstep as <-. unfold inv; simpl. split_and!; try done.
    + intros t'. case_decide; subst; simpl; [|apply HA].
      rewrite <- HAt. split; intros [n Hn]; done.
    + intros t'. case_decide; subst; [done|apply HB].
  - (* Enter *)
    destruct (guard_ s) eqn:Hg; [| done |]; injection Hstep as <-.
    + (* the thread starts the initialisation *)
      unfold inv; simpl; split_and!; try done.
      * intros t'. case_decide; subst; simpl.
        -- split; [eauto|]. eauto.
        -- rewrite HA. split; [congruence|]. congruence.
      * intros t'. case_decide; subst.
        -- unfold local; simpl. destruct (HF eq_refl) as (? & ? & ?). split_and!; lia.
        -- specialize (HB t'). unfold local in *; simpl.
           destruct (at_ (threads s t')) eqn:Hpc'; try done; try congruence.
           ++ destruct (result (threads s t')) as [[p| |]|]; try done.
              destruct HB; congruence.
           ++ assert (Fresh = Busy t') by (apply HA; eauto). done.
    + (* the static is initialised already *)
      unfold inv; simpl; rewrite Hg; split_and!; try done.
      * intros t'. case_decide; subst; simpl; [|apply HA].
        split; [intros [n Hn]; done | intros; done].
      * intros t'. case_decide; subst; [by unfold local; simpl|].
        exact (HB t').
  - (* Construct *)
    assert (Hg : guard_ s = Busy t) by (apply HAt; eauto).
    destruct HBt as (Hn & Hb & Hd & Hr).
    assert (Hrest : forall s1 t', t' <> t ->
              local s (threads s t') -> local s1 (threads s t')).
    { intros s1 t' Hne Hl. unfold local in *.
      destruct (at_ (threads s t')) eqn:Hpc'; try done; try congruence.
      - destruct (result (threads s t')) as [[p| |]|]; try done. destruct Hl; congruence.
      - by apply Hothers in Hpc'. }
    destruct (ctor_throws n) as [e|]; injection Hstep as <-; unfold inv; simpl; split_and!;
      try done.
    + intros t'. case_decide; subst; simpl; [split; [intros [? ?]; done|done]|].
      split; [|done]. intros [n' Hn']. exfalso. by apply (Hothers t' H Hg n').
    + intros t'. case_decide; subst; [done|]. by apply Hrest.
    + intros _. lia.
    + intros t'. case_decide; subst; simpl; [split; [intros [? ?]; done|done]|].
      split; [|done]. intros [n' Hn']. exfalso. by apply (Hothers t' H Hg n').
    + intros t'. case_decide; subst; [done|]. by apply Hrest.
    + intros _. lia.
  - (* Return *)
    injection Hstep as <-. unfold inv; simpl. split_and!; try done.
    + intros t'. case_decide; subst; simpl; [|apply HA].
      rewrite <- HAt. split; intros [n Hn]; done.
    + intros t'. case_decide; subst; [done|apply HB].
Qed.

Lemma ct_init_inv : inv init.
Proof.
  unfold inv, local; simpl. split_and!; try done.
  intros t. split; [intros [? ?]; done|done].
Qed.

Lemma ct_exec_inv sched : forall s, inv s -> inv (exec ctor_throws sched s).
Proof.
  induction sched as [|t sched IH]; intros s Hinv; simpl; [done|].
  apply IH. destruct (step ctor_throws t s) as [s'|] eqn:Hs; simpl; [|done].
  eapply ct_step_inv; eassumption.
Qed.
End Cxx11ThreadFacts.

(** ** The legacy definition, accesses reordered *)

Section OrderingFacts.
Import Ordering.

Lemma load_inv x o i v m a v' :
  load x o i v m = Some (a, v') ->
  v x <= i /\ exists ms, m x !! i = Some ms /\ a = val ms /\
    v' = match o with Acq => join (at_least x i v) (seen ms) | _ => at_least x i v end.
Proof.
  unfold load. case_decide; [|done]. destruct (m x !! i) as [ms|]; [|done].
  intros [= <- <-]. eauto.
Qed.

Lemma store_to_same x ms m : store_to x ms m x = m x ++ [ms].
Proof. unfold store_to. by rewrite decide_True. Qed.

Lemma store_to_other x y ms m : y <> x -> store_to x ms m y = m y.
Proof. intros. unfold store_to. by rewrite decide_False. Qed.

Lemma og_init_inv : inv init.
Proof.
  unfold inv, object_ok, field_ok, mutex_ok, owned, thread_ok, ready, last_object; simpl.
  split_and!; try lia.
  - intros [|i] ms; simpl; [|done]. intros [= <-]. simpl. split; [done|lia].
  - intros [|i] ms; simpl; [lia|done].
  - exists (Msg 0 bot). simpl. split_and!; try done; lia.
  - intros ms [= <-]. unfold bot. simpl. lia.
  - intros t. split_and!; try done; lia.
Qed.

Lemma og_thread_mono s s' th :
  last_object s <= last_object s' -> thread_ok s th -> thread_ok s' th.
Proof. intros Hle (Hr & Hv & Hpc). split_and!; try done. lia. Qed.

Lemma og_object_same s s' :
  mem s' LObject = mem s LObject -> object_ok s -> object_ok s'.
Proof. unfold object_ok, last_object. by intros ->. Qed.

(** A step of thread [t] that neither locks nor unlocks. *)
Lemma og_owned_kept s s' t :
  mem s' LMutex = mem s LMutex ->
  holding (at_ (threads s' t)) = holding (at_ (threads s t)) ->
  (forall t', t' <> t -> threads s' t' = threads s t') ->
  last_object s <= last_object s' ->
  (holding (at_ (threads s t)) = true -> cur (threads s' t) LObject = last_object s') ->
  (holding (at_ (threads s t)) = false -> last_object s' = last_object s) ->
  owned s -> owned s'.
Proof.
  intros Hmem Hhold Hrest Hle Hown Hidle (ms & Hlast & Hv & Hcase).
  exists ms. rewrite Hmem. split_and!; try done; [lia|].
  destruct (val ms) as [|t0].
  - destruct Hcase as [Heq Hnone]. split.
    + rewrite Hidle by apply Hnone. done.
    + intros t'. destruct (decide (t' = t)) as [->|Hne].
      * rewrite Hhold. apply Hnone.
      * rewrite Hrest by done. apply Hnone.
  - destruct Hcase as (Hh & Hc & Honly).
    destruct (decide (t0 = t)) as [->|Hne].
    + split_and!.
      * by rewrite Hhold.
      * by apply Hown.
      * intros t' Ht'. destruct (decide (t' = t)) as [->|Hne']; [done|].
        rewrite Hrest in Ht' by done. by apply Honly.
    + assert (Hnot : holding (at_ (threads s t)) = false).
      { destruct (holding (at_ (threads s t))) eqn:Hh'; [|done].
        apply Honly in Hh'. congruence. }
      rewrite Hrest by done. split_and!; try done.
      * rewrite Hidle by done. done.
      * intros t' Ht'. destruct (decide (t' = t)) as [->|Hne'].
        -- rewrite Hhold in Ht'. congruence.
        -- rewrite Hrest in Ht' by done. by apply Honly.
Qed.

Lemma og_mutex_kept s s' t :
  mem s' LMutex = mem s LMutex ->
  holding (at_ (threads s' t)) = holding (at_ (threads s t)) ->
  (forall t', t' <> t -> threads s' t' = threads s t') ->
  last_object s <= last_object s' ->
  (holding (at_ (threads s t)) = true -> cur (threads s' t) LObject = last_object s') ->
  (holding (at_ (threads s t)) = false -> last_object s' = last_object s) ->
  mutex_ok s -> mutex_ok s'.
Proof.
  intros Hmem Hhold Hrest Hle Hown Hidle [Howned Hready]. split.
  - by apply (og_owned_kept s s' t).
  - by rewrite Hmem.
Qed.

(** Who is between lock and unlock owns the mutex, and is alone there. *)
Lemma og_owner s t :
  owned s -> holding (at_ (threads s t)) = true ->
  cur (threads s t) LObject = last_object s /\
  forall t', holding (at_ (threads s t')) = true -> t' = t.
Proof.
  intros (ms & _ & _ & Hcase) Hh. destruct (val ms) as [|t0].
  - destruct Hcase as [_ Hnone]. rewrite Hnone in Hh. done.
  - destruct Hcase as (_ & Hc & Honly). apply Honly in Hh as ->. done.
Qed.

Lemma og_holder s t :
  mutex_ok s -> holding (at_ (threads s t)) = true ->
  cur (threads s t) LObject = last_object s.
Proof. intros [Howned _] Hh. by apply og_owner. Qed.

Ltac og_arith :=
  unfold thread_ok, last_object in *; simpl;
  rewrite ?store_to_same, ?store_to_other by done;
  unfold ready, join, at_least in *; simpl.

Ltac og_side :=
  first [ done | intros; og_arith; rewrite ?length_app; simpl; lia ].

Lemma og_step_inv t i s s' : inv s -> step claimed t i s = Some s' -> inv s'.
Proof.
  intros ((HlenO & HlenF) & HO & HF & HM & HT) Hstep.
  unfold step in Hstep.
  destruct (HT t) as (Hready & Hvalid & Hpc).
  assert (Hothers : forall m th t', t' <> t ->
            threads (set_thread t th m s) t' = threads s t').
  { intros m th t' Hne. simpl. by rewrite decide_False. }
  assert (Hself : forall m th, threads (set_thread t th m s) t = th).
  { intros m th. simpl. by rewrite decide_True. }
  destruct (at_ (threads s t)) eqn:Hat; simpl in Hstep.
  - (* Check1: the acquire load of line 71 *)
    destruct (load LObject Acq i (cur (threads s t)) (mem s)) as [[a v']|] eqn:Hload;
      simpl in Hstep; [|done].
    apply load_inv in Hload as (Hle & ms & Hms & -> & ->). injection Hstep as <-.
    destruct (HO i ms Hms) as [H0 H1].
    assert (Hi : i <= last_object s).
    { apply lookup_lt_Some in Hms. unfold last_object. lia. }
    unfold inv. split_and!; try done.
    + apply (og_mutex_kept s _ t);
        [ simpl; by rewrite ?store_to_other
        | rewrite Hself, Hat; simpl; try destruct (val _); done
        | intros t' Hne; by apply Hothers
        | og_side
        | rewrite Hat; first [ done | intros _; rewrite Hself; og_side ]
        | rewrite Hat; og_side
        | exact HM ].
    + intros t'. destruct (decide (t' = t)) as [->|Hne];
        [rewrite Hself|rewrite Hothers by done; apply HT].
      og_arith; rewrite ?length_app; simpl.
      destruct (decide (i = 0)) as [->|Hpos].
      * destruct (H0 eq_refl) as [-> Hbot]. rewrite !Hbot. simpl. split_and!; try done; lia.
      * destruct H1 as (-> & Hf & Hv); [lia|]. simpl. split_and!; lia.
  - (* Acquire: the lock of line 73 *)
    destruct (load LMutex Acq (pred (length (mem s LMutex))) (cur (threads s t)) (mem s))
      as [[a v']|] eqn:Hload; simpl in Hstep; [|done].
    apply load_inv in Hload as (Hle & ms & Hms & -> & ->).
    destruct (val ms) eqn:Hval; [|done]. injection Hstep as <-.
    destruct HM as [(mm & Hlast & Hv & Hcase) Hr].
    specialize (Hr mm Hlast).
    rewrite last_lookup, Hms in Hlast. injection Hlast as <-.
    rewrite Hval in Hcase. destruct Hcase as [Hseen Hnone].
    unfold inv. split_and!; try done. split.
    + exists (Msg (S t) (at_least LMutex (length (mem s LMutex))
                (join (at_least LMutex (pred (length (mem s LMutex))) (cur (threads s t)))
                      (seen ms)))).
      split_and!.
      * simpl. by rewrite store_to_same, last_snoc.
      * og_arith. lia.
      * simpl. split_and!.
        -- by rewrite decide_True.
        -- rewrite decide_True by done. og_arith. lia.
        -- intros t' Ht'. destruct (decide (t' = t)) as [|Hne]; [done|].
           rewrite Hnone in Ht'. done.
    + intros ms'. simpl. rewrite store_to_same, last_snoc. intros [= <-].
      og_arith. lia.
    + intros t'. destruct (decide (t' = t)) as [->|Hne].
      * rewrite Hself. og_arith. split_and!; try done; lia.
      * rewrite Hothers by done. eapply og_thread_mono; [|apply HT].
        og_arith. lia.
  - (* Check2: the load of line 74, under the lock *)
    destruct (load LObject Plain i (cur (threads s t)) (mem s)) as [[a v']|] eqn:Hload;
      simpl in Hstep; [|done].
    apply load_inv in Hload as (Hle & ms & Hms & -> & ->). injection Hstep as <-.
    destruct (HO i ms Hms) as [H0 H1].
    assert (Hown : cur (threads s t) LObject = last_object s)
      by (apply og_holder; [done|by rewrite Hat]).
    assert (Hi : i = last_object s).
    { apply lookup_lt_Some in Hms. unfold last_object in *. lia. }
    unfold inv. split_and!; try done.
    + apply (og_mutex_kept s _ t);
        [ simpl; by rewrite ?store_to_other
        | rewrite Hself, Hat; simpl; try destruct (val _); done
        | intros t' Hne; by apply Hothers
        | og_side
        | rewrite Hat; first [ done | intros _; rewrite Hself; og_side ]
        | rewrite Hat; og_side
        | exact HM ].
    + intros t'. destruct (decide (t' = t)) as [->|Hne];
        [rewrite Hself|rewrite Hothers by done; apply HT].
      og_arith; rewrite ?length_app; simpl.
      split_and!; try lia.
      destruct (val ms) eqn:Hval; [done|].
      destruct (decide (i = 0)) as [->|Hpos]; [|lia].
      destruct (H0 eq_refl) as [Hz _]. congruence.
  - (* Construct: T::T() sets the member *)
    injection Hstep as <-.
    assert (Hown : cur (threads s t) LObject = last_object s)
      by (apply og_holder; [done|by rewrite Hat]).
    unfold inv. split_and!; try done.
    + simpl. rewrite ?store_to_same, ?store_to_other by done. rewrite ?length_app. simpl. lia.
    + intros j ms. simpl. rewrite store_to_same, lookup_snoc_Some.
      intros [[_ Hms]|[_ <-]]; [by apply (HF j ms)|done].
    + apply (og_mutex_kept s _ t);
        [ simpl; by rewrite ?store_to_other
        | rewrite Hself, Hat; simpl; try destruct (val _); done
        | intros t' Hne; by apply Hothers
        | og_side
        | rewrite Hat; first [ done | intros _; rewrite Hself; og_side ]
        | rewrite Hat; og_side
        | exact HM ].
    + intros t'. destruct (decide (t' = t)) as [->|Hne];
        [rewrite Hself|rewrite Hothers by done; apply HT].
      og_arith; rewrite ?length_app; simpl.
      split_and!; lia.
  - (* Publish: the release store of line 76 *)
    injection Hstep as <-.
    assert (Hlast : last_object (set_thread t
              (Thread Release (at_least LObject (length (mem s LObject)) (cur (threads s t))))
              (store_to LObject
                 (Msg 1 (at_least LObject (length (mem s LObject)) (cur (threads s t))))
                 (mem s)) s) = length (mem s LObject)).
    { unfold last_object. simpl. rewrite store_to_same, length_app. simpl. lia. }
    unfold inv. split_and!; try done.
    + simpl. rewrite ?store_to_same, ?store_to_other by done. rewrite ?length_app. simpl. lia.
    + intros j ms. rewrite Hlast. simpl. rewrite store_to_same, lookup_snoc_Some.
      intros [[_ Hms]|[-> <-]].
      * destruct (HO j ms Hms) as [H0 H1]. split; [done|]. intros Hj.
        destruct (H1 Hj) as (? & ? & ?). unfold last_object in *. split_and!; try done. lia.
      * simpl. unfold at_least; simpl. split; [lia|]. intros _. split_and!; try done.
    + apply (og_mutex_kept s _ t);
        [ simpl; by rewrite ?store_to_other
        | rewrite Hself, Hat; simpl; try destruct (val _); done
        | intros t' Hne; by apply Hothers
        | og_side
        | rewrite Hat; first [ done | intros _; rewrite Hself; og_side ]
        | rewrite Hat; og_side
        | exact HM ].
    + intros t'. destruct (decide (t' = t)) as [->|Hne].
      * rewrite Hself. unfold thread_ok. rewrite Hlast.
        unfold ready, at_least; simpl. split_and!; try done; lia.
      * rewrite Hothers by done. eapply og_thread_mono; [|apply HT].
        rewrite Hlast. unfold last_object. lia.
  - (* Release: the unlock of line 79 *)
    injection Hstep as <-.
    assert (Hown : cur (threads s t) LObject = last_object s)
      by (apply og_holder; [done|by rewrite Hat]).
    unfold inv. split_and!; try done.
    + destruct HM as [Howned _].
      destruct (og_owner s t Howned) as [_ Honly]; [by rewrite Hat|].
      split.
      * exists (Msg 0 (at_least LMutex (length (mem s LMutex)) (cur (threads s t)))).
        split_and!.
        -- simpl. by rewrite store_to_same, last_snoc.
        -- og_arith. lia.
        -- simpl. split; [og_arith; lia|].
           intros t'. destruct (decide (t' = t)) as [->|Hne]; [done|].
           destruct (holding (at_ (threads s t'))) eqn:Hh; [|done].
           apply Honly in Hh. done.
      * intros ms'. simpl. rewrite store_to_same, last_snoc. intros [= <-].
        og_arith. lia.
    + intros t'. destruct (decide (t' = t)) as [->|Hne].
      * rewrite Hself. og_arith. split_and!; lia.
      * rewrite Hothers by done. eapply og_thread_mono; [|apply HT].
        og_arith. lia.
  - (* Deref: the load of line 80 *)
    destruct (load LObject Plain i (cur (threads s t)) (mem s)) as [[a v']|] eqn:Hload;
      simpl in Hstep; [|done].
    apply load_inv in Hload as (Hle & ms & Hms & -> & ->).
    destruct (val ms) eqn:Hval; [done|]. injection Hstep as <-.
    assert (Hi : i <= last_object s).
    { apply lookup_lt_Some in Hms. unfold last_object. lia. }
    unfold inv. split_and!; try done.
    + apply (og_mutex_kept s _ t);
        [ simpl; by rewrite ?store_to_other
        | rewrite Hself, Hat; simpl; try destruct (val _); done
        | intros t' Hne; by apply Hothers
        | og_side
        | rewrite Hat; first [ done | intros _; rewrite Hself; og_side ]
        | rewrite Hat; og_side
        | exact HM ].
    + intros t'. destruct (decide (t' = t)) as [->|Hne];
        [rewrite Hself|rewrite Hothers by done; apply HT].
      og_arith; rewrite ?length_app; simpl.
      split_and!; lia.
  - (* Use: the caller reads the member *)
    destruct (load LField Plain i (cur (threads s t)) (mem s)) as [[a v']|] eqn:Hload;
      simpl in Hstep; [|done].
    apply load_inv in Hload as (Hle & ms & Hms & -> & ->). injection Hstep as <-.
    assert (Hi : 1 <= i) by (unfold ready in Hready; lia).
    unfold inv. split_and!; try done.
    + apply (og_mutex_kept s _ t);
        [ simpl; by rewrite ?store_to_other
        | rewrite Hself, Hat; simpl; try destruct (val _); done
        | intros t' Hne; by apply Hothers
        | og_side
        | rewrite Hat; first [ done | intros _; rewrite Hself; og_side ]
        | rewrite Hat; og_side
        | exact HM ].
    + intros t'. destruct (decide (t' = t)) as [->|Hne];
        [rewrite Hself|rewrite Hothers by done; apply HT].
      og_arith; rewrite ?length_app; simpl.
      split_and!; try lia. by apply (HF i ms).
  - done.
Qed.

Lemma og_exec_inv sched : forall s, inv s -> inv (exec claimed sched s).
Proof.
  induction sched as [|[t i] sched IH]; intros s Hinv; simpl; [done|].
  apply IH. destruct (step claimed t i s) as [s'|] eqn:Hs; simpl; [|done].
  eapply og_step_inv; eassumption.
Qed.


(** With an acquire load at line 71 and a release store at line 76, a
    caller that got a reference sees the member the constructor set. *)
Lemma og_release_acquire_shows_member sched t a :
  at_ (threads (exec claimed sched init) t) = Done a -> a = 1.
Proof.
  intros Hat. destruct (og_exec_inv sched init og_init_inv) as (_ & _ & _ & _ & HT).
  destruct (HT t) as (_ & _ & Hpc). by rewrite Hat in Hpc.
Qed.

(** ** The same threads, whatever the order of lines 71 and 76 *)

Lemma og_init_counted : counted init.
Proof.
  unfold counted, owned, last_object; simpl. split_and!; try lia.
  - intros [|i] ms; simpl; [|done]. intros [= <-]. simpl. unfold bot. split; [done|lia].
  - exists (Msg 0 bot). unfold bot. simpl. split_and!; try done; lia.
  - intros t. unfold bot. split_and!; try done; lia.
Qed.

(** A step of thread [t] that stores nothing. *)
Lemma og_counted_quiet s t th :
  counted s ->
  at_ (threads s t) <> Publish ->
  holding (at_ th) = holding (at_ (threads s t)) ->
  cur th LObject <= last_object s ->
  (holding (at_ (threads s t)) = true -> cur th LObject = last_object s) ->
  match at_ th with
  | Construct => last_object s = 0 /\ length (mem s LField) = 1
  | Publish => False
  | _ => True
  end ->
  counted (set_thread t th (mem s) s).
Proof.
  intros ((HlenO & HlenF) & HO & HZ & HP & HM & HT) Hnp Hhold Hview Hown Hpc.
  assert (Hothers : forall t', t' <> t ->
            threads (set_thread t th (mem s) s) t' = threads s t').
  { intros t' Hne. simpl. by rewrite decide_False. }
  assert (Hself : threads (set_thread t th (mem s) s) t = th).
  { simpl. by rewrite decide_True. }
  unfold counted. split_and!; try done.
  - intros Hz. destruct (HZ Hz) as [Hone|[t0 Ht0]]; [by left|right].
    exists t0. rewrite Hothers; [done|]. intros ->. done.
  - apply (og_owned_kept s _ t); try done.
    + by rewrite Hself.
    + intros Hh. rewrite Hself. by apply Hown.
  - intros t'. destruct (decide (t' = t)) as [->|Hne].
    + rewrite Hself. split; [done|]. destruct (at_ th); done.
    + rewrite Hothers by done. apply HT.
Qed.

Lemma og_step_counted os t i s s' :
  counted s -> step os t i s = Some s' -> counted s'.
Proof.
  intros Hc Hstep. pose proof Hc as ((HlenO & HlenF) & HO & HZ & HP & HM & HT).
  unfold step in Hstep.
  destruct (HT t) as (Hvalid & Hpc).
  assert (Hothers : forall m th t', t' <> t ->
            threads (set_thread t th m s) t' = threads s t').
  { intros m th t' Hne. simpl. by rewrite decide_False. }
  assert (Hself : forall m th, threads (set_thread t th m s) t = th).
  { intros m th. simpl. by rewrite decide_True. }
  destruct (at_ (threads s t)) eqn:Hat; simpl in Hstep.
  - (* Check1 *)
    destruct (load LObject (check_order os) i (cur (threads s t)) (mem s))
      as [[a v']|] eqn:Hload; simpl in Hstep; [|done].
    apply load_inv in Hload as (Hle & ms & Hms & -> & ->). injection Hstep as <-.
    destruct (HO i ms Hms) as [H0 H1].
    assert (Hi : i <= last_object s).
    { apply lookup_lt_Some in Hms. unfold last_object. lia. }
    apply og_counted_quiet; rewrite ?Hat; simpl; try done.
    + by destruct (val ms).
    + destruct (check_order os); og_arith; lia.
    + by destruct (val ms).
  - (* Acquire *)
    destruct (load LMutex Acq (pred (length (mem s LMutex))) (cur (threads s t)) (mem s))
      as [[a v']|] eqn:Hload; simpl in Hstep; [|done].
    apply load_inv in Hload as (Hle & ms & Hms & -> & ->).
    destruct (val ms) eqn:Hval; [|done]. injection Hstep as <-.
    destruct HM as (mm & Hlast & Hv & Hcase).
    rewrite last_lookup, Hms in Hlast. injection Hlast as <-.
    rewrite Hval in Hcase. destruct Hcase as [Hseen Hnone].
    unfold counted. split_and!; try done.
    + intros Hz. destruct (HZ Hz) as [Hone|[t0 Ht0]]; [by left|].
      specialize (Hnone t0). by rewrite Ht0 in Hnone.
    + exists (Msg (S t) (at_least LMutex (length (mem s LMutex))
                (join (at_least LMutex (pred (length (mem s LMutex))) (cur (threads s t)))
                      (seen ms)))).
      split_and!.
      * simpl. by rewrite store_to_same, last_snoc.
      * og_arith. lia.
      * simpl. split_and!.
        -- by rewrite decide_True.
        -- rewrite decide_True by done. og_arith. lia.
        -- intros t' Ht'. destruct (decide (t' = t)) as [|Hne]; [done|].
           rewrite Hnone in Ht'. done.
    + intros t'. destruct (decide (t' = t)) as [->|Hne].
      * rewrite Hself. og_arith. split_and!; try done; lia.
      * rewrite Hothers by done. apply HT.
  - (* Check2 *)
    destruct (load LObject Plain i (cur (threads s t)) (mem s)) as [[a v']|] eqn:Hload;
      simpl in Hstep; [|done].
    apply load_inv in Hload as (Hle & ms & Hms & -> & ->). injection Hstep as <-.
    destruct (HO i ms Hms) as [H0 H1].
    destruct (og_owner s t HM) as [Hown Honly]; [by rewrite Hat|].
    assert (Hi : i = last_object s).
    { apply lookup_lt_Some in Hms. unfold last_object in *. lia. }
    apply og_counted_quiet; rewrite ?Hat; simpl; try done.
    + by destruct (val ms).
    + og_arith. lia.
    + destruct (val ms) eqn:Hval; [|done].
      assert (Hz : last_object s = 0) by (rewrite <- Hi; by apply H0).
      split; [done|]. destruct (HZ Hz) as [Hone|[t0 Ht0]]; [done|].
      assert (t0 = t) by (apply Honly; by rewrite Ht0). subst t0. congruence.
  - (* Construct *)
    injection Hstep as <-. destruct Hpc as [Hz Hone].
    destruct (og_owner s t HM) as [Hown Honly]; [by rewrite Hat|].
    unfold counted. split_and!; try done.
    + simpl. rewrite ?store_to_same, ?store_to_other by done. rewrite ?length_app. simpl. lia.
    + intros _. right. exists t. by rewrite Hself.
    + og_arith. lia.
    + apply (og_owned_kept s _ t);
        [ simpl; by rewrite ?store_to_other
        | rewrite Hself, Hat; done
        | intros t' Hne; by apply Hothers
        | og_side
        | rewrite Hat; intros _; rewrite Hself; og_side
        | rewrite Hat; og_side
        | exact HM ].
    + intros t'. destruct (decide (t' = t)) as [->|Hne].
      * rewrite Hself. og_arith. rewrite ?length_app. simpl. split_and!; lia.
      * rewrite Hothers by done. destruct (HT t') as [Hv' Hpc']. split; [exact Hv'|].
        destruct (at_ (threads s t')) eqn:Hat'; try done;
          (assert (t' = t) by (apply Honly; by rewrite Hat')); done.
  - (* Publish *)
    injection Hstep as <-. destruct Hpc as [Hz Htwo].
    destruct (og_owner s t HM) as [Hown Honly]; [by rewrite Hat|].
    assert (Hlen : length (mem s LObject) = 1) by (unfold last_object in Hz; lia).
    unfold counted. split_and!; try done.
    + simpl. rewrite ?store_to_same, ?store_to_other by done. rewrite ?length_app. simpl. lia.
    + intros j ms. simpl. rewrite store_to_same, lookup_snoc_Some.
      unfold last_object. simpl. rewrite store_to_same, length_app. simpl.
      intros [[Hj Hms]|[-> <-]].
      * destruct (HO j ms Hms) as [H0 H1]. split; [done|]. unfold last_object in H1. lia.
      * simpl. split; [lia|]. destruct (publish_order os); unfold at_least; simpl; lia.
    + og_arith. rewrite length_app. simpl. lia.
    + og_arith. rewrite length_app. simpl. lia.
    + apply (og_owned_kept s _ t);
        [ simpl; by rewrite ?store_to_other
        | rewrite Hself, Hat; done
        | intros t' Hne; by apply Hothers
        | og_side
        | rewrite Hat; intros _; rewrite Hself; og_side
        | rewrite Hat; og_side
        | exact HM ].
    + intros t'. destruct (decide (t' = t)) as [->|Hne].
      * rewrite Hself. og_arith. rewrite ?length_app. simpl. split_and!; try done; lia.
      * rewrite Hothers by done. destruct (HT t') as [Hv' Hpc']. split.
        -- og_arith. rewrite length_app. simpl. lia.
        -- destruct (at_ (threads s t')) eqn:Hat'; try done;
             (assert (t' = t) by (apply Honly; by rewrite Hat')); done.
  - (* Release *)
    injection Hstep as <-.
    destruct (og_owner s t HM) as [Hown Honly]; [by rewrite Hat|].
    unfold counted. split_and!; try done.
    + intros Hz. destruct (HZ Hz) as [Hone|[t0 Ht0]]; [by left|].
      assert (t0 = t) by (apply Honly; by rewrite Ht0). subst t0. congruence.
    + exists (Msg 0 (at_least LMutex (length (mem s LMutex)) (cur (threads s t)))).
      split_and!.
      * simpl. by rewrite store_to_same, last_snoc.
      * og_arith. lia.
      * simpl. split; [og_arith; lia|].
        intros t'. destruct (decide (t' = t)) as [->|Hne]; [done|].
        destruct (holding (at_ (threads s t'))) eqn:Hh; [|done].
        apply Honly in Hh. done.
    + intros t'. destruct (decide (t' = t)) as [->|Hne].
      * rewrite Hself. og_arith. split_and!; try done; lia.
      * rewrite Hothers by done. apply HT.
  - (* Deref *)
    destruct (load LObject Plain i (cur (threads s t)) (mem s)) as [[a v']|] eqn:Hload;
      simpl in Hstep; [|done].
    apply load_inv in Hload as (Hle & ms & Hms & -> & ->).
    destruct (val ms) eqn:Hval; [done|]. injection Hstep as <-.
    assert (Hi : i <= last_object s).
    { apply lookup_lt_Some in Hms. unfold last_object. lia. }
    apply og_counted_quiet; rewrite ?Hat; simpl; done.
  - (* Use *)
    destruct (load LField Plain i (cur (threads s t)) (mem s)) as [[a v']|] eqn:Hload;
      simpl in Hstep; [|done].
    apply load_inv in Hload as (Hle & ms & Hms & -> & ->). injection Hstep as <-.
    apply og_counted_quiet; rewrite ?Hat; simpl; done.
  - done.
Qed.

Lemma og_exec_counted os sched : forall s, counted s -> counted (exec os sched s).
Proof.
  induction sched as [|[t i] sched IH]; intros s Hinv; simpl; [done|].
  apply IH. destruct (step os t i s) as [s'|] eqn:Hs; simpl; [|done].
  eapply og_step_counted; eassumption.
Qed.

(** However lines 71 and 76 are ordered, the mutex lets one thread at most
    find [object_] unset at line 74: the constructor runs at most once and
    [object_] is assigned at most once. *)
Lemma og_single_construction os sched :
  length (mem (exec os sched init) LField) <= 2 /\
  length (mem (exec os sched init) LObject) <= 2.
Proof.
  destruct (og_exec_counted os sched init og_init_counted)
    as ((HlenO & HlenF) & _ & HZ & HP & _ & HT).
  unfold last_object in *.
  destruct (decide (length (mem (exec os sched init) LObject) <= 1)) as [Hle|Hgt].
  - split; [|lia]. destruct HZ as [Hone|[t Ht]]; [lia|lia|].
    specialize (HT t). rewrite Ht in HT. lia.
  - destruct HP; lia.
Qed.
End OrderingFacts.

(** ** Constructor bodies that come back *)

Lemma run_body_defined {S : Type} (R : S -> S -> Prop)
    (call : tyid -> S -> option (outcome addr * S)) :
  (forall s, R s s) ->
  (forall s1 s2 s3, R s1 s2 -> R s2 s3 -> R s1 s3) ->
  (forall U s r s', call U s = Some (r, s') -> (forall f, r <> Undef f) -> R s s') ->
  forall b s r s', run_body call b s = Some (r, s') -> (forall f, r <> Undef f) -> R s s'.
Proof.
  intros Hrefl Htrans Hcall b.
  induction b as [|c b IH]; intros s r s' Hrun Hr; simpl in Hrun.
  - injection Hrun as <- <-. apply Hrefl.
  - destruct c as [U|e].
    + destruct (call U s) as [[[p|e|f] s1]|] eqn:Hc; try discriminate.
      * eapply Htrans; [eapply Hcall; [exact Hc|done]|]. by eapply IH.
      * injection Hrun as <- <-. eapply Hcall; [exact Hc|done].
      * injection Hrun as <- <-. by destruct (Hr f).
    + injection Hrun as <- <-. apply Hrefl.
Qed.


(** ** The legacy definition, one thread: locks, storage, stability *)

Section LegacyLocks.
Import Legacy.
Variable ctor : tyid -> nat -> list cmd.

Lemma legacy_instance_unlocks fuel :
  forall T s r s', instance ctor fuel T s = Some (r, s') ->
    (forall f, r <> Undef f) -> mutex_ s' = mutex_ s.
Proof.
  induction fuel as [|fuel IH]; intros T s r s' H Hr; [discriminate|].
  simpl in H.
  destruct (object_ s !! T) as [p|] eqn:Ho.
  - unfold deref in H. simpl in H. rewrite Ho in H. by inversion H.
  - destruct (decide (T ∈ mutex_ s)) as [Hin|Hnin].
    + inversion H; subst. by destruct (Hr Relock).
    + destruct (construct ctor (instance ctor fuel) T (lock T (note (Entered T) s)))
        as [[[[]|e|f] s3]|] eqn:Hc; try discriminate.
      * assert (Hm : mutex_ s3 = mutex_ (alloc T (lock T (note (Entered T) s)))).
        { eapply (run_body_defined (fun a b => mutex_ b = mutex_ a));
            [done | intros ??? H1 H2; by rewrite H2 | exact IH | exact Hc | done]. }
        unfold deref in H; simpl in H. rewrite lookup_insert_eq in H.
        inversion H; subst; clear H. simpl. rewrite Hm. simpl. set_solver.
      * assert (Hm : mutex_ s3 = mutex_ (alloc T (lock T (note (Entered T) s)))).
        { eapply (run_body_defined (fun a b => mutex_ b = mutex_ a));
            [done | intros ??? H1 H2; by rewrite H2 | exact IH | exact Hc | done]. }
        inversion H; subst; clear H. simpl. rewrite Hm. simpl. set_solver.
      * inversion H; subst. by destruct (Hr f).
Qed.

Lemma legacy_run_main_unlocks fuel main :
  forall s s', run_main ctor fuel main s = Some s' -> mutex_ s' = mutex_ s.
Proof.
  induction main as [|T main IH]; intros s s' H; simpl in H.
  - by inversion H.
  - destruct (instance ctor fuel T s) as [[[p|e|f] s1]|] eqn:Hi; try discriminate.
    all: rewrite (IH _ _ H); eapply legacy_instance_unlocks; [exact Hi|done].
Qed.

End LegacyLocks.

Section LegacyTight.
Import Legacy.

Lemma legacy_init_tight : tight init.
Proof.
  unfold tight; simpl. split_and!; intros *; rewrite ?lookup_empty; done.
Qed.

Lemma legacy_prim_tight s s' : prim s s' -> tight s -> tight s'.
Proof.
  intros Hp (HO & HR & HU & HM & HN).
  destruct Hp as [T s|T p s Ho|T s Hfree Ho|T p s Hin Ho Hcell Hlt|T p s Hin Ho Hcell Hlt];
    [done|done|..].
  - (* new *)
    unfold tight; simpl. split_and!.
    + intros q U. destruct (decide (q = next s)) as [->|Hne].
      * by rewrite lookup_insert_eq.
      * rewrite lookup_insert_ne by done. apply HO.
    + intros q U. destruct (decide (q = next s)) as [->|Hne].
      * rewrite lookup_insert_eq. intros [= <-]. split; [set_solver|done].
      * rewrite lookup_insert_ne by done. intros Hq.
        destruct (HR q U Hq). split; [set_solver|done].
    + intros q1 q2 U.
      destruct (decide (q1 = next s)) as [->|Hne1], (decide (q2 = next s)) as [->|Hne2];
        rewrite ?lookup_insert_eq, ?lookup_insert_ne by done; try done.
      * intros [= <-] Hq. destruct (HR _ _ Hq). done.
      * intros Hq [= <-]. destruct (HR _ _ Hq). done.
      * apply HU.
    + intros U HUin. destruct (decide (U = T)) as [->|Hne].
      * exists (next s). apply lookup_insert_eq.
      * destruct (HM U) as [q Hq]; [set_solver|]. exists q.
        rewrite lookup_insert_ne; [done|]. intros <-. rewrite HN in Hq; [done|lia].
    + intros q Hq. rewrite lookup_insert_ne by lia. apply HN. lia.
  - (* publish *)
    unfold tight; simpl. split_and!.
    + intros q U. destruct (decide (q = p)) as [->|Hne].
      * rewrite lookup_insert_eq. intros [= <-]. apply lookup_insert_eq.
      * rewrite lookup_insert_ne by done. intros Hq. pose proof (HO _ _ Hq) as HoU.
        rewrite lookup_insert_ne; [done|]. congruence.
    + intros q U. destruct (decide (q = p)) as [->|Hne].
      * by rewrite lookup_insert_eq.
      * rewrite lookup_insert_ne by done. intros Hq. destruct (HR _ _ Hq) as [HUin HUo].
        assert (U <> T) by (intros ->; apply Hne; by apply (HU q p T)).
        rewrite lookup_insert_ne by done. split; [set_solver|done].
    + intros q1 q2 U.
      destruct (decide (q1 = p)) as [->|Hne1], (decide (q2 = p)) as [->|Hne2];
        rewrite ?lookup_insert_eq, ?lookup_insert_ne by done; try done.
      apply HU.
    + intros U HUin. destruct (HM U) as [q Hq]; [set_solver|]. exists q.
      rewrite lookup_insert_ne; [done|]. intros Heq. subst.
      assert (U = T)
        by (pose proof (eq_trans (eq_sym Hq) Hcell) as E; by injection E).
      set_solver.
    + intros q Hq. rewrite lookup_insert_ne by lia. by apply HN.
  - (* abort *)
    unfold tight; simpl. split_and!.
    + intros q U. destruct (decide (q = p)) as [->|Hne].
      * by rewrite lookup_delete_eq.
      * rewrite lookup_delete_ne by done. apply HO.
    + intros q U. destruct (decide (q = p)) as [->|Hne].
      * by rewrite lookup_delete_eq.
      * rewrite lookup_delete_ne by done. intros Hq. destruct (HR _ _ Hq) as [HUin HUo].
        assert (U <> T) by (intros ->; apply Hne; by apply (HU q p T)).
        split; [set_solver|done].
    + intros q1 q2 U.
      destruct (decide (q1 = p)) as [->|Hne1], (decide (q2 = p)) as [->|Hne2];
        rewrite ?lookup_delete_eq, ?lookup_delete_ne by done; try done.
      apply HU.
    + intros U HUin. destruct (HM U) as [q Hq]; [set_solver|]. exists q.
      rewrite lookup_delete_ne; [done|]. intros Heq. subst.
      assert (U = T)
        by (pose proof (eq_trans (eq_sym Hq) Hcell) as E; by injection E).
      set_solver.
    + intros q Hq. destruct (decide (q = p)) as [->|Hne].
      * by rewrite lookup_delete_eq.
      * rewrite lookup_delete_ne by done. by apply HN.
Qed.

Lemma legacy_steps_tight s s' : rtc prim s s' -> tight s -> tight s'.
Proof. induction 1; eauto using legacy_prim_tight. Qed.

Lemma legacy_dtor_tight T s : wf s -> tight s -> tight (object_destroyer_dtor T s).
Proof.
  intros Hwf (HO & HR & HU & HM & HN). unfold object_destroyer_dtor, destroy.
  destruct (object_ s !! T) as [p|] eqn:Ho; [|done]. unfold tight; simpl. split_and!.
  - intros q U. destruct (decide (q = p)) as [->|Hne].
    + by rewrite lookup_delete_eq.
    + rewrite lookup_delete_ne by done. intros Hq. pose proof (HO _ _ Hq) as HoU.
      rewrite lookup_delete_ne; [done|]. congruence.
  - intros q U. destruct (decide (q = p)) as [->|Hne].
    + by rewrite lookup_delete_eq.
    + rewrite lookup_delete_ne by done. intros Hq. destruct (HR _ _ Hq) as [HUin HUo].
      split; [done|]. destruct (decide (U = T)) as [->|?];
        [apply lookup_delete_eq | by rewrite lookup_delete_ne].
  - intros q1 q2 U.
    destruct (decide (q1 = p)) as [->|Hne1], (decide (q2 = p)) as [->|Hne2];
      rewrite ?lookup_delete_eq, ?lookup_delete_ne by done; try done.
    apply HU.
  - intros U HUin. destruct (HM U HUin) as [q Hq]. exists q.
    rewrite lookup_delete_ne; [done|]. intros Heq. subst.
    destruct (Hwf _ _ Ho) as [Hp _].
    pose proof (eq_trans (eq_sym Hq) Hp) as E. discriminate E.
  - intros q Hq. destruct (decide (q = p)) as [->|Hne].
    + by rewrite lookup_delete_eq.
    + rewrite lookup_delete_ne by done. by apply HN.
Qed.
End LegacyTight.

Section LegacyStable.
Import Legacy.

Lemma legacy_prim_stable s s' T p :
  prim s s' -> object_ s !! T = Some p ->
  object_ s' !! T = Some p /\ entries s' !! T = entries s !! T.
Proof.
  intros Hp Ho.
  destruct Hp as [U s|U q s Hq|U s Hfree HoU|U q s Hin HoU Hcell Hlt|U q s Hin HoU Hcell Hlt];
    simpl; try done.
  - assert (U <> T) by congruence. by rewrite lookup_insert_ne.
  - assert (U <> T) by congruence. by rewrite lookup_insert_ne.
Qed.

Lemma legacy_steps_stable s s' T p :
  rtc prim s s' -> object_ s !! T = Some p ->
  object_ s' !! T = Some p /\ entries s' !! T = entries s !! T.
Proof.
  induction 1 as [|s1 s2 s3 H12 H23 IH]; intros Ho; [done|].
  destruct (legacy_prim_stable _ _ _ _ H12 Ho) as [Ho2 He2].
  destruct (IH Ho2) as [Ho3 He3]. split; [done|]. by rewrite He3.
Qed.

(** Every reference handed out is the one [object_] holds, and no
    construction of a type completes twice. *)
Lemma legacy_prim_once s s' :
  prim s s' -> running s ->
  (forall T p, In (Returned T p) (log s) -> object_ s !! T = Some p) /\
  (forall T p, count_occ event_eq_dec (log s) (Constructed T p) <= 1) ->
  (forall T p, In (Returned T p) (log s') -> object_ s' !! T = Some p) /\
  (forall T p, count_occ event_eq_dec (log s') (Constructed T p) <= 1).
Proof.
  intros Hp [_ Hco] [HR HC].
  destruct Hp as [U s|U q s Hq|U s Hfree HoU|U q s Hin HoU Hcell Hlt|U q s Hin HoU Hcell Hlt];
    cbn [log object_ note alloc lock unlock set_object_ set_cell].
  - split.
    + intros T p [[=]|Hin]. by apply HR.
    + intros T p. rewrite count_occ_cons_neq by done. apply HC.
  - split.
    + intros T p [[= -> ->]|Hin]; [done|]. by apply HR.
    + intros T p. rewrite count_occ_cons_neq by done. apply HC.
  - done.
  - split.
    + intros T p [[=]|HinR]. pose proof (HR _ _ HinR) as HoT.
      assert (U <> T) by congruence. by rewrite lookup_insert_ne.
    + intros T p. destruct (decide (Constructed U q = Constructed T p)) as [Heq|Hne].
      * rewrite count_occ_cons_eq by done. injection Heq as <- <-.
        rewrite (proj1 (count_occ_not_In event_eq_dec (log s) (Constructed U q))); [lia|].
        intros Habs. apply Hco in Habs. congruence.
      * rewrite count_occ_cons_neq by done. apply HC.
  - done.
Qed.

Lemma legacy_steps_once s s' :
  rtc prim s s' -> running s ->
  (forall T p, In (Returned T p) (log s) -> object_ s !! T = Some p) /\
  (forall T p, count_occ event_eq_dec (log s) (Constructed T p) <= 1) ->
  (forall T p, In (Returned T p) (log s') -> object_ s' !! T = Some p) /\
  (forall T p, count_occ event_eq_dec (log s') (Constructed T p) <= 1).
Proof.
  induction 1 as [|s1 s2 s3 H12 H23 IH]; intros Hr Hi; [done|].
  apply IH; [by eapply legacy_prim_running | by eapply legacy_prim_once].
Qed.

Lemma legacy_dtor_wf T s : wf s -> wf (object_destroyer_dtor T s).
Proof.
  intros Hwf. unfold object_destroyer_dtor.
  destruct (object_ s !! T); [by apply legacy_destroy_wf | done].
Qed.

Lemma legacy_exit_tight order : forall s,
  wf s -> tight s -> wf (exit order s) /\ tight (exit order s).
Proof.
  induction order as [|T order IH]; intros s Hwf Ht; simpl; [done|].
  apply IH; [by apply legacy_dtor_wf | by apply legacy_dtor_tight].
Qed.

Lemma legacy_exit_object order : forall s T,
  In T order \/ object_ s !! T = None -> object_ (exit order s) !! T = None.
Proof.
  induction order as [|U order IH]; intros s T H; simpl.
  - by destruct H.
  - apply IH. rewrite legacy_dtor_object. destruct H as [[->|H]|H].
    + right. by rewrite decide_True.
    + by left.
    + right. by case_decide.
Qed.

Lemma legacy_exit_mutex order : forall s, mutex_ (exit order s) = mutex_ s.
Proof.
  induction order as [|U order IH]; intros s; simpl; [done|].
  rewrite IH. unfold object_destroyer_dtor, destroy. by destruct (object_ s !! U).
Qed.

(** What exit logs: destructions of instances that were live. *)
Lemma legacy_exit_destroys order : forall s,
  exists td, log (exit order s) = td ++ log s /\
    forall e, In e td -> exists T p, e = Destroyed T p /\ object_ s !! T = Some p.
Proof.
  induction order as [|U order IH]; intros s; simpl.
  - exists []. split; [done|]. intros e [].
  - destruct (IH (object_destroyer_dtor U s)) as (td & Hlog & Htd).
    rewrite legacy_dtor_log in Hlog.
    exists (td ++ match object_ s !! U with Some p => [Destroyed U p] | None => [] end).
    split; [by rewrite <- app_assoc|].
    intros e He. apply in_app_iff in He as [He|He].
    + destruct (Htd e He) as (T & p & -> & Ho). exists T, p. split; [done|].
      rewrite legacy_dtor_object in Ho. by case_decide.
    + destruct (object_ s !! U) as [p|] eqn:Ho; [|done].
      destruct He as [<-|[]]. eauto.
Qed.
End LegacyStable.

(** ** The C++11 definition, one thread: stability and the exit order *)

Lemma omap_rev {A B : Type} (f : A -> option B) (l : list A) :
  omap f (rev l) = rev (omap f l).
Proof.
  induction l as [|x l IH]; [done|]. simpl. rewrite omap_app, IH. simpl.
  destruct (f x); simpl; [done|]. by rewrite app_nil_r.
Qed.

Section Cxx11Stable.
Import Cxx11.

Lemma cxx11_prim_stable s s' T :
  prim s s' -> slot s !! T = Some Live ->
  slot s' !! T = Some Live /\ entries s' !! T = entries s !! T.
Proof.
  intros Hp Ho.
  destruct Hp as [U s|U s Hl|U s Hn|U s Hc|U s Hc]; simpl; try done.
  - assert (U <> T) by congruence. by rewrite !lookup_insert_ne.
  - assert (U <> T) by congruence. by rewrite lookup_insert_ne.
  - assert (U <> T) by congruence. by rewrite lookup_delete_ne.
Qed.

Lemma cxx11_steps_stable s s' T :
  rtc prim s s' -> slot s !! T = Some Live ->
  slot s' !! T = Some Live /\ entries s' !! T = entries s !! T.
Proof.
  induction 1 as [|s1 s2 s3 H12 H23 IH]; intros Ho; [done|].
  destruct (cxx11_prim_stable _ _ _ H12 Ho) as [Ho2 He2].
  destruct (IH Ho2) as [Ho3 He3]. split; [done|]. by rewrite He3.
Qed.

(** The registered destructors are the completed constructions, newest
    first; every reference handed out is to an initialised static, and no
    initialisation completes twice. *)
Lemma cxx11_prim_once s s' :
  prim s s' -> running s ->
  atexit s = omap constructed_type (log s) /\
  (forall T p, In (Returned T p) (log s) -> slot s !! T = Some Live /\ p = object T) /\
  (forall T p, count_occ event_eq_dec (log s) (Constructed T p) <= 1) ->
  atexit s' = omap constructed_type (log s') /\
  (forall T p, In (Returned T p) (log s') -> slot s' !! T = Some Live /\ p = object T) /\
  (forall T p, count_occ event_eq_dec (log s') (Constructed T p) <= 1).
Proof.
  intros Hp (_ & Hco & _ & _ & Hdead) (HA & HR & HC).
  destruct Hp as [U s|U s Hl|U s Hn|U s Hc|U s Hc];
    cbn [log slot atexit note begin register set_slot].
  - split_and!; [done| |].
    + intros T p [[=]|Hin]. by apply HR.
    + intros T p. rewrite count_occ_cons_neq by done. apply HC.
  - split_and!; [done| |].
    + intros T p [[= -> <-]|Hin]; [|by apply HR].
      destruct Hl as [Hl|Hl]; [done|]. by apply Hdead in Hl.
    + intros T p. rewrite count_occ_cons_neq by done. apply HC.
  - split_and!; [done| |done].
    intros T p Hin. destruct (HR _ _ Hin) as [Hl ->].
    assert (U <> T) by congruence. by rewrite lookup_insert_ne.
  - split_and!.
    + cbn [omap list_omap constructed_type]. by rewrite HA.
    + intros T p [[=]|Hin]. destruct (HR _ _ Hin) as [Hl ->].
      assert (U <> T) by congruence. by rewrite lookup_insert_ne.
    + intros T p. destruct (decide (Constructed U (object U) = Constructed T p)) as [Heq|Hne].
      * rewrite count_occ_cons_eq by done. injection Heq as <- <-.
        rewrite (proj1 (count_occ_not_In event_eq_dec (log s) (Constructed U (object U))));
          [lia|].
        intros Habs. apply Hco in Habs as [Habs _]. congruence.
      * rewrite count_occ_cons_neq by done. apply HC.
  - split_and!; [done| |done].
    intros T p Hin. destruct (HR _ _ Hin) as [Hl ->].
    assert (U <> T) by congruence. by rewrite lookup_delete_ne.
Qed.

Lemma cxx11_steps_once s s' :
  rtc prim s s' -> running s ->
  atexit s = omap constructed_type (log s) /\
  (forall T p, In (Returned T p) (log s) -> slot s !! T = Some Live /\ p = object T) /\
  (forall T p, count_occ event_eq_dec (log s) (Constructed T p) <= 1) ->
  atexit s' = omap constructed_type (log s') /\
  (forall T p, In (Returned T p) (log s') -> slot s' !! T = Some Live /\ p = object T) /\
  (forall T p, count_occ event_eq_dec (log s') (Constructed T p) <= 1).
Proof.
  induction 1 as [|s1 s2 s3 H12 H23 IH]; intros Hr Hi; [done|].
  apply IH; [by eapply cxx11_prim_running | by eapply cxx11_prim_once].
Qed.

Lemma cxx11_init_once :
  atexit init = omap constructed_type (log init) /\
  (forall T p, In (Returned T p) (log init) -> slot init !! T = Some Live /\ p = object T) /\
  (forall T p, count_occ event_eq_dec (log init) (Constructed T p) <= 1).
Proof. split; [done|]. split; [intros ? ? []|]. intros; simpl; lia. Qed.

Lemma omap_destroyed_map l :
  omap destroyed_type (map (fun T => Destroyed T (object T)) l) = l.
Proof. induction l as [|T l IH]; [done|]. simpl. by f_equal. Qed.

Lemma omap_destroyed_none lg :
  Forall (fun e => ~ is_destruction e) lg -> omap destroyed_type lg = [].
Proof.
  induction 1 as [|e lg He _ IH]; [done|].
  destruct e; simpl in *; done.
Qed.
End Cxx11Stable.

(** ** Threads: exceptions and storage under interleaving *)

Section LegacyThreadStorage.
Import LegacyThreads.
Variable ctor_throws : nat -> option exn.

Lemma lt_thrown_mono s s' e :
  begun s <= begun s' -> thrown ctor_throws s e -> thrown ctor_throws s' e.
Proof. intros Hle (n & Hn & He). exists n. split; [lia|done]. Qed.

Lemma lt_step_begun t s s' : step ctor_throws t s = Some s' -> begun s <= begun s'.
Proof.
  unfold step. intros Hstep.
  destruct (at_ (threads s t));
    repeat match type of Hstep with
           | context [match ?x with _ => _ end] => destruct x eqn:?
           end; simplify_eq; simpl; lia.
Qed.

Lemma lt_step_caused t s s' :
  inv s -> caused ctor_throws s -> step ctor_throws t s = Some s' -> caused ctor_throws s'.
Proof.
  intros (_ & HB & _) Hc Hstep t' e.
  pose proof (lt_step_begun _ _ _ Hstep) as Hle.
  destruct (Hc t' e) as [Hu Hr]. destruct (HB t) as [Hl _].
  unfold step in Hstep.
  destruct (at_ (threads s t)) eqn:Hpc;
    repeat match type of Hstep with
           | context [match ?x with _ => _ end] => destruct x eqn:?
           end;
    simplify_eq; simpl; simpl in Hle;
    (destruct (decide (t' = t)) as [->|Hne];
     [|split; intros H'; eapply lt_thrown_mono; eauto]); simpl;
    (split; [try done|]); try (intros H'; eapply lt_thrown_mono; [|eauto]; simpl; done);
    try done.
  - (* Construct throws *)
    intros [= <-]. destruct Hl as (_ & _ & _ & Hn & Hb). exists n. simpl. split; [lia|done].
  - (* Unwind delivers *)
    intros [= <-]. destruct (Hc t e0) as [Hu' _]. by apply Hu'.
Qed.

Lemma lt_exec_caused sched : forall s,
  inv s -> caused ctor_throws s -> caused ctor_throws (exec ctor_throws sched s).
Proof.
  induction sched as [|t sched IH]; intros s Hinv Hc; simpl; [done|].
  destruct (step ctor_throws t s) as [s'|] eqn:Hs; simpl; [|by apply IH].
  apply IH; [by eapply lt_step_inv | by eapply lt_step_caused].
Qed.

Lemma lt_accounted_kept t th s s' :
  accounted s ->
  (forall p, at_ (threads s t) <> Publish p) ->
  (forall p n, at_ (threads s t) <> Construct p n) ->
  heap s' = heap s -> object_ s' = object_ s ->
  threads s' = (fun t0 => if decide (t0 = t) then th else threads s t0) ->
  accounted s'.
Proof.
  intros Ha Hnp Hnc Hh Ho Ht q c. rewrite Hh, Ho, Ht. intros Hq.
  specialize (Ha q c Hq). destruct c.
  - destruct Ha as (t0 & n & Ht0). exists t0, n. rewrite decide_False; [done|].
    intros ->. by destruct (Hnc q n).
  - destruct Ha as [Hobj|(t0 & Ht0)]; [by left|right]. exists t0.
    rewrite decide_False; [done|]. intros ->. by destruct (Hnp q).
Qed.

Lemma lt_step_accounted t s s' :
  inv s -> accounted s -> step ctor_throws t s = Some s' -> accounted s'.
Proof.
  intros (_ & HB & _ & _ & HF) Ha Hstep.
  destruct (HB t) as [Hl _].
  unfold step in Hstep.
  destruct (at_ (threads s t)) eqn:Hpc;
    repeat match type of Hstep with
           | context [match ?x with _ => _ end] => destruct x eqn:?
           end;
    simplify_eq;
    try (eapply (lt_accounted_kept t); [exact Ha|rewrite Hpc; done..|done|done|done]);
    intros q c; simpl.
  - (* New *)
    destruct (decide (q = next s)) as [->|Hne].
    + rewrite lookup_insert_eq. intros [= <-]. exists t, (begun s). by rewrite decide_True.
    + rewrite lookup_insert_ne by done. intros Hq. specialize (Ha q c Hq). destruct c.
      * destruct Ha as (t0 & n0 & Ht0). exists t0, n0. rewrite decide_False; [done|].
        intros ->. congruence.
      * destruct Ha as [Ho|(t0 & Ht0)]; [by left|right]. exists t0.
        rewrite decide_False; [done|]. intros ->. congruence.
  - (* Construct throws *)
    destruct (decide (q = p)) as [->|Hne]; [by rewrite lookup_delete_eq|].
    rewrite lookup_delete_ne by done. intros Hq. specialize (Ha q c Hq). destruct c.
    + destruct Ha as (t0 & n0 & Ht0). exists t0, n0. rewrite decide_False; [done|].
      intros ->. congruence.
    + destruct Ha as [Ho|(t0 & Ht0)]; [by left|right]. exists t0.
      rewrite decide_False; [done|]. intros ->. congruence.
  - (* Construct returns *)
    destruct (decide (q = p)) as [->|Hne].
    + rewrite lookup_insert_eq. intros [= <-]. right. exists t. by rewrite decide_True.
    + rewrite lookup_insert_ne by done. intros Hq. specialize (Ha q c Hq). destruct c.
      * destruct Ha as (t0 & n0 & Ht0). exists t0, n0. rewrite decide_False; [done|].
        intros ->. congruence.
      * destruct Ha as [Ho|(t0 & Ht0)]; [by left|right]. exists t0.
        rewrite decide_False; [done|]. intros ->. congruence.
  - (* Publish *)
    intros Hq. specialize (Ha q c Hq). destruct Hl as (Hnone & _). destruct c.
    + destruct Ha as (t0 & n0 & Ht0). exists t0, n0. rewrite decide_False; [done|].
      intros ->. congruence.
    + destruct Ha as [Ho|(t0 & Ht0)]; [congruence|].
      destruct (decide (t0 = t)) as [->|Hne].
      * left. congruence.
      * right. exists t0. by rewrite decide_False.
Qed.

Lemma lt_exec_accounted sched : forall s,
  inv s -> accounted s -> accounted (exec ctor_throws sched s).
Proof.
  induction sched as [|t sched IH]; intros s Hinv Hc; simpl; [done|].
  destruct (step ctor_throws t s) as [s'|] eqn:Hs; simpl; [|by apply IH].
  apply IH; [by eapply lt_step_inv | by eapply lt_step_accounted].
Qed.

Lemma lt_init_caused : caused ctor_throws init.
Proof. intros t e. simpl. done. Qed.

Lemma lt_init_accounted : accounted init.
Proof. intros p c. simpl. by rewrite lookup_empty. Qed.
End LegacyThreadStorage.

(** ** Threads: what the mutex alone gives when accesses may be reordered *)

Section OrderingMutex.
Import Ordering.

Ltac og_arith :=
  unfold thread_ok, last_object in *; simpl;
  rewrite ?store_to_same, ?store_to_other by done;
  unfold ready, join, at_least in *; simpl.

Lemma og_init_informed : informed init.
Proof.
  unfold informed, field_ok, synced, last_object; simpl. split_and!.
  - intros [|i] ms; simpl; [lia|done].
  - intros [|i] ms; simpl; [|done]. intros [= <-]. unfold bot. simpl. lia.
  - intros ms [= <-]. simpl. lia.
  - intros t. split; [done|]. unfold bot. lia.
Qed.

Lemma og_step_informed os t i s s' :
  counted s -> informed s -> step os t i s = Some s' -> informed s'.
Proof.
  intros ((HlenO & HlenF) & HO & HZ & HP & HM & HT) (HF & HS & HL & HI) Hstep.
  unfold step in Hstep.
  destruct (HT t) as (Hvalid & Hpc0). destruct (HI t) as (Hheld & Hpc).
  assert (Hothers : forall m th t', t' <> t ->
            threads (set_thread t th m s) t' = threads s t').
  { intros m th t' Hne. simpl. by rewrite decide_False. }
  assert (Hself : forall m th, threads (set_thread t th m s) t = th).
  { intros m th. simpl. by rewrite decide_True. }
  destruct (at_ (threads s t)) eqn:Hat; simpl in Hstep.
  - (* Check1 *)
    destruct (load LObject (check_order os) i (cur (threads s t)) (mem s))
      as [[a v']|] eqn:Hload; simpl in Hstep; [|done].
    apply load_inv in Hload as (Hle & ms & Hms & -> & ->). injection Hstep as <-.
    pose proof (HS i ms Hms) as Hsm.
    unfold informed. split_and!; try done.
    intros t'. destruct (decide (t' = t)) as [->|Hne];
      [rewrite Hself|rewrite Hothers by done; apply HI].
    simpl. split; [by destruct (val ms)|].
    assert (Hsy : synced (match check_order os with
                          | Acq => join (at_least LObject i (cur (threads s t))) (seen ms)
                          | _ => at_least LObject i (cur (threads s t))
                          end)).
    { destruct (check_order os); unfold synced, join, at_least in *; simpl; lia. }
    by destruct (val ms).
  - (* Acquire *)
    destruct (load LMutex Acq (pred (length (mem s LMutex))) (cur (threads s t)) (mem s))
      as [[a v']|] eqn:Hload; simpl in Hstep; [|done].
    apply load_inv in Hload as (Hle & ms & Hms & -> & ->).
    destruct (val ms) eqn:Hval; [|done]. injection Hstep as <-.
    assert (Hlast : last (mem s LMutex) = Some ms) by (by rewrite last_lookup).
    pose proof (HL ms Hlast Hval) as Hknown.
    assert (Hlen : 1 <= length (mem s LMutex)).
    { apply lookup_lt_Some in Hms. lia. }
    unfold informed. split_and!; try done.
    + intros mm. simpl. rewrite store_to_same, last_snoc. intros [= <-]. done.
    + intros t'. destruct (decide (t' = t)) as [->|Hne];
        [rewrite Hself|rewrite Hothers by done; apply HI].
      simpl. split.
      * intros _. unfold at_least. simpl. lia.
      * og_arith. intros Hl. specialize (Hknown Hl). lia.
  - (* Check2 *)
    destruct (load LObject Plain i (cur (threads s t)) (mem s)) as [[a v']|] eqn:Hload;
      simpl in Hstep; [|done].
    apply load_inv in Hload as (Hle & ms & Hms & -> & ->). injection Hstep as <-.
    destruct (HO i ms Hms) as [H0 H1].
    destruct (og_owner s t HM) as [Hown Honly]; [by rewrite Hat|].
    assert (Hi : i = last_object s).
    { apply lookup_lt_Some in Hms. unfold last_object in *. lia. }
    unfold informed. split_and!; try done.
    intros t'. destruct (decide (t' = t)) as [->|Hne];
      [rewrite Hself|rewrite Hothers by done; apply HI].
    simpl. split.
    + intros _. unfold at_least. simpl. by apply Hheld.
    + destruct (val ms) eqn:Hval; [done|]. unfold at_least. simpl.
      apply Hpc. destruct (decide (i = 0)) as [Hz|Hnz]; [|lia].
      apply H0 in Hz. congruence.
  - (* Construct *)
    injection Hstep as <-.
    unfold informed. split_and!.
    + intros j ms. simpl. rewrite store_to_same, lookup_snoc_Some.
      intros [[_ Hms]|[_ <-]]; [by apply (HF j ms)|done].
    + intros j ms. simpl. rewrite store_to_other by done. apply HS.
    + intros ms. simpl. rewrite store_to_other by done. unfold last_object. simpl.
      rewrite store_to_other by done. apply HL.
    + intros t'. destruct (decide (t' = t)) as [->|Hne].
      * rewrite Hself. simpl. split.
        -- intros _. unfold at_least. simpl. by apply Hheld.
        -- unfold at_least. simpl. lia.
      * rewrite Hothers by done. destruct (HI t') as [Hh' Hpc']. split; [done|].
        unfold last_object in *. simpl. rewrite store_to_other by done. done.
  - (* Publish *)
    injection Hstep as <-.
    destruct (og_owner s t HM) as [Hown Honly]; [by rewrite Hat|].
    unfold informed. split_and!.
    + intros j ms. simpl. rewrite store_to_other by done. apply HF.
    + intros j ms. simpl. rewrite store_to_same, lookup_snoc_Some.
      intros [[_ Hms]|[_ <-]]; [by apply (HS j ms)|].
      simpl. destruct (publish_order os); unfold synced, at_least, bot; simpl; lia.
    + intros ms. simpl. rewrite store_to_other by done. intros Hlast Hval.
      destruct HM as (mm & Hlast' & _ & Hcase).
      rewrite Hlast in Hlast'. injection Hlast' as <-. rewrite Hval in Hcase.
      destruct Hcase as [_ Hnone]. specialize (Hnone t). by rewrite Hat in Hnone.
    + intros t'. destruct (decide (t' = t)) as [->|Hne].
      * rewrite Hself. simpl. split.
        -- intros _. unfold at_least. simpl. by apply Hheld.
        -- unfold at_least. simpl. done.
      * rewrite Hothers by done. destruct (HI t') as [Hh' Hpc']. split; [done|].
        destruct (at_ (threads s t')) eqn:Hat'; try done.
        assert (t' = t) by (apply Honly; by rewrite Hat'). done.
  - (* Release *)
    injection Hstep as <-.
    unfold informed. split_and!.
    + intros j ms. simpl. rewrite store_to_other by done. apply HF.
    + intros j ms. simpl. rewrite store_to_other by done. apply HS.
    + intros ms. simpl. rewrite store_to_same, last_snoc. intros [= <-] _ _.
      simpl. unfold at_least. simpl. done.
    + intros t'. destruct (decide (t' = t)) as [->|Hne].
      * rewrite Hself. simpl. split; [done|]. unfold synced, at_least. simpl. done.
      * rewrite Hothers by done. destruct (HI t') as [Hh' Hpc']. split; [done|].
        unfold last_object in *. simpl. rewrite store_to_other by done. done.
  - (* Deref *)
    destruct (load LObject Plain i (cur (threads s t)) (mem s)) as [[a v']|] eqn:Hload;
      simpl in Hstep; [|done].
    apply load_inv in Hload as (Hle & ms & Hms & -> & ->).
    destruct (val ms) eqn:Hval; [done|]. injection Hstep as <-.
    unfold informed. split_and!; try done.
    intros t'. destruct (decide (t' = t)) as [->|Hne];
      [rewrite Hself|rewrite Hothers by done; apply HI].
    simpl. split; [done|]. unfold synced, at_least in *. simpl. done.
  - (* Use *)
    destruct (load LField Plain i (cur (threads s t)) (mem s)) as [[a v']|] eqn:Hload;
      simpl in Hstep; [|done].
    apply load_inv in Hload as (Hle & ms & Hms & -> & ->). injection Hstep as <-.
    unfold informed. split_and!; try done.
    intros t'. destruct (decide (t' = t)) as [->|Hne];
      [rewrite Hself|rewrite Hothers by done; apply HI].
    simpl. split; [done|]. unfold synced, at_least in *. simpl. intros Hm.
    apply (HF i ms Hms). lia.
  - done.
Qed.

Lemma og_exec_informed os sched : forall s,
  counted s -> informed s -> informed (exec os sched s).
Proof.
  induction sched as [|[t i] sched IH]; intros s Hc Hinv; simpl; [done|].
  destruct (step os t i s) as [s'|] eqn:Hs; simpl; [|by apply IH].
  apply IH; [by eapply og_step_counted | by eapply og_step_informed].
Qed.
End OrderingMutex.

(** ** Threads under interleaving: results and progress *)

Section LegacyThreadResults.
Variable ctor_throws : nat -> option exn.

Lemma lt_step_tidy t s s' :
  LegacyThreads.tidy s -> LegacyThreads.step ctor_throws t s = Some s' ->
  LegacyThreads.tidy s'.
Proof.
  intros Ht Hstep t'. specialize (Ht t'). unfold LegacyThreads.step in Hstep.
  pose proof (Ht' := fun H => Ht H).
  destruct (LegacyThreads.at_ (LegacyThreads.threads s t)) eqn:Hpc;
    repeat match type of Hstep with
           | context [match ?x with _ => _ end] => destruct x eqn:?
           end;
    simplify_eq; simpl; case_decide; subst; simpl; try done;
    intros _; apply Ht'; congruence.
Qed.

Lemma lt_exec_tidy sched : forall s,
  LegacyThreads.tidy s -> LegacyThreads.tidy (LegacyThreads.exec ctor_throws sched s).
Proof.
  induction sched as [|t sched IH]; intros s Hinv; simpl; [done|].
  apply IH. destruct (LegacyThreads.step ctor_throws t s) as [s'|] eqn:Hs; simpl; [|done].
  eapply lt_step_tidy; eassumption.
Qed.

(** A blocked thread waits for the owner of the mutex, who can move. *)
Lemma lt_no_deadlock t s :
  LegacyThreads.inv s -> LegacyThreads.step ctor_throws t s = None ->
  exists t0, LegacyThreads.mutex_ s = Some t0 /\ t0 <> t /\
             is_Some (LegacyThreads.step ctor_throws t0 s).
Proof.
  intros (HA & _) Hstep. unfold LegacyThreads.step in Hstep.
  destruct (LegacyThreads.at_ (LegacyThreads.threads s t)) eqn:Hpc; try done.
  - destruct (LegacyThreads.mutex_ s) as [t0|] eqn:Hm; [|done].
    exists t0. split; [done|]. pose proof (proj2 (HA t0) eq_refl) as Hh. split.
    + intros ->. by rewrite Hpc in Hh.
    + unfold LegacyThreads.step.
      destruct (LegacyThreads.at_ (LegacyThreads.threads s t0)); try done.
      by destruct (ctor_throws n).
  - by destruct (ctor_throws n).
Qed.
End LegacyThreadResults.

(** ** The legacy definition after exit *)

Lemma run_body_ext {S : Type} (call1 call2 : tyid -> S -> option (outcome addr * S)) :
  (forall U s, call1 U s = call2 U s) ->
  forall b s, run_body call1 b s = run_body call2 b s.
Proof.
  intros Hext b. induction b as [|c b IH]; intros s; simpl; [done|].
  destruct c as [U|e]; [|done]. rewrite Hext.
  destruct (call2 U s) as [[[p|e|f] s1]|]; auto.
Qed.

Section LegacyAfterExit.
Import Legacy.
Variable ctor : tyid -> nat -> list cmd.

(** While no mutex has been destroyed, [instance_in] is [instance]. *)
Lemma legacy_instance_in_live fuel :
  forall T s, instance_in ctor ∅ fuel T s = instance ctor fuel T s.
Proof.
  induction fuel as [|fuel IH]; intros T s; [done|]. simpl.
  destruct (object_ s !! T) as [p|] eqn:Ho; [done|].
  rewrite decide_False by set_solver.
  destruct (decide (T ∈ mutex_ s)); [done|].
  unfold construct. by rewrite (run_body_ext _ _ IH).
Qed.





End LegacyAfterExit.

(** ** Threads: calls after the first, accesses reordered *)

Section OrderingAgain.
Import Ordering.

Lemma og_step_again_counted os t i s s' :
  counted s -> step_again os t i s = Some s' -> counted s'.
Proof.
  intros Hc. unfold step_again.
  destruct (at_ (threads s t)) eqn:Hat;
    try (intros Hs; eapply og_step_counted; [exact Hc|]; exact Hs).
  intros [= <-]. pose proof Hc as (_ & _ & _ & _ & _ & HT). destruct (HT t) as [Hv _].
  apply og_counted_quiet; rewrite ?Hat; simpl; done.
Qed.

Lemma og_exec_again_counted os sched : forall s,
  counted s -> counted (exec_again os sched s).
Proof.
  induction sched as [|[t i] sched IH]; intros s Hinv; simpl; [done|].
  apply IH. destruct (step_again os t i s) as [s'|] eqn:Hs; simpl; [|done].
  eapply og_step_again_counted; eassumption.
Qed.

Lemma locks_of_snoc t h ms :
  locks_of t (h ++ [ms]) = locks_of t h + (if decide (val ms = S t) then 1 else 0).
Proof.
  unfold locks_of. rewrite map_app, count_occ_app. simpl.
  destruct (Nat.eq_dec (val ms) (S t)), (decide (val ms = S t)); done.
Qed.

(** A thread that sees [object_] set and is outside the locked region
    stays on the lines of the fast path and stores no lock, whoever moves. *)
Lemma og_step_again_lock_free os t t' i s s' :
  counted s ->
  lock_free (at_ (threads s t)) = true -> 1 <= cur (threads s t) LObject ->
  step_again os t' i s = Some s' ->
  lock_free (at_ (threads s' t)) = true /\
  cur (threads s t) LObject <= cur (threads s' t) LObject /\
  locks_of t (mem s' LMutex) = locks_of t (mem s LMutex).
Proof.
  intros ((HlenO & HlenF) & HO & _) Hfree Hsee Hstep.
  unfold step_again, step in Hstep.
  destruct (decide (t' = t)) as [->|Hne].
  - destruct (at_ (threads s t)) eqn:Hat; try done; simpl in Hstep.
    + (* Check1 *)
      destruct (load LObject (check_order os) i (cur (threads s t)) (mem s))
        as [[a v']|] eqn:Hload; simpl in Hstep; [|done].
      apply load_inv in Hload as (Hle & ms & Hms & -> & ->). injection Hstep as <-.
      destruct (HO i ms Hms) as [H0 _]. simpl. rewrite decide_True by done. simpl.
      destruct (val ms) eqn:Hval; [assert (i = 0) by (by apply H0); lia|].
      split_and!; try done.
      destruct (check_order os); unfold join, at_least; simpl; lia.
    + (* Deref *)
      destruct (load LObject Plain i (cur (threads s t)) (mem s)) as [[a v']|] eqn:Hload;
        simpl in Hstep; [|done].
      apply load_inv in Hload as (Hle & ms & Hms & -> & ->).
      destruct (val ms) eqn:Hval; [done|]. injection Hstep as <-.
      simpl. rewrite decide_True by done. simpl. split_and!; try done.
    + (* Use *)
      destruct (load LField Plain i (cur (threads s t)) (mem s)) as [[a v']|] eqn:Hload;
        simpl in Hstep; [|done].
      apply load_inv in Hload as (Hle & ms & Hms & -> & ->). injection Hstep as <-.
      simpl. rewrite decide_True by done. simpl. split_and!; try done.
    + (* Done: the next call *)
      injection Hstep as <-. simpl. rewrite decide_True by done. simpl. done.
  - assert (Hsame : forall th m, threads (set_thread t' th m s) t = threads s t).
    { intros th m. simpl. by rewrite decide_False. }
    destruct (at_ (threads s t')) eqn:Hat'; simpl in Hstep;
      repeat match type of Hstep with
             | context [load ?x ?o ?j ?v ?m] =>
                 let H := fresh "Hload" in
                 destruct (load x o j v m) as [[? ?]|] eqn:H; simpl in Hstep; [|done]
             | context [match ?x with 0 => _ | S _ => _ end] =>
                 destruct x eqn:?; [|try done]
             end;
      simplify_eq; rewrite ?Hsame; simpl;
      rewrite ?store_to_same, ?store_to_other by done;
      rewrite ?locks_of_snoc; simpl; split_and!; try done; try lia.
    rewrite decide_False; [lia|]. intros [= ->]. done.
Qed.

Lemma og_exec_again_lock_free os t sched : forall s,
  counted s ->
  lock_free (at_ (threads s t)) = true -> 1 <= cur (threads s t) LObject ->
  lock_free (at_ (threads (exec_again os sched s) t)) = true /\
  1 <= cur (threads (exec_again os sched s) t) LObject /\
  locks_of t (mem (exec_again os sched s) LMutex) = locks_of t (mem s LMutex).
Proof.
  induction sched as [|[t' i] sched IH]; intros s Hc Hfree Hsee; simpl; [done|].
  destruct (step_again os t' i s) as [s'|] eqn:Hs; simpl; [|by apply IH].
  destruct (og_step_again_lock_free _ _ _ _ _ _ Hc Hfree Hsee Hs) as (Hf' & Hv' & Hl').
  destruct (IH s') as (Hf'' & Hv'' & Hl''); [by eapply og_step_again_counted|done|lia|].
  split_and!; try done. by rewrite Hl''.
Qed.

(** A call by a thread that sees [object_] set: the first check, then the
    return. *)
Lemma og_fast_call os t s :
  counted s ->
  at_ (threads s t) = Check1 -> 1 <= cur (threads s t) LObject ->
  last_object s = 1 /\
  exists s1 s2,
    step_again os t (last_object s) s = Some s1 /\ at_ (threads s1 t) = Deref /\
    step_again os t (last_object s) s1 = Some s2 /\ at_ (threads s2 t) = Use /\
    mem s2 = mem s.
Proof.
  intros ((HlenO & HlenF) & HO & _ & HP & _ & HT) Hat Hsee.
  destruct (HT t) as [Hvalid _].
  assert (Hlast : last_object s = 1) by (apply HP; lia).
  split; [done|].
  assert (Hms : exists ms, mem s LObject !! last_object s = Some ms).
  { apply lookup_lt_is_Some. unfold last_object. lia. }
  destruct Hms as [ms Hms]. destruct (HO _ _ Hms) as [H0 Hseen].
  assert (Hval : exists a, val ms = S a).
  { destruct (val ms) eqn:Hv; [|eauto]. assert (last_object s = 0) by (by apply H0). lia. }
  destruct Hval as [a Hval].
  eexists _, _. split_and!.
  - unfold step_again, step. rewrite Hat. unfold load. rewrite decide_True by done.
    rewrite Hms. simpl. rewrite Hval. reflexivity.
  - simpl. by rewrite decide_True.
  - unfold step_again, step. cbn [threads set_thread at_ cur mem].
    rewrite decide_True by done.
    cbn [at_ cur]. unfold load. rewrite decide_True.
    + rewrite Hms. simpl. rewrite Hval. reflexivity.
    + destruct (check_order os); unfold join, at_least; simpl; lia.
  - simpl. by rewrite decide_True.
  - done.
Qed.
(** A thread that is past the checks of a call sees [object_] set. *)
Lemma og_step_again_arrived os t i s s' :
  counted s ->
  (forall t', arrived (at_ (threads s t')) = true -> 1 <= cur (threads s t') LObject) ->
  step_again os t i s = Some s' ->
  forall t', arrived (at_ (threads s' t')) = true -> 1 <= cur (threads s' t') LObject.
Proof.
  intros ((HlenO & HlenF) & HO & _) Harr Hstep t'.
  unfold step_again, step in Hstep.
  destruct (decide (t' = t)) as [->|Hne].
  - specialize (Harr t).
    destruct (at_ (threads s t)) eqn:Hat; simpl in Hstep;
      repeat match type of Hstep with
             | context [load ?x ?o ?j ?v ?m] =>
                 let H := fresh "Hload" in
                 destruct (load x o j v m) as [[? ?]|] eqn:H; simpl in Hstep; [|done];
                 apply load_inv in H as (Hle & ms & Hms & -> & ->)
             end.
    + (* Check1 *)
      injection Hstep as <-. simpl. rewrite decide_True by done. simpl.
      destruct (HO i ms Hms) as [H0 _].
      destruct (val ms) eqn:Hval; [done|]. intros _.
      assert (i <> 0) by (intros Hi; apply H0 in Hi; congruence).
      destruct (check_order os); unfold join, at_least; simpl; lia.
    + destruct (val ms); [|done]. injection Hstep as <-.
      simpl. rewrite decide_True by done. done.
    + (* Check2 *)
      injection Hstep as <-. simpl. rewrite decide_True by done. simpl.
      destruct (HO i ms Hms) as [H0 _].
      destruct (val ms) eqn:Hval; [done|]. intros _.
      assert (i <> 0) by (intros Hi; apply H0 in Hi; congruence).
      unfold at_least; simpl; lia.
    + injection Hstep as <-. simpl. rewrite decide_True by done. done.
    + (* Publish *)
      injection Hstep as <-. simpl. rewrite decide_True by done. simpl. intros _.
      unfold at_least; simpl. lia.
    + (* Release *)
      injection Hstep as <-. simpl. rewrite decide_True by done. simpl. intros _.
      unfold at_least; simpl. by apply Harr.
    + (* Deref *)
      destruct (val ms); [done|]. injection Hstep as <-.
      simpl. rewrite decide_True by done. simpl. intros _.
      unfold at_least; simpl. specialize (Harr eq_refl). lia.
    + (* Use *)
      injection Hstep as <-. simpl. rewrite decide_True by done. simpl. intros _.
      unfold at_least; simpl. by apply Harr.
    + injection Hstep as <-. simpl. rewrite decide_True by done. done.
  - assert (Hsame : forall th m, threads (set_thread t th m s) t' = threads s t').
    { intros th m. simpl. by rewrite decide_False. }
    destruct (at_ (threads s t)) eqn:Hat; simpl in Hstep;
      repeat match type of Hstep with
             | context [load ?x ?o ?j ?v ?m] =>
                 let H := fresh "Hload" in
                 destruct (load x o j v m) as [[? ?]|] eqn:H; simpl in Hstep; [|done]
             | context [match ?x with 0 => _ | S _ => _ end] =>
                 destruct x eqn:?; [|try done]
             end;
      simplify_eq; rewrite ?Hsame; apply Harr.
Qed.

Lemma og_exec_again_arrived os sched : forall s,
  counted s ->
  (forall t, arrived (at_ (threads s t)) = true -> 1 <= cur (threads s t) LObject) ->
  forall t, arrived (at_ (threads (exec_again os sched s) t)) = true ->
            1 <= cur (threads (exec_again os sched s) t) LObject.
Proof.
  induction sched as [|[t' i] sched IH]; intros s Hc Harr; simpl; [done|].
  destruct (step_again os t' i s) as [s'|] eqn:Hs; simpl; [|by apply IH].
  apply IH; [by eapply og_step_again_counted|].
  by eapply og_step_again_arrived.
Qed.
End OrderingAgain.


(** ** The legacy definition: a dependency is constructed first *)

Section LegacyDependency.
Variable ctor : tyid -> nat -> list cmd.

Lemma legacy_dependency_first fuel A B s pA s' :
  Legacy.running s -> Legacy.wf s ->
  Legacy.object_ s !! A = None ->
  In (Access B) (ctor A (Legacy.entered A s)) ->
  Legacy.instance ctor fuel A s = Some (Ret pA, s') ->
  exists pB, Legacy.object_ s' !! B = Some pB /\
             Legacy.heap s' !! pB = Some (Legacy.Obj B) /\
             precedes (Constructed B pB) (Constructed A pA) (Legacy.log s').
Proof.
  intros Hrun Hwf HA Hacc Hi.
  pose proof (legacy_instance_steps _ _ _ _ _ _ Hi) as Hsteps.
  pose proof (legacy_steps_wf _ _ Hsteps Hwf) as Hwf'.
  destruct fuel as [|fuel]; [discriminate|]. simpl in Hi. rewrite HA in Hi.
  destruct (decide (A ∈ Legacy.mutex_ s)) as [|Hfree]; [discriminate|].
  destruct (Legacy.construct ctor (Legacy.instance ctor fuel) A
              (Legacy.lock A (Legacy.note (Entered A) s)))
    as [[[[]|e|f] s3]|] eqn:Hc; try discriminate.
  unfold Legacy.deref in Hi. simpl in Hi. rewrite lookup_insert_eq in Hi.
  injection Hi as <- <-.
  set (s2 := Legacy.alloc A (Legacy.lock A (Legacy.note (Entered A) s))) in *.
  assert (Hk : Legacy.keep s2 s3)
    by (eapply (run_body_rel Legacy.keep); eauto using keep_refl, keep_trans, legacy_instance_keep).
  assert (Hb : rtc Legacy.prim s2 s3)
    by (eapply (run_body_rel (rtc Legacy.prim));
        eauto using rtc_refl, rtc_trans, legacy_instance_steps).
  assert (Hr2 : Legacy.running s2).
  { refine (legacy_steps_running _ _ _ Hrun).
    eapply rtc_l; [apply (Legacy.prim_enter A)|]. apply rtc_once. by apply Legacy.prim_new. }
  assert (Hr3 : Legacy.running s3) by (eapply legacy_steps_running; eauto).
  assert (HA3 : Legacy.object_ s3 !! A = None).
  { destruct Hk as (_ & _ & Hm). apply Hm; simpl; [set_solver|done]. }
  assert (HB3 : is_Some (Legacy.object_ s3 !! B)).
  { eapply (run_body_access (rtc Legacy.prim) (fun U s => is_Some (Legacy.object_ s !! U)));
      [apply rtc_refl | apply rtc_trans | eapply legacy_instance_steps | | | exact Hc | exact Hacc ].
    - intros U s0 p s0' Hcall. apply legacy_instance_ret in Hcall. eauto.
    - intros U s0 s0' [q Hq] Hst. exists q. by apply (legacy_steps_stable _ _ _ _ Hst Hq). }
  destruct HB3 as [pB HB3]. exists pB.
  assert (HAB : A <> B) by congruence.
  destruct Hr3 as [Hnd3 Hco3]. split_and!.
  - simpl. by rewrite lookup_insert_ne.
  - apply Hwf'. simpl. by rewrite lookup_insert_ne.
  - simpl. change (Returned A (Legacy.next s) :: Constructed A (Legacy.next s) :: Legacy.log s3)
      with ([Returned A (Legacy.next s); Constructed A (Legacy.next s)] ++ Legacy.log s3).
    apply precedes_old_new.
    + by apply Hco3.
    + rewrite Hco3. congruence.
    + right. by left.
Qed.
End LegacyDependency.

(** * The claims *)

Section SequentialClaims.
Variable ctor : tyid -> nat -> list cmd.

(** C2. If T's default constructor throws during the first call of
    [instance()], the exception leaves the call unchanged and the slot is
    still not created ([object_] is NULL and the mutex is free in the legacy
    definition; the local static is uninitialised in the C++11 definition);
    a later call whose constructor returns normally then succeeds and yields
    a live instance. *)
Theorem construction_failure_is_retried (fuel : nat) (T : tyid) (e : exn) :
  (forall s s1,
     Legacy.object_ s !! T = None -> T ∉ Legacy.mutex_ s ->
     Legacy.construct ctor (Legacy.instance ctor fuel) T
       (Legacy.lock T (Legacy.note (Entered T) s)) = Some (Exn e, s1) ->
     exists s2,
       Legacy.instance ctor (S fuel) T s = Some (Exn e, s2) /\
       Legacy.object_ s2 !! T = None /\ (T ∉ Legacy.mutex_ s2) /\
       Legacy.heap s2 !! (Legacy.next s) = None /\
       forall fuel' s3,
         Legacy.construct ctor (Legacy.instance ctor fuel') T
           (Legacy.lock T (Legacy.note (Entered T) s2)) = Some (Ret tt, s3) ->
         exists p s4,
           Legacy.instance ctor (S fuel') T s2 = Some (Ret p, s4) /\
           Legacy.object_ s4 !! T = Some p /\
           Legacy.heap s4 !! p = Some (Legacy.Obj T)) /\
  (forall s s1,
     Cxx11.slot s !! T = None ->
     Cxx11.construct ctor (Cxx11.instance ctor fuel) T (Cxx11.note (Entered T) s)
       = Some (Exn e, s1) ->
     exists s2,
       Cxx11.instance ctor (S fuel) T s = Some (Exn e, s2) /\
       Cxx11.slot s2 !! T = None /\
       forall fuel' s3,
         Cxx11.construct ctor (Cxx11.instance ctor fuel') T (Cxx11.note (Entered T) s2)
           = Some (Ret tt, s3) ->
         exists s4,
           Cxx11.instance ctor (S fuel') T s2 = Some (Ret (Cxx11.object T), s4) /\
           Cxx11.slot s4 !! T = Some Cxx11.Live).
Proof.
  split.
  - intros s s1 Ho Hfree Hc.
    destruct (legacy_retry_after_failure ctor fuel T s e s1 Ho Hfree Hc)
      as (s2 & Hi & Ho2 & Hm2 & Hh2 & Hretry).
    exists s2. split_and!; try done.
    intros fuel' s3 Hc'. destruct (Hretry fuel' s3 Hc') as (p & s4 & ? & ? & ? & ?). eauto.
  - intros s s1 Ho Hc. by apply cxx11_retry_after_failure with (s1 := s1).
Qed.

(** C5. An instance that was created is destroyed exactly once, at exit,
    by no call of the program's own, and after every access: the log of a
    process is the log of its main program followed by destructions only, and
    every constructed instance has exactly one destruction in it.  In the
    legacy definition the guard's destructor deletes the instance only when
    [object_] is set and resets it, so running the guard again deletes
    nothing. *)
Theorem destroyed_exactly_once (fuel : nat) (main : list tyid) :
  (forall order s,
     Legacy.run_main ctor fuel main Legacy.init = Some s ->
     NoDup order ->
     (forall T, is_Some (Legacy.object_ s !! T) -> In T order) ->
     (exists td,
        Legacy.log (Legacy.exit order s) = td ++ Legacy.log s /\
        Forall is_destruction td /\
        Forall (fun e => ~ is_destruction e) (Legacy.log s) /\
        forall T p, In (Constructed T p) (Legacy.log (Legacy.exit order s)) ->
          count_occ event_eq_dec (Legacy.log (Legacy.exit order s)) (Destroyed T p) = 1 /\
          Legacy.object_ (Legacy.exit order s) !! T = None /\
          Legacy.heap (Legacy.exit order s) !! p = None) /\
     forall T s0,
       (Legacy.object_ s0 !! T = None -> Legacy.object_destroyer_dtor T s0 = s0) /\
       Legacy.object_destroyer_dtor T (Legacy.object_destroyer_dtor T s0)
         = Legacy.object_destroyer_dtor T s0) /\
  (forall s,
     Cxx11.run_main ctor fuel main Cxx11.init = Some s ->
     exists td,
       Cxx11.log (Cxx11.exit s) = td ++ Cxx11.log s /\
       Forall is_destruction td /\
       Forall (fun e => ~ is_destruction e) (Cxx11.log s) /\
       forall T p, In (Constructed T p) (Cxx11.log (Cxx11.exit s)) ->
         count_occ event_eq_dec (Cxx11.log (Cxx11.exit s)) (Destroyed T p) = 1 /\
         Cxx11.slot (Cxx11.exit s) !! T = Some Cxx11.Dead).
Proof.
  split.
  - intros order s Hrun Hnd Hcover. split.
    + by apply (legacy_destroyed_once ctor fuel main).
    + intros T s0. split; [apply legacy_guard_idle | apply legacy_guard_once].
  - intros s Hrun. by apply (cxx11_destroyed_once ctor fuel main).
Qed.

(** C8. The slots of two distinct types are independent.  A call of
    [singleton<T>::instance()] changes the slot of U only if
    [singleton<U>::instance()] was entered during it (by T's constructor);
    destroying T's instance leaves U's slot and U's instance alone; and the
    instances of distinct types are distinct objects. *)
Theorem slots_are_independent (T U : tyid) :
  (forall fuel s r s',
     Legacy.instance ctor fuel T s = Some (r, s') ->
     exists new, Legacy.log s' = new ++ Legacy.log s /\
       (~ In (Entered U) new ->
          Legacy.object_ s' !! U = Legacy.object_ s !! U /\
          (U ∈ Legacy.mutex_ s' <-> U ∈ Legacy.mutex_ s) /\
          (Legacy.wf s -> forall q, Legacy.object_ s !! U = Some q ->
                                    Legacy.heap s' !! q = Legacy.heap s !! q))) /\
  (T <> U ->
   forall s,
     Legacy.object_ (Legacy.destroy T s) !! U = Legacy.object_ s !! U /\
     Legacy.mutex_ (Legacy.destroy T s) = Legacy.mutex_ s /\
     (Legacy.wf s -> forall q, Legacy.object_ s !! U = Some q ->
        Legacy.heap (Legacy.destroy T s) !! q = Legacy.heap s !! q) /\
     (Legacy.wf s -> forall p q, Legacy.object_ s !! T = Some p ->
        Legacy.object_ s !! U = Some q -> p <> q)) /\
  (forall fuel s r s',
     Cxx11.instance ctor fuel T s = Some (r, s') ->
     exists new, Cxx11.log s' = new ++ Cxx11.log s /\
       (~ In (Entered U) new -> Cxx11.slot s' !! U = Cxx11.slot s !! U)) /\
  (T <> U ->
   (forall s, Cxx11.slot (Cxx11.destroy_static s T) !! U = Cxx11.slot s !! U) /\
   Cxx11.object T <> Cxx11.object U).
Proof.
  split_and!.
  - intros fuel s r s' Hi.
    destruct (legacy_instance_frame ctor fuel T s r s' Hi) as (_ & Hh & new & Hl & Hf).
    exists new. split; [done|]. intros HU. destruct (Hf U HU) as (Ho & Hm & _).
    split_and!; try done. intros Hwf q Hq. apply Hh. by apply Hwf in Hq as [_ ?].
  - intros Hne s. destruct (legacy_destroy_frame T U s Hne) as (Ho & Hm & Hh).
    split_and!; try done. intros Hwf p q Hp Hq ->.
    apply Hwf in Hp as [Hp _]. apply Hwf in Hq as [Hq _]. congruence.
  - intros fuel s r s' Hi.
    destruct (cxx11_instance_frame ctor fuel T s r s' Hi) as (new & Hl & Hf).
    exists new. split; [done|]. intros HU. by destruct (Hf U HU).
  - intros Hne. split; [|done]. intros s. unfold Cxx11.destroy_static. simpl.
    by rewrite lookup_insert_ne.
Qed.

(** C10. Whenever the legacy [instance()] returns normally, [object_] is
    not NULL at the return and points to a constructed T: the function
    never dereferences a null pointer. *)
Theorem instance_returns_live_object (fuel : nat) (T : tyid)
    (s : Legacy.state) (r : outcome addr) (s' : Legacy.state) :
  Legacy.wf s ->
  Legacy.instance ctor fuel T s = Some (r, s') ->
  r <> Undef NullDeref /\
  forall p, r = Ret p ->
    Legacy.object_ s' !! T = Some p /\ Legacy.heap s' !! p = Some (Legacy.Obj T).
Proof.
  intros Hwf H. split.
  - destruct r as [p|e|f]; try discriminate.
    apply legacy_instance_fault in H. congruence.
  - intros p ->. pose proof (legacy_instance_ret _ _ _ _ _ _ H) as Ho.
    split; [done|].
    assert (Hwf' : Legacy.wf s')
      by (eapply legacy_steps_wf; eauto using legacy_instance_steps).
    by apply Hwf'.
Qed.
End SequentialClaims.

Section TeardownClaims.
Variable ctor : tyid -> nat -> list cmd.


(** C4, as the code has it.  If A's constructor triggers the first
    access to B, then in both definitions B's construction completes during
    the call that constructs A and before A's; and in the C++11 definition,
    whatever the program does afterwards, at exit A is destroyed strictly
    before B: destruction is in reverse order of completed construction, so
    the dependency B outlives A. *)
Theorem destruction_order (A B : tyid) :
  (forall fuel s pA s',
     Cxx11.running s ->
     Cxx11.slot s !! A = None -> Cxx11.slot s !! B = None ->
     In (Access B) (ctor A (Cxx11.entered A s)) ->
     Cxx11.instance ctor fuel A s = Some (Ret pA, s') ->
     precedes (Constructed B (Cxx11.object B)) (Constructed A (Cxx11.object A))
       (Cxx11.log s') /\
     forall fuel' main s'',
       Cxx11.run_main ctor fuel' main s' = Some s'' ->
       precedes (Destroyed A (Cxx11.object A)) (Destroyed B (Cxx11.object B))
         (Cxx11.log (Cxx11.exit s''))) /\
  (forall fuel s pA s',
     Legacy.running s -> Legacy.wf s ->
     Legacy.object_ s !! A = None -> Legacy.object_ s !! B = None ->
     In (Access B) (ctor A (Legacy.entered A s)) ->
     Legacy.instance ctor fuel A s = Some (Ret pA, s') ->
     exists pB,
       Legacy.object_ s' !! B = Some pB /\
       Legacy.heap s' !! pB = Some (Legacy.Obj B) /\
       ~ In (Constructed B pB) (Legacy.log s) /\
       precedes (Constructed B pB) (Constructed A pA) (Legacy.log s')).
Proof.
  split.
  - intros fuel s pA s'. apply cxx11_destruction_order.
  - intros fuel s pA s' Hrun Hwf HA HB Hacc Hi.
    destruct (legacy_dependency_first ctor fuel A B s pA s' Hrun Hwf HA Hacc Hi)
      as (pB & Ho & Hh & Hp).
    exists pB. split_and!; try done.
    intros Hin. apply Hrun in Hin. congruence.
Qed.
End TeardownClaims.

(** C1. The source reads [object_] at line 71 and assigns it at line 76
    with ordinary accesses.  With these there is an execution of two
    concurrent first calls in which the constructor runs once and [object_]
    is assigned once, and in which thread 1, while thread 0 is still inside
    [instance()] before its unlock, finds [object_] set at line 71, returns
    the reference and reads the member as it was before the constructor
    ran: a caller of a concurrent first call observes an object that is not
    fully constructed. *)
Theorem racing_first_call_sees_unbuilt_object :
  Ordering.at_ (Ordering.threads
     (Ordering.exec Ordering.source (take 8 racing_first_calls) Ordering.init) 0)
    = Ordering.Release /\
  Ordering.at_ (Ordering.threads
     (Ordering.exec Ordering.source (take 8 racing_first_calls) Ordering.init) 1)
    = Ordering.Done 0 /\
  Ordering.at_ (Ordering.threads
     (Ordering.exec Ordering.source racing_first_calls Ordering.init) 0) = Ordering.Done 1 /\
  Ordering.at_ (Ordering.threads
     (Ordering.exec Ordering.source racing_first_calls Ordering.init) 1) = Ordering.Done 0 /\
  map Ordering.val
    (Ordering.mem (Ordering.exec Ordering.source racing_first_calls Ordering.init)
       Ordering.LField) = [0; 1] /\
  map Ordering.val
    (Ordering.mem (Ordering.exec Ordering.source racing_first_calls Ordering.init)
       Ordering.LObject) = [0; 1].
Proof. split_and!; vm_compute; reflexivity. Qed.

(** C6, as the code has it.  Whatever the order of the accesses of lines
    71 and 76, in every execution of any number of calls by any number of
    threads: a thread whose call has returned sees [object_] set; a thread
    that sees [object_] set and is outside the locked region never locks the
    mutex again and never reaches the lock or the second check, whatever it
    and the other threads do; and a call it begins makes the check of line
    71 once, on the one assignment of [object_], and returns at line 80,
    storing nothing. *)
Theorem visible_instance_takes_no_lock (os : Ordering.orders)
    (sched : list (Ordering.tid * nat)) (t : Ordering.tid) :
  let s := Ordering.exec_again os sched Ordering.init in
  (forall a, Ordering.at_ (Ordering.threads s t) = Ordering.Done a ->
     1 <= Ordering.cur (Ordering.threads s t) Ordering.LObject) /\
  (Ordering.lock_free (Ordering.at_ (Ordering.threads s t)) = true ->
   1 <= Ordering.cur (Ordering.threads s t) Ordering.LObject ->
   forall sched',
     let s' := Ordering.exec_again os sched' s in
     Ordering.lock_free (Ordering.at_ (Ordering.threads s' t)) = true /\
     1 <= Ordering.cur (Ordering.threads s' t) Ordering.LObject /\
     Ordering.locks_of t (Ordering.mem s' Ordering.LMutex)
       = Ordering.locks_of t (Ordering.mem s Ordering.LMutex)) /\
  (Ordering.at_ (Ordering.threads s t) = Ordering.Check1 ->
   1 <= Ordering.cur (Ordering.threads s t) Ordering.LObject ->
   Ordering.last_object s = 1 /\
   exists s1 s2,
     Ordering.step_again os t 1 s = Some s1 /\
     Ordering.at_ (Ordering.threads s1 t) = Ordering.Deref /\
     Ordering.step_again os t 1 s1 = Some s2 /\
     Ordering.at_ (Ordering.threads s2 t) = Ordering.Use /\
     Ordering.mem s2 = Ordering.mem s).
Proof.
  intros s.
  assert (Hc : Ordering.counted s)
    by (apply og_exec_again_counted, og_init_counted).
  split_and!.
  - intros a Hat. apply (og_exec_again_arrived os sched Ordering.init og_init_counted).
    + intros t'. simpl. done.
    + fold s. by rewrite Hat.
  - intros Hfree Hsee sched'. by apply og_exec_again_lock_free.
  - intros Hat Hsee.
    destruct (og_fast_call os t s Hc Hat Hsee) as (Hlast & s1 & s2 & H). split; [done|].
    exists s1, s2. by rewrite Hlast in H.
Qed.

(** C7. The source publishes [object_] with an ordinary store and reads
    it on the fast path with an ordinary load.  With these, there is an
    execution in which thread 0 constructs the instance and thread 1 then
    finds [object_] set at line 71, returns the reference without locking,
    and reads the member as it was before the constructor ran: it observes
    the slot as initialised and not the constructor's write. *)
Theorem plain_publication_shows_unset_member :
  Ordering.check_order Ordering.source = Ordering.Plain /\
  Ordering.publish_order Ordering.source = Ordering.Plain /\
  Ordering.at_ (Ordering.threads
     (Ordering.exec Ordering.source stale_read Ordering.init) 0) = Ordering.Done 1 /\
  Ordering.at_ (Ordering.threads
     (Ordering.exec Ordering.source stale_read Ordering.init) 1) = Ordering.Done 0.
Proof. split_and!; vm_compute; reflexivity. Qed.

(** ** Counterexamples and witnesses *)

(** C6 fails as stated: thread 0 makes the first call, which constructs
    the instance, assigns [object_], unlocks and returns, and reads the
    member.  Thread 1 calls [instance()] after that, still reads NULL at line
    71, and locks the mutex; it finds [object_] set at line 74 and returns the
    same object. *)
Lemma late_caller_takes_the_lock :
  Ordering.at_ (Ordering.threads
     (Ordering.exec_again Ordering.source (take 8 late_caller) Ordering.init) 0)
    = Ordering.Done 1 /\
  map Ordering.val
    (Ordering.mem (Ordering.exec_again Ordering.source (take 8 late_caller) Ordering.init)
       Ordering.LObject) = [0; 1] /\
  Ordering.at_ (Ordering.threads
     (Ordering.exec_again Ordering.source (take 8 late_caller) Ordering.init) 1)
    = Ordering.Check1 /\
  Ordering.locks_of 1
    (Ordering.mem (Ordering.exec_again Ordering.source (take 8 late_caller) Ordering.init)
       Ordering.LMutex) = 0 /\
  Ordering.at_ (Ordering.threads
     (Ordering.exec_again Ordering.source late_caller Ordering.init) 1) = Ordering.Done 1 /\
  Ordering.locks_of 1
    (Ordering.mem (Ordering.exec_again Ordering.source late_caller Ordering.init)
       Ordering.LMutex) = 1.
Proof. split_and!; vm_compute; reflexivity. Qed.

(** C4 fails as stated: with A = 0 whose constructor accesses B = 1,
    B is constructed first and A is destroyed first; B is not destroyed
    before A. *)
Lemma dependency_is_destroyed_last :
  exists s,
    Cxx11.process ctor_dep 2 [0] = Some s /\
    Cxx11.slot Cxx11.init !! 1 = None /\
    In (Access 1) (ctor_dep 0 0) /\
    precedes (Constructed 1 (Cxx11.object 1)) (Constructed 0 (Cxx11.object 0)) (Cxx11.log s) /\
    precedes (Destroyed 0 (Cxx11.object 0)) (Destroyed 1 (Cxx11.object 1)) (Cxx11.log s) /\
    ~ precedes (Destroyed 1 (Cxx11.object 1)) (Destroyed 0 (Cxx11.object 0)) (Cxx11.log s).
Proof.
  eexists. split; [vm_compute; reflexivity|]. split; [reflexivity|]. split; [by left|].
  unfold precedes, position. vm_compute. split_and!; lia.
Qed.

Lemma construction_failure_is_retried_witness :
  (exists s2 p s4,
     Legacy.instance ctor_flaky 1 0 Legacy.init = Some (Exn 7, s2) /\
     Legacy.object_ s2 !! 0 = None /\
     Legacy.instance ctor_flaky 1 0 s2 = Some (Ret p, s4) /\
     Legacy.object_ s4 !! 0 = Some p) /\
  (exists s2 s4,
     Cxx11.instance ctor_flaky 1 0 Cxx11.init = Some (Exn 7, s2) /\
     Cxx11.slot s2 !! 0 = None /\
     Cxx11.instance ctor_flaky 1 0 s2 = Some (Ret (Cxx11.object 0), s4) /\
     Cxx11.slot s4 !! 0 = Some Cxx11.Live).
Proof.
  destruct (construction_failure_is_retried ctor_flaky 0 0 7) as [HL HC]. split.
  - destruct (HL Legacy.init _ ltac:(vm_compute; reflexivity) (not_elem_of_empty 0)
                ltac:(vm_compute; reflexivity))
      as (s2 & Hi & Ho & _ & _ & Hretry).
    assert (Hs2 := Hi). vm_compute in Hs2. injection Hs2 as Hs2. subst s2.
    destruct (Hretry 0 _ ltac:(vm_compute; reflexivity)) as (p & s4 & Hi' & Ho' & _).
    eexists _, p, s4. auto.
  - destruct (HC Cxx11.init _ ltac:(vm_compute; reflexivity) ltac:(vm_compute; reflexivity))
      as (s2 & Hi & Ho & Hretry).
    assert (Hs2 := Hi). vm_compute in Hs2. injection Hs2 as Hs2. subst s2.
    destruct (Hretry 0 _ ltac:(vm_compute; reflexivity)) as (s4 & Hi' & Ho').
    eexists _, s4. auto.
Defined.

Lemma instance_returns_live_object_witness :
  Legacy.wf Legacy.init /\
  exists p s',
    Legacy.instance ctor_dep 2 0 Legacy.init = Some (Ret p, s') /\
    Legacy.object_ s' !! 0 = Some p /\ Legacy.heap s' !! p = Some (Legacy.Obj 0).
Proof.
  assert (Hwf : Legacy.wf Legacy.init).
  { intros T p. simpl. rewrite lookup_empty. discriminate. }
  split; [exact Hwf|].
  eexists _, _. split; [vm_compute; reflexivity|].
  match goal with
  | |- Legacy.object_ ?s' !! 0 = Some ?p /\ _ =>
      apply (proj2 (instance_returns_live_object ctor_dep 2 0 Legacy.init (Ret p) s' Hwf
                      ltac:(vm_compute; reflexivity)) p eq_refl)
  end.
Defined.

Lemma destroyed_exactly_once_witness :
  count_occ event_eq_dec (Legacy.log (Legacy.exit [1; 0] legacy_dep_live))
    (Destroyed 0 0) = 1 /\
  count_occ event_eq_dec (Legacy.log (Legacy.exit [1; 0] legacy_dep_live))
    (Destroyed 1 1) = 1 /\
  exists s,
    Cxx11.run_main ctor_dep 2 [0] Cxx11.init = Some s /\
    count_occ event_eq_dec (Cxx11.log (Cxx11.exit s)) (Destroyed 0 (Cxx11.object 0)) = 1 /\
    Cxx11.slot (Cxx11.exit s) !! 1 = Some Cxx11.Dead.
Proof.
  destruct (destroyed_exactly_once ctor_dep 2 [0]) as [HL HC].
  assert (Hobj : Legacy.object_ legacy_dep_live = <[0:=0]> (<[1:=1]> ∅))
    by (vm_compute; reflexivity).
  destruct (HL [1; 0] legacy_dep_live) as [(td & Hlog & _ & _ & Hall) _].
  { vm_compute; reflexivity. }
  { repeat constructor; set_solver. }
  { intros T. rewrite Hobj. intros [p Hp].
    apply lookup_insert_Some in Hp as [[<- _]|[_ Hp]]; [right; by left|].
    apply lookup_insert_Some in Hp as [[<- _]|[_ Hp]]; [by left|].
    by rewrite lookup_empty in Hp. }
  split; [apply Hall; vm_compute; tauto|]. split; [apply Hall; vm_compute; tauto|].
  eexists. split; [vm_compute; reflexivity|].
  match goal with
  | |- count_occ _ (Cxx11.log (Cxx11.exit ?s)) _ = 1 /\ _ =>
      destruct (HC s ltac:(vm_compute; reflexivity)) as (td' & _ & _ & _ & Hall')
  end.
  split.
  - apply Hall'. vm_compute. tauto.
  - refine (proj2 (Hall' 1 (Cxx11.object 1) _)). vm_compute. tauto.
Defined.

Lemma slots_are_independent_witness :
  (exists s',
     Legacy.instance ctor_plain 1 0 Legacy.init = Some (Ret 0, s') /\
     Legacy.object_ s' !! 1 = Legacy.object_ Legacy.init !! 1) /\
  Legacy.object_ (Legacy.destroy 1 legacy_dep_live) !! 0
    = Legacy.object_ legacy_dep_live !! 0 /\
  Cxx11.object 0 <> Cxx11.object 1.
Proof.
  destruct (slots_are_independent ctor_plain 0 1) as (HLi & _ & _ & HCd).
  destruct (slots_are_independent ctor_plain 1 0) as (_ & HLd & _ & _).
  split; [|split].
  - eexists. split; [vm_compute; reflexivity|].
    match goal with
    | |- Legacy.object_ ?s' !! 1 = _ =>
        destruct (HLi 1 Legacy.init (Ret 0) s' ltac:(vm_compute; reflexivity))
          as (new & Hlog & Hframe)
    end.
    apply Hframe. simpl in Hlog. rewrite app_nil_r in Hlog. subst new.
    vm_compute. intros [H|[H|[H|[]]]]; discriminate H.
  - apply (HLd ltac:(discriminate) legacy_dep_live).
  - apply (HCd ltac:(discriminate)).
Defined.


Lemma destruction_order_witness :
  (exists s',
     Cxx11.instance ctor_dep 2 0 Cxx11.init = Some (Ret (Cxx11.object 0), s') /\
     precedes (Constructed 1 (Cxx11.object 1)) (Constructed 0 (Cxx11.object 0))
       (Cxx11.log s') /\
     precedes (Destroyed 0 (Cxx11.object 0)) (Destroyed 1 (Cxx11.object 1))
       (Cxx11.log (Cxx11.exit s'))) /\
  (exists s' pB,
     Legacy.instance ctor_dep 2 0 Legacy.init = Some (Ret 0, s') /\
     Legacy.object_ s' !! 1 = Some pB /\
     precedes (Constructed 1 pB) (Constructed 0 0) (Legacy.log s')).
Proof.
  destruct (destruction_order ctor_dep 0 1) as [HC HL].
  split.
  - eexists. split; [vm_compute; reflexivity|].
    match goal with
    | |- precedes _ _ (Cxx11.log ?s') /\ _ =>
        destruct (HC 2 Cxx11.init (Cxx11.object 0) s' cxx11_init_running
                    ltac:(vm_compute; reflexivity) ltac:(vm_compute; reflexivity)
                    ltac:(by left) ltac:(vm_compute; reflexivity)) as [Hc Hd]
    end.
    split; [exact Hc|]. exact (Hd 0 [] _ eq_refl).
  - eexists.
    match goal with
    | |- exists pB, Legacy.instance _ _ _ _ = Some (_, ?s') /\ _ =>
        assert (Hi : Legacy.instance ctor_dep 2 0 Legacy.init = Some (Ret 0, s'))
          by (vm_compute; reflexivity);
        destruct (HL 2 Legacy.init 0 s' legacy_init_running legacy_init_wf
                    ltac:(vm_compute; reflexivity) ltac:(vm_compute; reflexivity)
                    ltac:(by left) Hi) as (pB & Ho & _ & _ & Hp)
    end.
    exists pB. split; [exact Hi|]. split; [exact Ho|exact Hp].
Defined.

Lemma visible_instance_takes_no_lock_witness :
  Ordering.at_ (Ordering.threads
     (Ordering.exec_again Ordering.source (take 8 second_call) Ordering.init) 0)
    = Ordering.Done 1 /\
  Ordering.at_ (Ordering.threads
     (Ordering.exec_again Ordering.source second_call Ordering.init) 0) = Ordering.Check1 /\
  Ordering.at_ (Ordering.threads
     (Ordering.exec_again Ordering.source [(0, 1); (0, 1); (0, 1)]
        (Ordering.exec_again Ordering.source second_call Ordering.init)) 0)
    = Ordering.Done 1 /\
  Ordering.locks_of 0
    (Ordering.mem
       (Ordering.exec_again Ordering.source [(0, 1); (0, 1); (0, 1)]
          (Ordering.exec_again Ordering.source second_call Ordering.init))
       Ordering.LMutex)
  = Ordering.locks_of 0
      (Ordering.mem (Ordering.exec_again Ordering.source second_call Ordering.init)
         Ordering.LMutex) /\
  exists s1 s2,
    Ordering.step_again Ordering.source 0 1
      (Ordering.exec_again Ordering.source second_call Ordering.init) = Some s1 /\
    Ordering.step_again Ordering.source 0 1 s1 = Some s2 /\
    Ordering.at_ (Ordering.threads s2 0) = Ordering.Use.
Proof.
  destruct (visible_instance_takes_no_lock Ordering.source (take 8 second_call) 0)
    as (Hdone & _ & _).
  pose proof (Hdone 1 ltac:(vm_compute; reflexivity)) as Hsee8.
  destruct (visible_instance_takes_no_lock Ordering.source second_call 0)
    as (_ & Hfree & Hcall).
  assert (Hat : Ordering.at_ (Ordering.threads
            (Ordering.exec_again Ordering.source second_call Ordering.init) 0)
          = Ordering.Check1) by (vm_compute; reflexivity).
  assert (Hsee : 1 <= Ordering.cur (Ordering.threads
            (Ordering.exec_again Ordering.source second_call Ordering.init) 0)
            Ordering.LObject) by exact Hsee8.
  split; [vm_compute; reflexivity|]. split; [exact Hat|].
  split; [vm_compute; reflexivity|].
  destruct (Hfree ltac:(vm_compute; reflexivity) Hsee [(0, 1); (0, 1); (0, 1)])
    as (_ & _ & Hlocks).
  split; [exact Hlocks|].
  destruct (Hcall Hat Hsee) as (_ & s1 & s2 & H1 & _ & H2 & H3 & _).
  exists s1, s2. split; [exact H1|]. split; [exact H2|exact H3].
Defined.

(** * Further properties of the code *)

(** ** The properties *)

Section LegacyProperties.
Variable ctor : tyid -> nat -> list cmd.

(** X1. The legacy [instance()] leaves every mutex as it found it, whether
    it returns the reference or is left by an exception of T's constructor
    (or of a constructor that ran inside it): the [scoped_lock] of line 73 is
    released on every path out of the function. *)
Theorem lock_is_released_on_every_path (fuel : nat) (T : tyid)
    (s : Legacy.state) (r : outcome addr) (s' : Legacy.state) :
  Legacy.instance ctor fuel T s = Some (r, s') ->
  (forall f, r <> Undef f) ->
  Legacy.mutex_ s' = Legacy.mutex_ s.
Proof. apply legacy_instance_unlocks. Qed.



(** X3. When the constructors' dependencies are acyclic (a constructor
    accesses types of smaller rank only), a call of the legacy [instance()]
    made while no construction is running always comes back: it returns the
    reference or propagates an exception, it never re-locks a mutex it
    owns, and it leaves no mutex locked. *)
Theorem acyclic_legacy_call_completes (rank : tyid -> nat) (fuel : nat) (T : tyid)
    (s : Legacy.state) :
  (forall T n U, In (Access U) (ctor T n) -> rank U < rank T) ->
  rank T < fuel ->
  Legacy.mutex_ s = ∅ ->
  exists r s', Legacy.instance ctor fuel T s = Some (r, s') /\
               (forall f, r <> Undef f) /\ Legacy.mutex_ s' = ∅.
Proof.
  intros Hranked Hfuel Hm.
  destruct (legacy_instance_total ctor rank Hranked fuel T s Hfuel) as (r & s' & Hi & Hr & Hm').
  { intros V. rewrite Hm. set_solver. }
  exists r, s'. split_and!; try done. by rewrite Hm'.
Qed.

(** X4. Once [object_] of T is set, no call of [instance()], for any type
    and with whatever its constructors do, changes it: [object_] keeps
    pointing to the same constructed object, T's constructor is not entered
    again, and a call for T returns that object. *)
Theorem instance_is_never_replaced (fuel : nat) (U T : tyid) (p : addr)
    (s : Legacy.state) (r : outcome addr) (s' : Legacy.state) :
  Legacy.wf s ->
  Legacy.object_ s !! T = Some p ->
  Legacy.instance ctor fuel U s = Some (r, s') ->
  Legacy.object_ s' !! T = Some p /\
  Legacy.heap s' !! p = Some (Legacy.Obj T) /\
  Legacy.entries s' !! T = Legacy.entries s !! T /\
  (U = T -> r = Ret p).
Proof.
  intros Hwf Ho Hi.
  pose proof (legacy_instance_steps _ _ _ _ _ _ Hi) as Hsteps.
  destruct (legacy_steps_stable _ _ _ _ Hsteps Ho) as [Ho' He'].
  split_and!; try done.
  - by apply (legacy_steps_wf _ _ Hsteps Hwf).
  - intros ->. destruct fuel as [|fuel]; [discriminate|]. simpl in Hi.
    rewrite Ho in Hi. unfold Legacy.deref in Hi. simpl in Hi. rewrite Ho in Hi. congruence.
Qed.

(** X5. In a run of a main program under the legacy definition, every
    reference [instance()] has returned for T, also to a constructor, is the
    object [object_] of T points to; it is the only object of T whose
    construction ever completed, and that construction completed once. *)
Theorem one_instance_per_type (fuel : nat) (main : list tyid) (s : Legacy.state)
    (T : tyid) (p : addr) :
  Legacy.run_main ctor fuel main Legacy.init = Some s ->
  In (Returned T p) (Legacy.log s) ->
  Legacy.object_ s !! T = Some p /\
  count_occ event_eq_dec (Legacy.log s) (Constructed T p) = 1 /\
  (forall q, In (Returned T q) (Legacy.log s) \/ In (Constructed T q) (Legacy.log s) ->
             q = p).
Proof.
  intros Hrun Hin.
  pose proof (legacy_run_main_steps _ _ _ _ _ Hrun) as Hsteps.
  pose proof (legacy_steps_running _ _ Hsteps legacy_init_running) as [Hnd Hco].
  destruct (legacy_steps_once _ _ Hsteps legacy_init_running) as [HR HC].
  { split; [intros ? ? []|]. intros; simpl; lia. }
  pose proof (HR _ _ Hin) as Ho. split; [done|]. split.
  - pose proof (HC T p) as Hle.
    assert (Hpos : count_occ event_eq_dec (Legacy.log s) (Constructed T p) > 0)
      by (apply count_occ_In; by apply Hco).
    lia.
  - intros q [Hq|Hq]; [apply HR in Hq|apply Hco in Hq]; congruence.
Qed.

(** X6. In the legacy definition, if the constructor of A accesses B and
    the call of [instance()] that constructs A returns, then by that return
    B's instance exists, fully constructed, and its construction completed
    before A's: a dependency is never used before it is initialised. *)
Theorem dependency_is_constructed_first (fuel : nat) (A B : tyid)
    (s : Legacy.state) (pA : addr) (s' : Legacy.state) :
  Legacy.running s -> Legacy.wf s ->
  Legacy.object_ s !! A = None ->
  In (Access B) (ctor A (Legacy.entered A s)) ->
  Legacy.instance ctor fuel A s = Some (Ret pA, s') ->
  exists pB, Legacy.object_ s' !! B = Some pB /\
             Legacy.heap s' !! pB = Some (Legacy.Obj B) /\
             precedes (Constructed B pB) (Constructed A pA) (Legacy.log s').
Proof. apply legacy_dependency_first. Qed.

(** X7. The legacy definition leaks no storage.  After a main program,
    also one in which constructors threw, the heap holds exactly the
    constructed instances the slots point to: no raw storage of a failed or
    unfinished construction and no object without a slot.  When the guard of
    every type with an instance runs at exit, the heap ends empty. *)
Theorem storage_is_owned_and_released (fuel : nat) (main : list tyid)
    (s : Legacy.state) :
  Legacy.run_main ctor fuel main Legacy.init = Some s ->
  (forall p c, Legacy.heap s !! p = Some c <->
     exists T, c = Legacy.Obj T /\ Legacy.object_ s !! T = Some p) /\
  (forall order,
     (forall T, is_Some (Legacy.object_ s !! T) -> In T order) ->
     Legacy.heap (Legacy.exit order s) = ∅).
Proof.
  intros Hrun.
  pose proof (legacy_run_main_steps _ _ _ _ _ Hrun) as Hsteps.
  pose proof (legacy_steps_wf _ _ Hsteps legacy_init_wf) as Hwf.
  pose proof (legacy_steps_tight _ _ Hsteps legacy_init_tight) as Ht.
  pose proof (legacy_run_main_unlocks _ _ _ _ _ Hrun) as Hm. simpl in Hm.
  split.
  - intros p c. split.
    + destruct Ht as (HO & HR & _). destruct c as [T|T]; intros Hp.
      * apply HR in Hp as [Hin _]. rewrite Hm in Hin. set_solver.
      * exists T. split; [done|]. by apply HO.
    + intros (T & -> & Ho). by apply Hwf.
  - intros order Hcover.
    destruct (legacy_exit_tight order s Hwf Ht) as [_ (HO & HR & _)].
    apply map_empty. intros p.
    destruct (Legacy.heap (Legacy.exit order s) !! p) as [[T|T]|] eqn:Hp; [..|done].
    + apply HR in Hp as [Hin _]. rewrite legacy_exit_mutex, Hm in Hin. set_solver.
    + apply HO in Hp. rewrite legacy_exit_object in Hp; [done|].
      destruct (Legacy.object_ s !! T) as [q|] eqn:Hq; [left; apply Hcover; eauto|by right].
Qed.

(** X8. The legacy definition destroys only what it constructed: whatever
    guards run at exit and in whatever order, every destruction in the log
    of a process is that of an instance whose construction completed earlier
    in the log. *)
Theorem legacy_destroyed_after_constructed (fuel : nat) (main order : list tyid)
    (s : Legacy.state) (T : tyid) (p : addr) :
  Legacy.run_main ctor fuel main Legacy.init = Some s ->
  In (Destroyed T p) (Legacy.log (Legacy.exit order s)) ->
  precedes (Constructed T p) (Destroyed T p) (Legacy.log (Legacy.exit order s)).
Proof.
  intros Hrun Hin.
  pose proof (legacy_run_main_steps _ _ _ _ _ Hrun) as Hsteps.
  pose proof (legacy_steps_running _ _ Hsteps legacy_init_running) as [Hnd Hco].
  assert (Hno : ~ In (Destroyed T p) (Legacy.log s)).
  { intros Habs. rewrite Forall_forall in Hnd. rewrite <- list_elem_of_In in Habs.
    apply Hnd in Habs. apply Habs. exact I. }
  destruct (legacy_exit_destroys order s) as (td & Hlog & Htd).
  rewrite Hlog in *. apply in_app_iff in Hin as [Hin|Hin]; [|done].
  apply precedes_old_new; [|done|done].
  destruct (Htd _ Hin) as (T' & p' & [= <- <-] & Ho). by apply Hco.
Qed.

End LegacyProperties.

Section Cxx11Properties.
Variable ctor : tyid -> nat -> list cmd.



(** X10. When the constructors' dependencies are acyclic, a call of the
    C++11 [instance()] made while no initialisation is running always comes
    back: it returns the reference or propagates an exception, it never
    re-enters an initialisation, and it leaves no initialisation running. *)
Theorem acyclic_cxx11_call_completes (rank : tyid -> nat) (fuel : nat) (T : tyid)
    (s : Cxx11.state) :
  (forall T n U, In (Access U) (ctor T n) -> rank U < rank T) ->
  rank T < fuel ->
  (forall V, ~ Cxx11.busy s V) ->
  exists r s', Cxx11.instance ctor fuel T s = Some (r, s') /\
               (forall f, r <> Undef f) /\ (forall V, ~ Cxx11.busy s' V).
Proof.
  intros Hranked Hfuel Hb.
  destruct (cxx11_instance_total ctor rank Hranked fuel T s Hfuel) as (r & s' & Hi & Hr & Hb').
  { intros V HV. by destruct (Hb V). }
  exists r, s'. split_and!; try done. intros V HV. apply Hb' in HV. by destruct (Hb V).
Qed.

(** X11. Once the static of T is initialised, no call of [instance()],
    for any type and with whatever its constructors do, initialises it
    again: the slot stays initialised, T's constructor is not entered again,
    and a call for T returns the static. *)
Theorem static_is_initialised_once (fuel : nat) (U T : tyid)
    (s : Cxx11.state) (r : outcome addr) (s' : Cxx11.state) :
  Cxx11.slot s !! T = Some Cxx11.Live ->
  Cxx11.instance ctor fuel U s = Some (r, s') ->
  Cxx11.slot s' !! T = Some Cxx11.Live /\
  Cxx11.entries s' !! T = Cxx11.entries s !! T /\
  (U = T -> r = Ret (Cxx11.object T)).
Proof.
  intros Ho Hi.
  pose proof (cxx11_instance_steps _ _ _ _ _ _ Hi) as Hsteps.
  destruct (cxx11_steps_stable _ _ _ Hsteps Ho) as [Ho' He'].
  split_and!; try done.
  intros ->. destruct fuel as [|fuel]; [discriminate|]. simpl in Hi.
  rewrite Ho in Hi. congruence.
Qed.

(** X12. In a run of a main program under the C++11 definition, every
    reference [instance()] has returned for T, also to a constructor, is the
    static of T, whose initialisation had completed, and completed once. *)
Theorem cxx11_one_instance_per_type (fuel : nat) (main : list tyid) (s : Cxx11.state)
    (T : tyid) (p : addr) :
  Cxx11.run_main ctor fuel main Cxx11.init = Some s ->
  In (Returned T p) (Cxx11.log s) ->
  p = Cxx11.object T /\
  Cxx11.slot s !! T = Some Cxx11.Live /\
  count_occ event_eq_dec (Cxx11.log s) (Constructed T p) = 1.
Proof.
  intros Hrun Hin.
  pose proof (cxx11_run_main_steps _ _ _ _ _ Hrun) as Hsteps.
  pose proof (cxx11_steps_running _ _ Hsteps cxx11_init_running) as (_ & Hco & _).
  destruct (cxx11_steps_once _ _ Hsteps cxx11_init_running cxx11_init_once)
    as (_ & HR & HC).
  destruct (HR _ _ Hin) as [Hl ->]. split_and!; try done.
  pose proof (HC T (Cxx11.object T)) as Hle.
  assert (Hpos : count_occ event_eq_dec (Cxx11.log s) (Constructed T (Cxx11.object T)) > 0)
    by (apply count_occ_In; by apply Hco).
  lia.
Qed.

(** X13. At exit the C++11 definition runs the destructors in exactly the
    reverse of the order in which the constructions completed: the
    destructions of a process, oldest first, are its completed constructions,
    newest first. *)
Theorem destruction_reverses_construction (fuel : nat) (main : list tyid)
    (s : Cxx11.state) :
  Cxx11.run_main ctor fuel main Cxx11.init = Some s ->
  rev (omap destroyed_type (Cxx11.log (Cxx11.exit s)))
    = omap constructed_type (Cxx11.log s).
Proof.
  intros Hrun.
  pose proof (cxx11_run_main_steps _ _ _ _ _ Hrun) as Hsteps.
  pose proof (cxx11_steps_running _ _ Hsteps cxx11_init_running) as (Hnd & _).
  destruct (cxx11_steps_once _ _ Hsteps cxx11_init_running cxx11_init_once) as (HA & _).
  rewrite cxx11_exit_log, omap_app, omap_rev, omap_destroyed_map.
  rewrite (omap_destroyed_none _ Hnd), app_nil_r, rev_involutive. done.
Qed.

(** X14. The C++11 definition destroys only what it constructed: every
    destruction in the log of a process is that of a static whose
    construction completed earlier in the log. *)
Theorem cxx11_destroyed_after_constructed (fuel : nat) (main : list tyid)
    (s : Cxx11.state) (T : tyid) (p : addr) :
  Cxx11.run_main ctor fuel main Cxx11.init = Some s ->
  In (Destroyed T p) (Cxx11.log (Cxx11.exit s)) ->
  precedes (Constructed T p) (Destroyed T p) (Cxx11.log (Cxx11.exit s)).
Proof.
  intros Hrun Hin.
  pose proof (cxx11_run_main_steps _ _ _ _ _ Hrun) as Hsteps.
  pose proof (cxx11_steps_running _ _ Hsteps cxx11_init_running) as (Hnd & Hco & Hat & _).
  assert (Hno : ~ In (Destroyed T p) (Cxx11.log s)).
  { intros Habs. rewrite Forall_forall in Hnd. rewrite <- list_elem_of_In in Habs.
    apply Hnd in Habs. apply Habs. exact I. }
  rewrite cxx11_exit_log in *. apply in_app_iff in Hin as [Hin|Hin]; [|done].
  apply precedes_old_new; [|done|done].
  apply in_rev, in_map_iff in Hin as (U & [= -> <-] & HU).
  apply Hco. split; [|done]. by apply Hat.
Qed.

End Cxx11Properties.

Section ThreadProperties.
Variable ctor_throws : nat -> option exn.

(** X15. Under every interleaving of the legacy [instance()], at most one
    thread is between the lock of line 73 and its unlock, and it is the
    owner of [mutex_]: the second check, [new T], T's constructor and the
    assignment to [object_] never run in two threads at once. *)
Theorem one_thread_in_locked_region (sched : list nat) (t1 t2 : nat) :
  let s := LegacyThreads.exec ctor_throws sched LegacyThreads.init in
  LegacyThreads.holds (LegacyThreads.at_ (LegacyThreads.threads s t1)) = true ->
  LegacyThreads.holds (LegacyThreads.at_ (LegacyThreads.threads s t2)) = true ->
  t1 = t2 /\ LegacyThreads.mutex_ s = Some t1.
Proof.
  intros s H1 H2.
  destruct (lt_exec_inv ctor_throws sched _ lt_init_inv) as (HA & _). fold s in HA.
  apply HA in H1, H2. split; [congruence|done].
Qed.

(** X16. Under every interleaving of the legacy [instance()], a thread can
    be blocked at one place only, the lock of line 73, and then the mutex is
    owned by another thread, which is inside the locked region and is not
    blocked: the threads never deadlock on [mutex_]. *)
Theorem only_the_lock_blocks (sched : list nat) (t : nat) :
  let s := LegacyThreads.exec ctor_throws sched LegacyThreads.init in
  LegacyThreads.step ctor_throws t s = None ->
  LegacyThreads.at_ (LegacyThreads.threads s t) = LegacyThreads.Acquire /\
  exists t0, LegacyThreads.mutex_ s = Some t0 /\ t0 <> t /\
    LegacyThreads.holds (LegacyThreads.at_ (LegacyThreads.threads s t0)) = true /\
    is_Some (LegacyThreads.step ctor_throws t0 s).
Proof.
  intros s Hstep.
  pose proof (lt_exec_inv ctor_throws sched _ lt_init_inv) as Hinv. fold s in Hinv.
  destruct (lt_no_deadlock ctor_throws t s Hinv Hstep) as (t0 & Hm & Hne & Hcan).
  split.
  - unfold LegacyThreads.step in Hstep.
    destruct (LegacyThreads.at_ (LegacyThreads.threads s t)); try done.
    by destruct (ctor_throws n).
  - exists t0. split_and!; try done. destruct Hinv as (HA & _). by apply HA.
Qed.

(** X17. Under every interleaving of the legacy [instance()], a call that
    has ended has returned the constructed object [object_] points to, or
    has been left by an exception that one of the entries of T's constructor
    threw; it has never dereferenced a null [object_]. *)
Theorem call_ends_with_instance_or_constructor_exception
    (sched : list nat) (t : nat) (r : outcome addr) :
  let s := LegacyThreads.exec ctor_throws sched LegacyThreads.init in
  LegacyThreads.result (LegacyThreads.threads s t) = Some r ->
  match r with
  | Ret p => LegacyThreads.object_ s = Some p /\
             LegacyThreads.heap s !! p = Some LegacyThreads.Built
  | Exn e => exists n, n < LegacyThreads.begun s /\ ctor_throws n = Some e
  | Undef _ => False
  end.
Proof.
  intros s Hr.
  pose proof (lt_exec_inv ctor_throws sched _ lt_init_inv) as Hinv.
  pose proof (lt_exec_tidy ctor_throws sched LegacyThreads.init (fun _ _ => eq_refl)) as Htidy.
  pose proof (lt_exec_caused ctor_throws sched _ lt_init_inv (lt_init_caused ctor_throws))
    as Hc.
  fold s in Hinv, Htidy, Hc.
  destruct Hinv as (_ & HB & _ & HE & _). destruct (HB t) as [Hl _].
  specialize (Htidy t).
  destruct (LegacyThreads.at_ (LegacyThreads.threads s t));
    [|rewrite Htidy in Hr; done..].
  rewrite Hr in Hl. destruct r as [p|e|f]; [|by apply (Hc t e)|done].
  split; [done|]. by apply HE.
Qed.

(** X18. Under every interleaving of the legacy [instance()], also when
    constructors throw, every piece of storage obtained from [new] is
    accounted for: it is the constructed instance [object_] points to, or it
    belongs to the owner of the mutex, who is running the constructor in it
    or is about to assign it to [object_].  When the mutex is free, the heap
    holds the instance and nothing else. *)
Theorem threads_leak_no_storage (sched : list nat) (p : addr)
    (c : LegacyThreads.storage) :
  let s := LegacyThreads.exec ctor_throws sched LegacyThreads.init in
  LegacyThreads.heap s !! p = Some c ->
  (c = LegacyThreads.Built /\ LegacyThreads.object_ s = Some p) \/
  exists t, LegacyThreads.mutex_ s = Some t /\
    ((c = LegacyThreads.Built /\
      LegacyThreads.at_ (LegacyThreads.threads s t) = LegacyThreads.Publish p) \/
     (c = LegacyThreads.Raw /\
      exists n, LegacyThreads.at_ (LegacyThreads.threads s t) = LegacyThreads.Construct p n)).
Proof.
  intros s Hp.
  pose proof (lt_exec_inv ctor_throws sched _ lt_init_inv) as Hinv.
  pose proof (lt_exec_accounted ctor_throws sched _ lt_init_inv lt_init_accounted) as Ha.
  fold s in Hinv, Ha. destruct Hinv as (HA & _).
  specialize (Ha p c Hp). destruct c.
  - right. destruct Ha as (t & n & Ht). exists t. split.
    + apply HA. by rewrite Ht.
    + right. eauto.
  - destruct Ha as [Ho|(t & Ht)]; [by left|right]. exists t. split.
    + apply HA. by rewrite Ht.
    + by left.
Qed.

(** X19. Under every interleaving of the C++11 [instance()], at most one
    thread runs the initialisation of the static, and it is the thread the
    guard names. *)
Theorem one_thread_initialises (sched : list nat) (t1 t2 n1 n2 : nat) :
  let s := Cxx11Threads.exec ctor_throws sched Cxx11Threads.init in
  Cxx11Threads.at_ (Cxx11Threads.threads s t1) = Cxx11Threads.Construct n1 ->
  Cxx11Threads.at_ (Cxx11Threads.threads s t2) = Cxx11Threads.Construct n2 ->
  t1 = t2 /\ Cxx11Threads.guard_ s = Cxx11Threads.Busy t1.
Proof.
  intros s H1 H2.
  destruct (ct_exec_inv ctor_throws sched _ ct_init_inv) as (HA & _). fold s in HA.
  assert (G1 : Cxx11Threads.guard_ s = Cxx11Threads.Busy t1) by (apply HA; eauto).
  assert (G2 : Cxx11Threads.guard_ s = Cxx11Threads.Busy t2) by (apply HA; eauto).
  split; [congruence|done].
Qed.

(** X20. Under every interleaving of the C++11 [instance()], a thread can
    be blocked at one place only, the declaration of line 171 while another
    thread is initialising the static, and that thread is not blocked. *)
Theorem only_the_initialisation_blocks (sched : list nat) (t : nat) :
  let s := Cxx11Threads.exec ctor_throws sched Cxx11Threads.init in
  Cxx11Threads.step ctor_throws t s = None ->
  Cxx11Threads.at_ (Cxx11Threads.threads s t) = Cxx11Threads.Enter /\
  exists t0 n, Cxx11Threads.guard_ s = Cxx11Threads.Busy t0 /\ t0 <> t /\
    Cxx11Threads.at_ (Cxx11Threads.threads s t0) = Cxx11Threads.Construct n /\
    is_Some (Cxx11Threads.step ctor_throws t0 s).
Proof.
  intros s Hstep.
  destruct (ct_exec_inv ctor_throws sched _ ct_init_inv) as (HA & _). fold s in HA.
  unfold Cxx11Threads.step in Hstep.
  destruct (Cxx11Threads.at_ (Cxx11Threads.threads s t)) eqn:Hpc; try done.
  - destruct (Cxx11Threads.guard_ s) as [|t0|] eqn:Hg; try done.
    split; [done|]. destruct (proj2 (HA t0) eq_refl) as [n Hn].
    exists t0, n. split_and!; try done.
    + intros ->. congruence.
    + unfold Cxx11Threads.step. rewrite Hn. by destruct (ctor_throws n).
  - by destruct (ctor_throws n).
Qed.
End ThreadProperties.

(** X21. Whatever the order of the accesses of lines 71 and 76, plain as
    in the source included, the mutex serialises construction: at most one
    thread is between the lock of line 73 and its unlock, the constructor
    stores to the member at most once and [object_] is assigned at most once
    (each history holds its initial value and at most one store). *)
Theorem mutex_serialises_construction (os : Ordering.orders) (sched : list (nat * nat)) :
  let s := Ordering.exec os sched Ordering.init in
  (forall t1 t2,
     Ordering.holding (Ordering.at_ (Ordering.threads s t1)) = true ->
     Ordering.holding (Ordering.at_ (Ordering.threads s t2)) = true -> t1 = t2) /\
  length (Ordering.mem s Ordering.LField) <= 2 /\
  length (Ordering.mem s Ordering.LObject) <= 2.
Proof.
  intros s. split; [|apply og_single_construction].
  destruct (og_exec_counted os sched Ordering.init og_init_counted)
    as (_ & _ & _ & _ & HM & _). fold s in HM.
  intros t1 t2 H1 H2. destruct (og_owner s t1 HM H1) as [_ Honly]. symmetry. by apply Honly.
Qed.

(** X22. Whatever the order of the accesses of lines 71 and 76, plain as
    in the source included, a caller whose view has a lock or an unlock of
    [mutex_] in it reads the member as the constructor set it; and every
    thread between the lock of line 73 and its unlock has such a view.  The
    callers that came through the locked region are synchronised by the mutex;
    only a caller that returned from the first check alone can see the
    object unconstructed. *)
Theorem locked_path_sees_constructed_member (os : Ordering.orders)
    (sched : list (nat * nat)) (t : nat) :
  let th := Ordering.threads (Ordering.exec os sched Ordering.init) t in
  (Ordering.holding (Ordering.at_ th) = true -> 1 <= Ordering.cur th Ordering.LMutex) /\
  (forall a, Ordering.at_ th = Ordering.Done a ->
             1 <= Ordering.cur th Ordering.LMutex -> a = 1).
Proof.
  intros th.
  destruct (og_exec_informed os sched Ordering.init og_init_counted og_init_informed)
    as (_ & _ & _ & HI).
  destruct (HI t) as [Hh Hpc]. fold th in Hh, Hpc. split; [done|].
  intros a Ha. by rewrite Ha in Hpc.
Qed.

Section Laziness.
Variable ctor : tyid -> nat -> list cmd.

Lemma legacy_run_main_frame fuel main :
  forall s s', Legacy.run_main ctor fuel main s = Some s' -> Legacy.frame s s'.
Proof.
  induction main as [|T main IH]; intros s s' H; simpl in H.
  - inversion H; subst. apply legacy_frame_refl.
  - destruct (Legacy.instance ctor fuel T s) as [[[p|e|f] s1]|] eqn:Hi; try discriminate.
    all: eapply legacy_frame_trans; [eapply legacy_instance_frame; eassumption | by apply IH].
Qed.

Lemma cxx11_run_main_frame fuel main :
  forall s s', Cxx11.run_main ctor fuel main s = Some s' -> Cxx11.frame s s'.
Proof.
  induction main as [|T main IH]; intros s s' H; simpl in H.
  - inversion H; subst. apply cxx11_frame_refl.
  - destruct (Cxx11.instance ctor fuel T s) as [[[p|e|f] s1]|] eqn:Hi; try discriminate.
    all: eapply cxx11_frame_trans; [eapply cxx11_instance_frame; eassumption | by apply IH].
Qed.

(** X23. The legacy definition constructs lazily: in a run of a main
    program, a type whose [instance()] was never called, by the program or by
    a constructor, has [object_] still NULL, its constructor was never
    entered and no construction of it is in the log. *)
Theorem legacy_construction_is_lazy (fuel : nat) (main : list tyid)
    (s : Legacy.state) (T : tyid) :
  Legacy.run_main ctor fuel main Legacy.init = Some s ->
  ~ In (Entered T) (Legacy.log s) ->
  Legacy.object_ s !! T = None /\
  Legacy.entries s !! T = None /\
  forall p, ~ In (Constructed T p) (Legacy.log s).
Proof.
  intros Hrun Hnot.
  destruct (legacy_run_main_frame _ _ _ _ Hrun) as (_ & _ & new & Hlog & Hf).
  simpl in Hlog. rewrite app_nil_r in Hlog. subst new.
  destruct (Hf T Hnot) as (Ho & _ & He). simpl in Ho, He.
  rewrite lookup_empty in Ho, He. split_and!; try done.
  intros p Hin.
  pose proof (legacy_run_main_steps _ _ _ _ _ Hrun) as Hsteps.
  pose proof (legacy_steps_running _ _ Hsteps legacy_init_running) as [_ Hco].
  apply Hco in Hin. congruence.
Qed.

(** X24. The C++11 definition constructs lazily: in a run of a main
    program, a type whose [instance()] was never called, by the program or by
    a constructor, has its static uninitialised, its constructor was never
    entered and no destructor is registered for it. *)
Theorem cxx11_construction_is_lazy (fuel : nat) (main : list tyid)
    (s : Cxx11.state) (T : tyid) :
  Cxx11.run_main ctor fuel main Cxx11.init = Some s ->
  ~ In (Entered T) (Cxx11.log s) ->
  Cxx11.slot s !! T = None /\
  Cxx11.entries s !! T = None /\
  ~ In T (Cxx11.atexit s).
Proof.
  intros Hrun Hnot.
  destruct (cxx11_run_main_frame _ _ _ _ Hrun) as (new & Hlog & Hf).
  simpl in Hlog. rewrite app_nil_r in Hlog. subst new.
  destruct (Hf T Hnot) as (Ho & He). simpl in Ho, He.
  rewrite ?lookup_empty in Ho. rewrite ?lookup_empty in He. split_and!; try done.
  pose proof (cxx11_run_main_steps _ _ _ _ _ Hrun) as Hsteps.
  pose proof (cxx11_steps_running _ _ Hsteps cxx11_init_running) as (_ & _ & Hat & _).
  rewrite Hat. congruence.
Qed.
End Laziness.

(** ** Witnesses *)

Lemma lock_is_released_on_every_path_witness :
  exists s', Legacy.instance ctor_flaky 1 0 Legacy.init = Some (Exn 7, s') /\
             Legacy.mutex_ s' = Legacy.mutex_ Legacy.init.
Proof.
  eexists. split; [vm_compute; reflexivity|].
  match goal with
  | |- Legacy.mutex_ ?s' = _ =>
      apply (lock_is_released_on_every_path ctor_flaky 1 0 Legacy.init (Exn 7) s'
               ltac:(vm_compute; reflexivity) ltac:(discriminate))
  end.
Defined.


Lemma ctor_dep_ranked T n U : In (Access U) (ctor_dep T n) -> rank_dep U < rank_dep T.
Proof.
  destruct T as [|T]; simpl; [|done]. intros [[= <-]|[]]. simpl. lia.
Qed.

Lemma acyclic_legacy_call_completes_witness :
  exists r s', Legacy.instance ctor_dep 2 0 Legacy.init = Some (r, s') /\
               (forall f, r <> Undef f) /\ Legacy.mutex_ s' = ∅.
Proof.
  apply (acyclic_legacy_call_completes ctor_dep rank_dep 2 0 Legacy.init ctor_dep_ranked).
  - simpl. lia.
  - reflexivity.
Defined.

Lemma acyclic_cxx11_call_completes_witness :
  exists r s', Cxx11.instance ctor_dep 2 0 Cxx11.init = Some (r, s') /\
               (forall f, r <> Undef f) /\ (forall V, ~ Cxx11.busy s' V).
Proof.
  apply (acyclic_cxx11_call_completes ctor_dep rank_dep 2 0 Cxx11.init ctor_dep_ranked).
  - simpl. lia.
  - intros V. unfold Cxx11.busy. simpl. by rewrite lookup_empty.
Defined.

Lemma legacy_dep_live_run :
  Legacy.run_main ctor_dep 2 [0] Legacy.init = Some legacy_dep_live.
Proof. vm_compute; reflexivity. Qed.

Lemma instance_is_never_replaced_witness :
  exists s', Legacy.instance ctor_dep 1 0 legacy_dep_live = Some (Ret 0, s') /\
             Legacy.object_ s' !! 1 = Some 1 /\
             Legacy.heap s' !! 1 = Some (Legacy.Obj 1).
Proof.
  eexists. split; [vm_compute; reflexivity|].
  match goal with
  | |- Legacy.object_ ?s' !! 1 = _ /\ _ =>
      destruct (instance_is_never_replaced ctor_dep 1 0 1 1 legacy_dep_live (Ret 0) s')
        as (Ho & Hh & _)
  end.
  - eapply legacy_steps_wf; [|apply legacy_init_wf].
    eapply legacy_run_main_steps. apply legacy_dep_live_run.
  - vm_compute; reflexivity.
  - vm_compute; reflexivity.
  - split; [exact Ho|exact Hh].
Defined.

Lemma one_instance_per_type_witness :
  exists s, Legacy.run_main ctor_dep 2 [0; 0] Legacy.init = Some s /\
            Legacy.object_ s !! 0 = Some 0 /\
            count_occ event_eq_dec (Legacy.log s) (Constructed 0 0) = 1.
Proof.
  eexists. split; [vm_compute; reflexivity|].
  match goal with
  | |- Legacy.object_ ?s !! 0 = _ /\ _ =>
      destruct (one_instance_per_type ctor_dep 2 [0; 0] s 0 0
                  ltac:(vm_compute; reflexivity) ltac:(vm_compute; tauto))
        as (Ho & Hc & _)
  end.
  split; [exact Ho|exact Hc].
Defined.

Lemma dependency_is_constructed_first_witness :
  exists s' pB,
    Legacy.instance ctor_dep 2 0 Legacy.init = Some (Ret 0, s') /\
    Legacy.object_ s' !! 1 = Some pB /\
    precedes (Constructed 1 pB) (Constructed 0 0) (Legacy.log s').
Proof.
  assert (Hi : exists s', Legacy.instance ctor_dep 2 0 Legacy.init = Some (Ret 0, s'))
    by (eexists; vm_compute; reflexivity).
  destruct Hi as [s' Hi].
  destruct (dependency_is_constructed_first ctor_dep 2 0 1 Legacy.init 0 s'
              legacy_init_running legacy_init_wf
              ltac:(vm_compute; reflexivity) ltac:(vm_compute; tauto) Hi)
    as (pB & Ho & _ & Hp).
  exists s', pB. split; [exact Hi|]. split; [exact Ho|exact Hp].
Defined.

Lemma storage_is_owned_and_released_witness :
  exists s, Legacy.run_main ctor_flaky 1 [0; 0] Legacy.init = Some s /\
            Legacy.object_ s !! 0 = Some 1 /\
            Legacy.heap s !! 0 = None /\
            Legacy.heap (Legacy.exit [0] s) = ∅.
Proof.
  eexists. split; [vm_compute; reflexivity|].
  split; [vm_compute; reflexivity|]. split; [vm_compute; reflexivity|].
  match goal with
  | |- Legacy.heap (Legacy.exit [0] ?s) = ∅ =>
      destruct (storage_is_owned_and_released ctor_flaky 1 [0; 0] s
                  ltac:(vm_compute; reflexivity)) as [_ Hexit];
      assert (Hobj : Legacy.object_ s = <[0:=1]> ∅) by (vm_compute; reflexivity)
  end.
  apply Hexit. intros T. rewrite Hobj. intros [p Hp].
  apply lookup_insert_Some in Hp as [[<- _]|[_ Hp]]; [by left|].
  by rewrite lookup_empty in Hp.
Defined.

Lemma legacy_destroyed_after_constructed_witness :
  exists s, Legacy.run_main ctor_dep 2 [0] Legacy.init = Some s /\
    precedes (Constructed 1 1) (Destroyed 1 1) (Legacy.log (Legacy.exit [1; 0] s)).
Proof.
  exists legacy_dep_live. split; [apply legacy_dep_live_run|].
  apply (legacy_destroyed_after_constructed ctor_dep 2 [0] [1; 0] legacy_dep_live 1 1
           legacy_dep_live_run).
  vm_compute. tauto.
Defined.


Lemma static_is_initialised_once_witness :
  exists s', Cxx11.instance ctor_dep 1 0 cxx11_dep_live = Some (Ret (Cxx11.object 0), s') /\
             Cxx11.slot s' !! 1 = Some Cxx11.Live.
Proof.
  eexists. split; [vm_compute; reflexivity|].
  match goal with
  | |- Cxx11.slot ?s' !! 1 = _ =>
      apply (static_is_initialised_once ctor_dep 1 0 1 cxx11_dep_live
               (Ret (Cxx11.object 0)) s'
               ltac:(vm_compute; reflexivity) ltac:(vm_compute; reflexivity))
  end.
Defined.

Lemma cxx11_one_instance_per_type_witness :
  exists s, Cxx11.run_main ctor_dep 2 [0; 0] Cxx11.init = Some s /\
            count_occ event_eq_dec (Cxx11.log s) (Constructed 0 (Cxx11.object 0)) = 1.
Proof.
  eexists. split; [vm_compute; reflexivity|].
  match goal with
  | |- count_occ _ (Cxx11.log ?s) _ = 1 =>
      apply (cxx11_one_instance_per_type ctor_dep 2 [0; 0] s 0 (Cxx11.object 0)
               ltac:(vm_compute; reflexivity) ltac:(vm_compute; tauto))
  end.
Defined.

Lemma destruction_reverses_construction_witness :
  omap constructed_type (Cxx11.log cxx11_dep_live) = [0; 1] /\
  rev (omap destroyed_type (Cxx11.log (Cxx11.exit cxx11_dep_live))) = [0; 1].
Proof.
  assert (Hc : omap constructed_type (Cxx11.log cxx11_dep_live) = [0; 1])
    by (vm_compute; reflexivity).
  split; [exact Hc|].
  exact (eq_trans (destruction_reverses_construction ctor_dep 2 [0] cxx11_dep_live
                     ltac:(vm_compute; reflexivity)) Hc).
Defined.

Lemma cxx11_destroyed_after_constructed_witness :
  precedes (Constructed 1 (Cxx11.object 1)) (Destroyed 1 (Cxx11.object 1))
    (Cxx11.log (Cxx11.exit cxx11_dep_live)).
Proof.
  apply (cxx11_destroyed_after_constructed ctor_dep 2 [0] cxx11_dep_live 1 (Cxx11.object 1)
           ltac:(vm_compute; reflexivity)).
  vm_compute. tauto.
Defined.

Lemma one_thread_in_locked_region_witness :
  let s := LegacyThreads.exec never_throws [0; 0; 0; 0; 0] LegacyThreads.init in
  LegacyThreads.at_ (LegacyThreads.threads s 0) = LegacyThreads.Construct 0 0 /\
  LegacyThreads.mutex_ s = Some 0.
Proof.
  intros s. split; [vm_compute; reflexivity|].
  apply (one_thread_in_locked_region never_throws [0; 0; 0; 0; 0] 0 0);
    vm_compute; reflexivity.
Defined.

Lemma only_the_lock_blocks_witness :
  let s := LegacyThreads.exec never_throws [0; 1; 0; 0; 1] LegacyThreads.init in
  LegacyThreads.step never_throws 1 s = None /\
  LegacyThreads.at_ (LegacyThreads.threads s 1) = LegacyThreads.Acquire /\
  exists t0, LegacyThreads.mutex_ s = Some t0 /\ t0 <> 1 /\
             is_Some (LegacyThreads.step never_throws t0 s).
Proof.
  intros s.
  assert (Hb : LegacyThreads.step never_throws 1 s = None) by (vm_compute; reflexivity).
  destruct (only_the_lock_blocks never_throws [0; 1; 0; 0; 1] 1 Hb)
    as (Hat & t0 & Hm & Hne & _ & Hcan).
  split; [exact Hb|]. split; [exact Hat|]. exists t0. split; [exact Hm|]. split; [exact Hne|exact Hcan].
Defined.

Lemma call_ends_with_instance_or_constructor_exception_witness :
  let s := LegacyThreads.exec throws_once [0; 0; 0; 0; 0; 0; 0] LegacyThreads.init in
  LegacyThreads.result (LegacyThreads.threads s 0) = Some (Exn 7) /\
  exists n, n < LegacyThreads.begun s /\ throws_once n = Some 7.
Proof.
  intros s.
  assert (Hr : LegacyThreads.result (LegacyThreads.threads s 0) = Some (Exn 7))
    by (vm_compute; reflexivity).
  split; [exact Hr|].
  apply (call_ends_with_instance_or_constructor_exception throws_once
           [0; 0; 0; 0; 0; 0; 0] 0 (Exn 7) Hr).
Defined.

Lemma threads_leak_no_storage_witness :
  let s := LegacyThreads.exec never_throws [0; 0; 0; 0; 0] LegacyThreads.init in
  LegacyThreads.heap s !! 0 = Some LegacyThreads.Raw /\
  exists t, LegacyThreads.mutex_ s = Some t /\
    exists n, LegacyThreads.at_ (LegacyThreads.threads s t) = LegacyThreads.Construct 0 n.
Proof.
  intros s.
  assert (Hp : LegacyThreads.heap s !! 0 = Some LegacyThreads.Raw) by (vm_compute; reflexivity).
  split; [exact Hp|].
  destruct (threads_leak_no_storage never_throws [0; 0; 0; 0; 0] 0 LegacyThreads.Raw Hp)
    as [[Hc _]|(t & Hm & [[Hc _]|[_ Hn]])]; [discriminate Hc|discriminate Hc|].
  exists t. split; [exact Hm|exact Hn].
Defined.

Lemma one_thread_initialises_witness :
  let s := Cxx11Threads.exec never_throws [0; 0] Cxx11Threads.init in
  Cxx11Threads.at_ (Cxx11Threads.threads s 0) = Cxx11Threads.Construct 0 /\
  Cxx11Threads.guard_ s = Cxx11Threads.Busy 0.
Proof.
  intros s. split; [vm_compute; reflexivity|].
  apply (one_thread_initialises never_throws [0; 0] 0 0 0 0); vm_compute; reflexivity.
Defined.

Lemma only_the_initialisation_blocks_witness :
  let s := Cxx11Threads.exec never_throws [0; 0; 1] Cxx11Threads.init in
  Cxx11Threads.step never_throws 1 s = None /\
  exists t0 n, Cxx11Threads.guard_ s = Cxx11Threads.Busy t0 /\ t0 <> 1 /\
    Cxx11Threads.at_ (Cxx11Threads.threads s t0) = Cxx11Threads.Construct n.
Proof.
  intros s.
  assert (Hb : Cxx11Threads.step never_throws 1 s = None) by (vm_compute; reflexivity).
  destruct (only_the_initialisation_blocks never_throws [0; 0; 1] 1 Hb)
    as (_ & t0 & n & Hg & Hne & Hat & _).
  split; [exact Hb|]. exists t0, n. split; [exact Hg|]. split; [exact Hne|exact Hat].
Defined.

Lemma mutex_serialises_construction_witness :
  let s := Ordering.exec Ordering.source stale_read Ordering.init in
  length (Ordering.mem s Ordering.LField) = 2 /\
  length (Ordering.mem s Ordering.LObject) = 2 /\
  length (Ordering.mem s Ordering.LField) <= 2.
Proof.
  intros s. split; [vm_compute; reflexivity|]. split; [vm_compute; reflexivity|].
  exact (proj1 (proj2 (mutex_serialises_construction Ordering.source stale_read))).
Defined.

Lemma locked_path_sees_constructed_member_witness :
  let th0 := Ordering.threads (Ordering.exec Ordering.source stale_read Ordering.init) 0 in
  let th1 := Ordering.threads (Ordering.exec Ordering.source stale_read Ordering.init) 1 in
  Ordering.at_ th0 = Ordering.Done 1 /\ 1 <= Ordering.cur th0 Ordering.LMutex /\
  Ordering.at_ th1 = Ordering.Done 0 /\ Ordering.cur th1 Ordering.LMutex = 0.
Proof.
  intros th0 th1.
  assert (Hm : 1 <= Ordering.cur th0 Ordering.LMutex) by (vm_compute; lia).
  assert (Hd : exists a, Ordering.at_ th0 = Ordering.Done a) by (eexists; vm_compute; reflexivity).
  destruct Hd as [a Ha].
  pose proof (proj2 (locked_path_sees_constructed_member Ordering.source stale_read 0) a Ha Hm)
    as ->.
  split; [exact Ha|]. split; [exact Hm|]. split; vm_compute; reflexivity.
Defined.

Lemma legacy_construction_is_lazy_witness :
  Legacy.object_ legacy_dep_live !! 2 = None /\
  Legacy.entries legacy_dep_live !! 2 = None /\
  Legacy.object_ legacy_dep_live !! 1 = Some 1.
Proof.
  destruct (legacy_construction_is_lazy ctor_dep 2 [0] legacy_dep_live 2 legacy_dep_live_run)
    as (Ho & He & _).
  { vm_compute. intros [H|[H|[H|[H|[H|[H|[]]]]]]]; discriminate H. }
  split; [exact Ho|]. split; [exact He|]. vm_compute; reflexivity.
Defined.

Lemma cxx11_construction_is_lazy_witness :
  Cxx11.slot cxx11_dep_live !! 2 = None /\
  Cxx11.entries cxx11_dep_live !! 2 = None /\
  Cxx11.slot cxx11_dep_live !! 1 = Some Cxx11.Live.
Proof.
  destruct (cxx11_construction_is_lazy ctor_dep 2 [0] cxx11_dep_live 2
              ltac:(vm_compute; reflexivity)) as (Ho & He & _).
  { vm_compute. intros [H|[H|[H|[H|[H|[H|[]]]]]]]; discriminate H. }
  split; [exact Ho|]. split; [exact He|]. vm_compute; reflexivity.
Defined.
